(** * ML_nuggets: the SimCLR and jet-autoencoder notebooks

    A shallow embedding of the code cells of [exercises/simclr.ipynb] and
    [exercises/anomaly_detection_jets.ipynb].

    Tensors are lists (vectors), lists of lists (matrices, images) and lists
    of those (batches).  Their entries are real numbers, and rounding is
    left out everywhere.  Module [SimCLR] gives the contrastive loss with
    exact exponentials and logarithms; the one value it keeps that is not a
    real number is the NaN of an empty mean, which [reduce_mean] renders as
    [None].  Module [Float32] gives the same lines with the range of
    float32: a result beyond the largest float is an infinity, a result
    below the smallest normal float is 0, and inf / inf and 0 / 0 are NaN.
    What the loss returns for extreme temperatures, for a single pair of
    views and on its masked diagonal depends on that range and is stated
    for [Float32]; the other properties are stated for the exact
    arithmetic.

    Calls into TensorFlow, Keras, NumPy and matplotlib are embedded by what
    those calls compute.  What depends on the random generator, on the
    downloaded data, on the optimizer or on which library call fails is a
    parameter of the model (classes [Backend], [SimCLRLib], [JetLib]); the
    weights of the SimCLR encoder are a record, the trained layers of the
    autoencoder a function. *)

From Stdlib Require Import String.
From Stdlib Require Import Reals Lra Lia List Arith ZArith Bool Permutation.
Import ListNotations.
Open Scope R_scope.

(** ** Tensor primitives *)

Module Tensor.

Definition vec := list R.
Definition mat := list (list R).

(** [tf.reduce_sum] of a rank-1 tensor. *)
Definition reduce_sum (v : vec) : R := fold_right Rplus 0 v.
Arguments reduce_sum : simpl never.

(** [tf.reduce_mean] of a rank-1 tensor; the mean of no element is NaN. *)
Definition reduce_mean (v : vec) : option R :=
  match v with
  | [] => None
  | _ :: _ => Some (reduce_sum v / INR (length v))
  end.

(** Elementwise binary operation on two tensors of one shape (on other
    shapes the libraries broadcast or raise; the properties below are about
    tensors of equal shape). *)
Definition map2 {A B C : Type} (f : A -> B -> C) (l1 : list A) (l2 : list B) : list C :=
  map (fun p => f (fst p) (snd p)) (combine l1 l2).

Definition dot (u v : vec) : R := reduce_sum (map2 Rmult u v).

(** [tf.matmul(a, b, transpose_b=True)]: entry (i, j) is the dot product of
    row i of [a] and row j of [b]. *)
Definition matmul_transpose_b (a b : mat) : mat :=
  map (fun ai => map (fun bj => dot ai bj) b) a.

(** [m / c] for a scalar [c]. *)
Definition scalar_div (m : mat) (c : R) : mat := map (map (fun x => x / c)) m.

(** [tf.eye(n)]. *)
Definition eye (n : nat) : mat :=
  map (fun i => map (fun j => if Nat.eqb i j then 1 else 0) (seq 0 n)) (seq 0 n).

(** Entry (i, k) of a matrix. *)
Definition entry (m : mat) (i k : nat) : R := nth k (nth i m []) 0.

Definition num_rows (m : mat) : nat := length m.
Definition num_cols (m : mat) : nat := length (hd [] m).

(** [tf.linalg.diag_part(m, k=k)]: the k-th diagonal, above the main one
    for positive [k] and below it for negative [k]. *)
Definition diag_part (m : mat) (k : Z) : vec :=
  if (0 <=? k)%Z
  then let d := Z.to_nat k in
       map (fun i => entry m i (i + d)) (seq 0 (Nat.min (num_rows m) (num_cols m - d)))
  else let d := Z.to_nat (- k) in
       map (fun i => entry m (i + d) i) (seq 0 (Nat.min (num_rows m - d) (num_cols m))).

(** A matrix with [n] rows of [n] entries. *)
Definition square (n : nat) (m : mat) : Prop :=
  length m = n /\ Forall (fun row => length row = n) m.

(** The sum of squares along the last axis. *)
Definition square_sum (v : vec) : R := reduce_sum (map (fun x => x * x) v).

(** The Euclidean norm of a vector. *)
Definition norm (v : vec) : R := sqrt (square_sum v).

(** [tf.math.l2_normalize(x, axis=1)] on one row, with the library's
    [epsilon=1e-12]: [x * rsqrt(maximum(reduce_sum(square(x)), epsilon))]. *)
Definition l2_normalize_eps : R := 1e-12.

Definition l2_normalize (v : vec) : vec :=
  let x_inv_norm := / sqrt (Rmax (square_sum v) l2_normalize_eps) in
  map (fun x => x * x_inv_norm) v.

End Tensor.

(** ** simclr.ipynb: the contrastive loss *)

Module SimCLR.
Import Tensor.

(** Lines 138-154 of the loss cell, as a function of the temperature-scaled
    similarity matrix [sim] and of [batch_size].  ([labels], lines 134-135,
    is computed and never read.) *)
Definition masked (sim : mat) (batch_size : nat) : mat :=
  let mask := eye (2 * batch_size) in
  map2 (map2 (fun s m => s - 1e9 * m)) sim mask.

Definition positives (sim : mat) (batch_size : nat) : vec :=
  diag_part sim (Z.of_nat batch_size) ++ diag_part sim (- Z.of_nat batch_size).

Definition nt_xent_terms (sim0 : mat) (batch_size : nat) : vec :=
  let sim := masked sim0 batch_size in
  let numerator := map exp (positives sim batch_size) in
  let denominator := map (fun row => reduce_sum (map exp row)) sim in
  map2 (fun n d => - ln (n / d)) numerator denominator.

Definition nt_xent_of_sim (sim0 : mat) (batch_size : nat) : option R :=
  reduce_mean (nt_xent_terms sim0 batch_size).

(** Lines 126-133: the similarity matrix of the concatenated batch. *)
Definition similarity (z1 z2 : mat) (temperature : R) : mat :=
  let z := z1 ++ z2 in
  scalar_div (matmul_transpose_b z z) temperature.

Definition contrastive_loss (z1 z2 : mat) (temperature : R) : option R :=
  nt_xent_of_sim (similarity z1 z2 temperature) (length z1).

(** [temperature=0.5] when the argument is left out. *)
Definition default_temperature : R := 1 / 2.

(** The positive partner of sample [i] in the concatenated batch. *)
Definition partner (N i : nat) : nat := if Nat.ltb i N then i + N else i - N.

(** The dot-product similarity of samples [i] and [k] of the batch [z]. *)
Definition dot_sim (z : mat) (i k : nat) : R := dot (nth i z []) (nth k z []).

(** The indices [k <> i] below [n]. *)
Definition others (n i : nat) : list nat := filter (fun k => negb (Nat.eqb k i)) (seq 0 n).

(** The published NT-Xent definition, in the words of the specification:
    the mean over the 2N samples of
    [-log(exp(sim(i,p(i))/t) / sum_{k<>i} exp(sim(i,k)/t))]. *)
Definition nt_xent_published (z1 z2 : mat) (t : R) : option R :=
  let z := z1 ++ z2 in
  let N := length z1 in
  reduce_mean
    (map (fun i => - ln (exp (dot_sim z i (partner N i) / t)
                         / reduce_sum (map (fun k => exp (dot_sim z i k / t)) (others (2 * N) i))))
         (seq 0 (2 * N))).

(** The same formula with the self-similarity kept in the denominator,
    lowered by 1e9 in the exponent. *)
Definition nt_xent_damped (z1 z2 : mat) (t : R) : option R :=
  let z := z1 ++ z2 in
  let N := length z1 in
  reduce_mean
    (map (fun i => - ln (exp (dot_sim z i (partner N i) / t)
                         / (reduce_sum (map (fun k => exp (dot_sim z i k / t)) (others (2 * N) i))
                            + exp (dot_sim z i i / t - 1e9))))
         (seq 0 (2 * N))).

(** The loss in index form: [damp f] is the similarity [f] with the diagonal
    lowered, [row_total] a row of the softmax denominator, [term] the loss of
    one sample. *)
Definition tabulate (n : nat) (f : nat -> nat -> R) : mat :=
  map (fun i => map (fun k => f i k) (seq 0 n)) (seq 0 n).

Definition damp (f : nat -> nat -> R) (i k : nat) : R :=
  f i k - 1e9 * (if Nat.eqb i k then 1 else 0).

Definition row_total (f : nat -> nat -> R) (n i : nat) : R :=
  reduce_sum (map (fun k => exp (damp f i k)) (seq 0 n)).

Definition term (f : nat -> nat -> R) (N i : nat) : R :=
  - ln (exp (damp f i (partner N i)) / row_total f (2 * N) i).

(** Rows of unit Euclidean norm. *)
Definition l2_normalized (z : mat) : Prop := Forall (fun v => norm v = 1) z.

(** *** Sample inputs *)

(** Two views of one sample whose embeddings have squared norm 1e9 and are
    orthogonal to each other. *)
Definition far_z1 : mat := [[30000; 10000; 0; 0]].
Definition far_z2 : mat := [[0; 0; 30000; 10000]].

(** Two orthogonal unit embeddings. *)
Definition unit_z1 : mat := [[1; 0]].
Definition unit_z2 : mat := [[0; 1]].



End SimCLR.

(** ** simclr.ipynb: the contrastive loss within the range of float32 *)

Module Float32.
Import Tensor SimCLR.

(** A float32 value with rounding left out: a real number, an infinity or
    NaN. *)
Inductive f32 : Type :=
| Num (x : R)
| PInf
| NInf
| NaN.

(** The largest float32 number, and the smallest positive normal one. *)
Definition max_float : R := 2 ^ 128 - 2 ^ 104.
Definition min_normal : R := / 2 ^ 126.

(** What an operation returns whose exact result is [x]: an infinity beyond
    the largest number, 0 below the smallest normal one (subnormal results
    are flushed to zero), and otherwise [x], whose rounding is left out. *)
Definition of_real (x : R) : f32 :=
  if Rlt_dec max_float x then PInf
  else if Rlt_dec x (- max_float) then NInf
  else if Rlt_dec (Rabs x) min_normal then Num 0
  else Num x.

(** [tf.exp] on an entry of the similarity matrix. *)
Definition f32_exp (x : R) : f32 := of_real (exp x).

Definition f32_add (a b : f32) : f32 :=
  match a, b with
  | NaN, _ | _, NaN => NaN
  | PInf, NInf | NInf, PInf => NaN
  | PInf, _ | _, PInf => PInf
  | NInf, _ | _, NInf => NInf
  | Num x, Num y => of_real (x + y)
  end.

Definition f32_div (a b : f32) : f32 :=
  match a, b with
  | NaN, _ | _, NaN => NaN
  | Num x, Num y =>
      if Req_dec_T y 0
      then (if Req_dec_T x 0 then NaN else if Rlt_dec 0 x then PInf else NInf)
      else of_real (x / y)
  | Num _, _ => Num 0
  | PInf, Num y => if Rlt_dec y 0 then NInf else PInf
  | NInf, Num y => if Rlt_dec y 0 then PInf else NInf
  | _, _ => NaN
  end.

(** [tf.math.log]. *)
Definition f32_log (a : f32) : f32 :=
  match a with
  | Num x => if Rlt_dec x 0 then NaN
             else if Req_dec_T x 0 then NInf
             else of_real (ln x)
  | PInf => PInf
  | _ => NaN
  end.

Definition f32_neg (a : f32) : f32 :=
  match a with
  | Num x => Num (- x)
  | PInf => NInf
  | NInf => PInf
  | NaN => NaN
  end.

Definition f32_reduce_sum (l : list f32) : f32 := fold_right f32_add (Num 0) l.

(** [tf.reduce_mean]: the mean of no value is 0 / 0. *)
Definition f32_reduce_mean (l : list f32) : f32 :=
  f32_div (f32_reduce_sum l) (Num (INR (length l))).

(** Lines 141-154 of the loss cell on the masked similarity matrix, whose
    entries are taken as computed exactly. *)
Definition nt_xent_terms_f32 (sim0 : mat) (batch_size : nat) : list f32 :=
  let sim := masked sim0 batch_size in
  let numerator := map f32_exp (positives sim batch_size) in
  let denominator := map (fun row => f32_reduce_sum (map f32_exp row)) sim in
  map2 (fun n d => f32_neg (f32_log (f32_div n d))) numerator denominator.

Definition nt_xent_of_sim_f32 (sim0 : mat) (batch_size : nat) : f32 :=
  f32_reduce_mean (nt_xent_terms_f32 sim0 batch_size).

Definition contrastive_loss_f32 (z1 z2 : mat) (temperature : R) : f32 :=
  nt_xent_of_sim_f32 (similarity z1 z2 temperature) (length z1).

(** A value that is not negative: a number from 0 on, or [+inf]. *)
Definition f32_nonneg (a : f32) : Prop :=
  match a with
  | Num x => 0 <= x
  | PInf => True
  | _ => False
  end.

(** The loss of one sample in index form, and by the published definition. *)
Definition term_f32 (f : nat -> nat -> R) (N i : nat) : f32 :=
  f32_neg (f32_log (f32_div (f32_exp (damp f i (partner N i)))
                            (f32_reduce_sum (map (fun k => f32_exp (damp f i k))
                                                 (seq 0 (2 * N)))))).

Definition nt_xent_term (f : nat -> nat -> R) (N i : nat) : R :=
  - ln (exp (f i (partner N i))
        / reduce_sum (map (fun k => exp (f i k)) (others (2 * N) i))).

(** The published NT-Xent value of a 2N x 2N matrix of scaled similarities. *)
Definition nt_xent_value (sim : mat) (N : nat) : R :=
  reduce_sum (map (nt_xent_term (entry sim) N) (seq 0 (2 * N))) / INR (2 * N).

(** Scaled similarities and a batch size for which no step of the loss
    leaves the range of float32: every entry within [-30, 30], at most 2^20
    samples. *)
Definition in_range (sim : mat) (N : nat) : Prop :=
  INR (2 * N) <= 2 ^ 20 /\
  forall i k, (i < 2 * N)%nat -> (k < 2 * N)%nat -> -30 <= entry sim i k <= 30.

End Float32.

(** ** simclr.ipynb: encoder and projection head *)

Module Encoder.
Import Tensor.

(** A tensor of shape (height, width, channels). *)
Definition tensor3 := list (list (list R)).

Definition relu (x : R) : R := Rmax x 0.

(** One output channel of a [Conv2D] layer: a 3 x 3 x C kernel and a bias. *)
Record conv_filter := { conv_kernel : tensor3; conv_bias : R }.

Definition pixel (x : tensor3) (r c : nat) : vec := nth c (nth r x []) [].

(** The 3 x 3 window of [x] whose corner is (r, c), weighted by [kernel]. *)
Definition window (kernel x : tensor3) (r c : nat) : R :=
  reduce_sum
    (map (fun di =>
            reduce_sum
              (map (fun dj => dot (pixel kernel di dj) (pixel x (r + di) (c + dj)))
                   (seq 0 3)))
         (seq 0 3)).

(** Output size of a 3-wide kernel at stride 2 with [padding="valid"]. *)
Definition out_size (n : nat) : nat := if Nat.ltb n 3 then 0%nat else ((n - 3) / 2 + 1)%nat.

(** [layers.Conv2D(len(filters), 3, strides=2, activation='relu')]. *)
Definition conv2d_relu (filters : list conv_filter) (x : tensor3) : tensor3 :=
  let h := out_size (length x) in
  let w := out_size (length (hd [] x)) in
  map (fun i =>
         map (fun j =>
                map (fun f => relu (window (conv_kernel f) x (2 * i) (2 * j) + conv_bias f))
                    filters)
             (seq 0 w))
      (seq 0 h).

(** [layers.GlobalAveragePooling2D()]: the mean of each channel. *)
Definition global_average_pooling (x : tensor3) : vec :=
  let h := length x in
  let w := length (hd [] x) in
  let channels := length (hd [] (hd [] x)) in
  map (fun c =>
         reduce_sum (map (fun row => reduce_sum (map (fun px => nth c px 0) row)) x)
         / INR (h * w))
      (seq 0 channels).

(** A [Dense] layer: one kernel row and one bias per unit. *)
Record dense_layer := { kernel : mat; bias : vec }.

Definition dense (activation : R -> R) (l : dense_layer) (x : vec) : vec :=
  map activation (map2 Rplus (map (fun w => dot w x) (kernel l)) (bias l)).

(** The trainable weights of the model that [create_encoder] builds. *)
Record encoder_weights := {
  conv1 : list conv_filter;
  conv2 : list conv_filter;
  head1 : dense_layer;
  head2 : dense_layer
}.

Definition base_model (w : encoder_weights) (img : tensor3) : vec :=
  global_average_pooling (conv2d_relu (conv2 w) (conv2d_relu (conv1 w) img)).

(** The projection head applied to the features, before normalization. *)
Definition projection (w : encoder_weights) (img : tensor3) : vec :=
  dense (fun x => x) (head2 w) (dense relu (head1 w) (base_model w img)).

(** [tf.math.l2_normalize(outputs, axis=1)] on a batch of rows. *)
Definition l2_normalize_rows (outputs : mat) : mat := map l2_normalize outputs.

(** The model returned by [create_encoder], at weights [w], on a batch. *)
Definition create_encoder (w : encoder_weights) (inputs : list tensor3) : mat :=
  l2_normalize_rows (map (projection w) inputs).

(** Keras initialises every bias to zero. *)
Definition zero_biases (w : encoder_weights) : Prop :=
  Forall (fun f => conv_bias f = 0) (conv1 w) /\
  Forall (fun f => conv_bias f = 0) (conv2 w) /\
  Forall (fun b => b = 0) (bias (head1 w)) /\
  Forall (fun b => b = 0) (bias (head2 w)).

Definition zeros (v : vec) : Prop := Forall (fun x => x = 0) v.

Definition all_zero3 (x : tensor3) : Prop :=
  Forall (Forall (Forall (fun v => v = 0))) x.

(** A black 28 x 28 x 1 image. *)
Definition black_image : tensor3 := repeat (repeat [0] 28) 28.

(** Weights of the shapes that [create_encoder()] builds (32 and 64 filters,
    heads of 64 and 32 units), every kernel entry 1/10, every bias zero. *)
Definition flat_filter (channels : nat) : conv_filter :=
  {| conv_kernel := repeat (repeat (repeat (1 / 10) channels) 3) 3; conv_bias := 0 |}.

Definition flat_dense (inputs units : nat) (b : vec) : dense_layer :=
  {| kernel := repeat (repeat (1 / 10) inputs) units; bias := b |}.

Definition flat_weights (last_bias : vec) : encoder_weights :=
  {| conv1 := repeat (flat_filter 1) 32;
     conv2 := repeat (flat_filter 32) 64;
     head1 := flat_dense 64 64 (repeat 0 64);
     head2 := flat_dense 64 32 last_bias |}.

Definition fresh_weights : encoder_weights := flat_weights (repeat 0 32).

(** The same weights after the last bias has moved off zero. *)
Definition nudged_weights : encoder_weights := flat_weights (1 :: repeat 0 31).

End Encoder.

(** ** anomaly_detection_jets.ipynb: jet images and the autoencoder output *)

Module Jets.
Import Tensor.

Definition im_size : nat := 16.

(** A jet image: rows of pixels; the single channel is left implicit. *)
Definition image := mat.

(** [img.reshape(im_size * im_size)]. *)
Definition pixels (img : image) : vec := concat img.

Definition pixel_sum (img : image) : R := reduce_sum (pixels img).

(** [images / np.sum(images.reshape(-1, 1, 1, 1, im_size * im_size), axis=-1)]:
    every image is divided by the sum of its own pixels. *)
Definition rescale_image (img : image) : image :=
  map (map (fun x => x / pixel_sum img)) img.

Definition rescale (images : list image) : list image := map rescale_image images.

(** [Softmax(axis=[-2, -3])] on one image: over several axes Keras computes
    [exp(x - reduce_logsumexp(x, axis))]. *)
Definition reduce_logsumexp (img : image) : R := ln (reduce_sum (map exp (pixels img))).

Definition softmax (img : image) : image :=
  map (map (fun x => exp (x - reduce_logsumexp img))) img.

(** The autoencoder: [layers] stands for the trained layers from [x_in] to
    the last [Conv2DTranspose], [softmax] is applied to their output. *)
Definition model (layers : image -> image) (x_in : image) : image :=
  softmax (layers x_in).

Definition predict (layers : image -> image) (images : list image) : list image :=
  map (model layers) images.

Definition has_shape (h w : nat) (img : image) : Prop :=
  length img = h /\ Forall (fun row => length row = w) img.

Definition nonneg_pixels (img : image) : Prop := Forall (fun p => 0 <= p) (pixels img).

(** *** plot_jet_images *)

(** The calls that [plot_jet_images] issues to matplotlib, in order. *)
Inductive plt_call : Type :=
| figure (width height : nat)
| subplot (nrows ncols index : nat)
| title (s : string)
| imshow (img : image)
| colorbar
| xlabel (s : string)
| ylabel (s : string)
| set_label (s : string)
| tight_layout
| savefig (filename : string).

Definition default_filename : string := "jet_image.pdf".

Definition enumerate {A : Type} (l : list A) : list (nat * A) :=
  combine (seq 0 (length l)) l.

Definition plot_one (n_images : nat) (item : nat * (image * string)) : list plt_call :=
  let '(i, (img, ttl)) := item in
  [ subplot 1 n_images (i + 1);
    title ttl;
    imshow img;
    colorbar;
    xlabel "$\Delta\eta$ cell";
    ylabel "$\Delta\phi$ cell";
    set_label "$p_T/p_T^{jet}$" ].

Definition plot_jet_images
    (images : list image) (titles : list string) (filename : option string) : list plt_call :=
  let filename := match filename with Some f => f | None => default_filename end in
  let n_images := length images in
  figure (5 * n_images) 5
  :: flat_map (plot_one n_images) (enumerate (combine images titles))
  ++ [tight_layout; savefig filename].

(** What a sequence of calls leaves behind. *)
Definition subplots (calls : list plt_call) : nat :=
  length (filter (fun c => match c with subplot _ _ _ => true | _ => false end) calls).

Definition shown (calls : list plt_call) : list image :=
  flat_map (fun c => match c with imshow img => [img] | _ => [] end) calls.

Definition files_written (calls : list plt_call) : list string :=
  flat_map (fun c => match c with savefig f => [f] | _ => [] end) calls.

(** *** Sample inputs *)

Definition dot_image : image := [[1]].

(** A jet image with all its momentum in two pixels, a 16 x 16 image
    without energy, and layers that return a constant 16 x 16 output. *)
Definition two_pixel_image : image := (3 :: 1 :: repeat 0 14) :: repeat (repeat 0 16) 15.

Definition empty_image : image := repeat (repeat 0 16) 16.

Definition flat_layers (x : image) : image := repeat (repeat 0 16) 16.

End Jets.

(** ** Library calls, failures and the random generator *)

Module Effects.
Import Tensor Encoder.

(** What the notebooks take from their libraries: the exceptions the
    libraries raise, the state of their random generators, and [fault],
    which tells for each library call a run starts, counted from 0, whether
    the library fails there and with which exception. *)
Class Backend : Type := {
  exn : Type;
  rng : Type;
  fault : nat -> option exn
}.

Section Monad.
Context {B : Backend}.

(** The state a run threads: the number of library calls started so far
    (those that failed included), the random generator, and the batches
    handed to the SimCLR encoder. *)
Record world : Type := { calls : nat; gen : rng; fed : list (list tensor3) }.

Definition init_world (g : rng) : world := {| calls := 0; gen := g; fed := [] |}.

Inductive outcome (A : Type) : Type :=
| Ok (a : A) (w : world)
| Raise (e : exn) (w : world).

Definition final_world {A : Type} (r : outcome A) : world :=
  match r with Ok _ _ w => w | Raise _ _ w => w end.

Definition M (A : Type) : Type := world -> outcome A.

Definition ret {A : Type} (a : A) : M A := fun w => Ok A a w.

Definition bind {A C : Type} (m : M A) (k : A -> M C) : M C :=
  fun w => match m w with
           | Ok _ a w' => k a w'
           | Raise _ e w' => Raise C e w'
           end.

(** One call into a library, or the consecutive library calls of one
    expression.  The call is counted; it raises where the library fails, and
    otherwise returns [f]'s value and leaves [f]'s generator and log. *)
Definition lib {A : Type} (f : world -> A * world) : M A :=
  fun w => match fault (calls w) with
           | Some e => Raise A e {| calls := S (calls w); gen := gen w; fed := fed w |}
           | None => let (a, w') := f w in
                     Ok A a {| calls := S (calls w); gen := gen w'; fed := fed w' |}
           end.

(** A library call that only computes. *)
Definition lib_pure {A : Type} (a : A) : M A := lib (fun w => (a, w)).

(** A library call that draws from the random generator. *)
Definition lib_rng {A : Type} (f : rng -> A * rng) : M A :=
  lib (fun w => let (a, g) := f (gen w) in
                (a, {| calls := calls w; gen := g; fed := fed w |})).

(** A library call whose result the notebooks only pass on to other
    library calls (figures, axes, summaries). *)
Definition lib_call (name : string) : M unit := lib_pure tt.

(** [for x in l: st = body(st, x)]. *)
Fixpoint for_each {A S : Type} (l : list A) (body : S -> A -> M S) (st : S) : M S :=
  match l with
  | [] => ret st
  | x :: l' => bind (body st x) (for_each l' body)
  end.

(** [try: m except Exception as e: handler(e)], the statement the notebooks
    never use. *)
Definition try_except {A : Type} (m : M A) (handler : exn -> M A) : M A :=
  fun w => match m w with
           | Ok _ a w' => Ok A a w'
           | Raise _ e w' => handler e w'
           end.

(** A run that started in [w] ended in [r] without hiding a failure.  If it
    ended normally, none of the library calls it started has failed.  If it
    raised, the last library call it started has failed, the exception raised
    is that call's, and all calls before it succeeded. *)
Definition faithful {A : Type} (w : world) (r : outcome A) : Prop :=
  match r with
  | Ok _ _ w' =>
      (calls w <= calls w')%nat /\
      (forall j, (calls w <= j < calls w')%nat -> fault j = None)
  | Raise _ e w' =>
      (calls w < calls w')%nat /\
      fault (pred (calls w')) = Some e /\
      (forall j, (calls w <= j < pred (calls w'))%nat -> fault j = None)
  end.

Definition propagates {A : Type} (m : M A) : Prop := forall w, faithful w (m w).

End Monad.

Arguments Ok {B A} a w.
Arguments Raise {B A} e w.

Declare Scope effect_scope.
Delimit Scope effect_scope with effect.
Notation "x <- m ;; k" := (bind m (fun x => k))
  (at level 61, m at next level, right associativity) : effect_scope.
Notation "m ;;; k" := (bind m (fun _ => k))
  (at level 61, right associativity) : effect_scope.

End Effects.

(** ** simclr.ipynb: augmentation, dataset and training loop *)

Module Pipeline.
Import Tensor Encoder SimCLR Effects.
Local Open Scope effect_scope.

Definition image := tensor3.

(** The Keras and tf.data operations of the notebook whose result depends on
    the random generator, on the downloaded data or on the optimizer. *)
Class SimCLRLib {B : Backend} : Type := {
  opt_state : Type;
  gradients : Type;
  random_crop : nat -> nat -> image -> rng -> image * rng;
  random_flip : string -> image -> rng -> image * rng;
  random_rotation : R -> image -> rng -> image * rng;
  random_zoom : R -> image -> rng -> image * rng;
  shuffle : nat -> list image -> rng -> list image * rng;
  shuffle_perm : forall n l g, Permutation (fst (shuffle n l g)) l;
  mnist : (list mat * list nat) * (list mat * list nat);
  initial_weights : rng -> encoder_weights * rng;
  adam : opt_state;
  tape_gradient : encoder_weights -> list image -> list image -> gradients;
  apply_gradients : opt_state -> gradients -> encoder_weights -> encoder_weights * opt_state
}.

Section Notebook.
Context {B : Backend} {L : SimCLRLib}.

(** *** SimCLRPreprocessing *)

Definition layer : Type := image -> rng -> image * rng.

(** [layers.Rescaling(scale)]. *)
Definition rescaling (scale : R) : layer :=
  fun x g => (map (map (map (fun v => v * scale))) x, g).

(** [tf.keras.Sequential(layers)]: the layers in turn. *)
Definition sequential (layers : list layer) : layer :=
  fun x g => fold_left (fun acc l => l (fst acc) (snd acc)) layers (x, g).

Definition augment : layer :=
  sequential [ rescaling (1 / 255);
               random_crop 28 28;
               random_flip "horizontal";
               random_rotation (1 / 10);
               random_zoom (1 / 5) ].

Definition call (x : image) (g : rng) : (image * image) * rng :=
  let (view1, g1) := augment x g in
  let (view2, g2) := augment x g1 in
  ((view1, view2), g2).

(** The augmentation pipeline in the words of the specification: rescale,
    random crop, random flip, random rotation, random zoom. *)
Definition augmentation_pipeline (x : image) (g : rng) : image * rng :=
  let (a, g0) := rescaling (1 / 255) x g in
  let (b, g1) := random_crop 28 28 a g0 in
  let (c, g2) := random_flip "horizontal" b g1 in
  let (d, g3) := random_rotation (1 / 10) c g2 in
  random_zoom (1 / 5) d g3.

(** *** The dataset *)

(** [x[..., tf.newaxis]]: a channel axis of size 1. *)
Definition newaxis (x : mat) : image := map (map (fun v => [v])) x.

Definition x_train : list image := map newaxis (fst (fst mnist)).
Definition x_test : list image := map newaxis (fst (snd mnist)).

(** [Dataset.map(f)], the elements in order. *)
Fixpoint dataset_map {A C : Type} (f : A -> rng -> C * rng) (l : list A) (g : rng)
  : list C * rng :=
  match l with
  | [] => ([], g)
  | x :: l' => let (y, g1) := f x g in
               let (ys, g2) := dataset_map f l' g1 in
               (y :: ys, g2)
  end.

(** [Dataset.batch(n)]: [cur] holds, newest first, the elements of the batch
    being filled. *)
Fixpoint batch_from {A : Type} (n : nat) (cur l : list A) : list (list A) :=
  match l with
  | [] => match cur with [] => [] | _ :: _ => [rev cur] end
  | x :: l' => if Nat.eqb (length (x :: cur)) n
               then rev (x :: cur) :: batch_from n [] l'
               else batch_from n (x :: cur) l'
  end.

Definition batch {A : Type} (n : nat) (l : list A) : list (list A) := batch_from n [] l.

Definition batch_size : nat := 512.

(** One pass over [train_ds]: shuffle, map [augment], batch. A batch of
    pairs of views is a pair of batches [(x1, x2)]. *)
Definition train_ds (g : rng) : list (list image * list image) * rng :=
  let (shuffled, g1) := shuffle 1024 x_train g in
  let (views, g2) := dataset_map call shuffled g1 in
  (map (fun b => (map fst b, map snd b)) (batch batch_size views), g2).

(** *** The training loop *)

Record train_state : Type := {
  weights : encoder_weights;
  optimizer : opt_state;
  losses : list (option R)
}.

(** [model(x, training=True)]: the encoder is fed [x]. *)
Definition model_call (w : encoder_weights) (x : list image) : M mat :=
  lib (fun wd => (create_encoder w x,
                  {| calls := calls wd; gen := gen wd; fed := fed wd ++ [x] |})).

Definition train_step (st : train_state) (b : list image * list image) : M train_state :=
  let (x1, x2) := b in
  z1 <- model_call (weights st) x1 ;;
  z2 <- model_call (weights st) x2 ;;
  loss <- lib_pure (contrastive_loss z1 z2 default_temperature) ;;
  grads <- lib_pure (tape_gradient (weights st) x1 x2) ;;
  upd <- lib_pure (apply_gradients (optimizer st) grads (weights st)) ;;
  lib_call "loss.numpy" ;;;
  ret {| weights := fst upd; optimizer := snd upd; losses := losses st ++ [loss] |}.

Definition train_epoch (st : train_state) (epoch : nat) : M train_state :=
  batches <- lib_rng train_ds ;;
  st' <- for_each batches train_step
           {| weights := weights st; optimizer := optimizer st; losses := [] |} ;;
  lib_call "np.mean" ;;; lib_call "print" ;;;
  ret st'.

(** The cell "Fetch data and train". *)
Definition training_cell : M train_state :=
  lib_call "mnist.load_data" ;;;
  w0 <- lib_rng initial_weights ;;
  opt <- lib_pure adam ;;
  for_each (seq 0 20) train_epoch {| weights := w0; optimizer := opt; losses := [] |}.

(** The cells after training, as the library calls they make: the encoder on
    the rescaled test images, t-SNE and the scatter plot, then the linear
    classifier and its plot. *)
Definition test_inputs : list image := map (map (map (map (fun v => v / 255)))) x_test.

(** t-SNE of the features and the scatter plot; only the plot of the
    encoder's features has a title. *)
Definition plot_embedding (titled : bool) : M unit :=
  lib_call "TSNE" ;;; lib_call "tsne.fit_transform" ;;;
  lib_call "plt.figure" ;;;
  lib_call "embeddings_2d[:, 0]" ;;; lib_call "embeddings_2d[:, 1]" ;;;
  lib_call "plt.scatter" ;;; lib_call "plt.colorbar" ;;;
  (if titled then lib_call "plt.title" else ret tt) ;;;
  lib_call "plt.grid" ;;; lib_call "plt.show".

(** The cell "Linear Evaluation". *)
Definition linear_evaluation : M unit :=
  lib_call "layers.Dense" ;;; lib_call "tf.keras.Sequential" ;;;
  lib_call "layers.Dense" ;;; lib_call "tf.keras.Sequential" ;;;
  lib_call "classifier.compile" ;;;
  lib_call "x_train / 255." ;;; lib_call "classifier.fit".

Definition notebook : M unit :=
  st <- training_cell ;;
  inputs <- lib_pure test_inputs ;;
  features <- model_call (weights st) inputs ;;
  lib_call "numpy" ;;;
  plot_embedding true ;;;
  linear_evaluation ;;;
  lib_call "x_test / 255." ;;; lib_call "classifier" ;;; lib_call "numpy" ;;;
  plot_embedding false.

(** A view: what [augment] returns on a training image. *)
Definition is_view (v : image) : Prop :=
  exists x g, In x x_train /\ v = fst (augment x g).

(** The encoder has been fed views only. *)
Definition views_only (w : world) : Prop := Forall (Forall is_view) (fed w).

(** [m] keeps [views_only], and its value satisfies [Q]. *)
Definition keeps {A : Type} (m : M A) (Q : A -> Prop) : Prop :=
  forall w, views_only w ->
            views_only (final_world (m w)) /\
            match m w with Ok a _ => Q a | Raise _ _ => True end.

End Notebook.

End Pipeline.

(** ** anomaly_detection_jets.ipynb: the cells as library calls *)

Module JetsNotebook.
Import Tensor Jets Effects.
Local Open Scope effect_scope.

(** The jetnet, scikit-learn and Keras operations of the notebook. *)
Class JetLib {B : Backend} : Type := {
  jet_data : Type;
  particles : Type;
  ae_weights : Type;
  top_tagging : jet_data;
  select_jets : jet_data -> rng -> (particles * particles) * rng;
  train_test_split : particles -> particles * particles;
  to_image : particles -> list image;
  ae_initial : rng -> ae_weights * rng;
  ae_layers : ae_weights -> image -> image;
  fit : ae_weights -> list image -> list image -> rng -> ae_weights * rng
}.

Section Notebook.
Context {B : Backend} {L : JetLib}.

(** Every matplotlib call of [plot_jet_images] is a library call. *)
Definition plot (images : list image) (titles : list string) (filename : option string)
  : M unit :=
  for_each (plot_jet_images images titles filename) (fun _ c => lib_pure tt) tt.

(** [np.mean(np.power(reco - test, 2).reshape(-1, im_size * im_size), axis=-1)]. *)
Definition mse_loss (reco test : list image) : list R :=
  map2 (fun r t =>
          reduce_sum (map2 (fun a b => (a - b) * (a - b)) (pixels r) (pixels t))
          / INR (im_size * im_size))
       reco test.

Definition plot_losses : M unit :=
  lib_call "plt.figure" ;;;
  lib_call "np.max" ;;; lib_call "np.max" ;;; lib_call "np.arange" ;;;
  lib_call "plt.hist" ;;; lib_call "plt.hist" ;;; lib_call "plt.legend" ;;;
  lib_call "plt.xlabel" ;;; lib_call "plt.ylabel" ;;;
  lib_call "np.max" ;;; lib_call "plt.xlim" ;;;
  lib_call "plt.show".

Definition notebook : M (list R) :=
  data <- lib_pure top_tagging ;;
  sel <- lib_rng (select_jets data) ;;
  qcd <- lib_pure (train_test_split (fst sel)) ;;
  top <- lib_pure (train_test_split (snd sel)) ;;
  qcd_train_images <- lib_pure (to_image (fst qcd)) ;;
  qcd_test_images <- lib_pure (to_image (snd qcd)) ;;
  top_test_images <- lib_pure (to_image (snd top)) ;;
  qcd_train_images <- lib_pure (rescale qcd_train_images) ;;
  qcd_test_images <- lib_pure (rescale qcd_test_images) ;;
  top_test_images <- lib_pure (rescale top_test_images) ;;
  plot [nth 0 qcd_test_images []; nth 0 top_test_images []]
       ["QCD jet image"; "Top quark jet image"]%string None ;;;
  w0 <- lib_rng ae_initial ;;
  lib_call "model.compile" ;;; lib_call "model.summary" ;;;
  w <- lib_rng (fit w0 qcd_train_images qcd_train_images) ;;
  qcd_reco_image <- lib_pure (predict (ae_layers w) (firstn 1 qcd_test_images)) ;;
  plot [nth 0 qcd_test_images []; nth 0 qcd_reco_image []]
       ["Input QCD jet image"; "Reconstructed QCD jet image"]%string None ;;;
  top_reco_image <- lib_pure (predict (ae_layers w) (firstn 1 top_test_images)) ;;
  plot [nth 0 top_test_images []; nth 0 top_reco_image []]
       ["Input top quark jet image"; "Reconstructed top quark jet image"]%string None ;;;
  qcd_reco_images <- lib_pure (predict (ae_layers w) qcd_test_images) ;;
  top_reco_images <- lib_pure (predict (ae_layers w) top_test_images) ;;
  loss_qcd <- lib_pure (mse_loss qcd_reco_images qcd_test_images) ;;
  loss_top <- lib_pure (mse_loss top_reco_images top_test_images) ;;
  loss_all <- lib_pure (loss_qcd ++ loss_top) ;;
  plot_losses ;;;
  ret loss_all.

End Notebook.

End JetsNotebook.

(** ** A small instance of the libraries *)

Module Demo.
Import Tensor Encoder Effects Pipeline JetsNotebook.

(** Exceptions are named, the generator is a counter, and the sixth library
    call of a run (call 5) runs out of memory. *)
#[export] Instance demo_backend : Backend := {|
  exn := string;
  rng := nat;
  fault := fun n => if Nat.eqb n 5 then Some "ResourceExhaustedError"%string else None
|}.

(** Layers that leave the image alone, a shuffle that keeps the order, a
    training set of one image with one pixel. *)
#[export] Instance demo_simclr : SimCLRLib := {|
  opt_state := unit;
  gradients := unit;
  random_crop := fun _ _ x g => (x, S g);
  random_flip := fun _ x g => (x, S g);
  random_rotation := fun _ x g => (x, S g);
  random_zoom := fun _ x g => (x, S g);
  shuffle := fun _ l g => (l, S g);
  shuffle_perm := fun _ l _ => Permutation_refl l;
  mnist := (([[[255]]], [5%nat]), ([], []));
  initial_weights := fun g => (fresh_weights, S g);
  adam := tt;
  tape_gradient := fun _ _ _ => tt;
  apply_gradients := fun o _ w => (w, o)
|}.

#[export] Instance demo_jets : JetLib := {|
  jet_data := unit;
  particles := unit;
  ae_weights := unit;
  top_tagging := tt;
  select_jets := fun _ g => ((tt, tt), S g);
  train_test_split := fun _ => (tt, tt);
  to_image := fun _ => [[[1]]];
  ae_initial := fun g => (tt, S g);
  ae_layers := fun _ x => x;
  fit := fun w _ _ g => (w, S g)
|}.

End Demo.

(** ** Notions used to state further properties of the notebooks *)

Module Notions.
Import Tensor Jets.

(** Every embedding of a batch multiplied by [c]. *)
Definition scale_rows (c : R) (z : mat) : mat := map (map (fun x => c * x)) z.

(** Every pixel of an image multiplied by [c]. *)
Definition scale_image (c : R) (img : image) : image := map (map (fun x => c * x)) img.

(** The grid position of every [subplot] call, in order. *)
Definition subplot_positions (calls : list plt_call) : list (nat * nat * nat) :=
  flat_map (fun c => match c with subplot r n i => [(r, n, i)] | _ => [] end) calls.

(** The titles set, in order. *)
Definition titles_set (calls : list plt_call) : list string :=
  flat_map (fun c => match c with title s => [s] | _ => [] end) calls.

(** A vector without negative entries. *)
Definition nonneg (v : vec) : Prop := Forall (fun x => 0 <= x) v.

(** A recorded loss that is a number, and not a negative one. *)
Definition good_loss (loss : option R) : Prop := exists v, loss = Some v /\ 0 <= v.

(** An image whose pixels lie in [0, 1]. *)
Definition unit_range (img : image) : Prop := Forall (fun p => 0 <= p <= 1) (pixels img).

End Notions.

Module TrainingNotions.
Import Tensor Encoder Effects Pipeline Notions.

Section Losses.
Context {B : Backend} {L : SimCLRLib}.

(** The losses a training state holds are numbers, none negative. *)
Definition good_losses (st : train_state) : Prop := Forall good_loss (losses st).

End Losses.

End TrainingNotions.

(** ** simclr.ipynb: the linear evaluation *)

Module Classifier.
Import Tensor Encoder.

(** [activation='softmax'] on the last axis: [exp(x) / reduce_sum(exp(x))]. *)
Definition softmax_activation (v : vec) : vec :=
  map (fun x => exp x / reduce_sum (map exp v)) v.

(** [layers.Dense(units, activation='softmax')]. *)
Definition dense_softmax (l : dense_layer) (x : vec) : vec :=
  softmax_activation (map2 Rplus (map (fun w => dot w x) (kernel l)) (bias l)).

(** The two dense layers the cell adds on top of the encoder. *)
Record classifier_weights := { frozen_dense : dense_layer; output_dense : dense_layer }.

(** [tf.keras.Sequential([model, layers.Dense(64, activation='relu', trainable=False)])]. *)
Definition frozen_encoder (w : encoder_weights) (c : classifier_weights) (inputs : list tensor3)
  : mat :=
  map (dense relu (frozen_dense c)) (create_encoder w inputs).

(** [tf.keras.Sequential([frozen_encoder, layers.Dense(10, activation='softmax')])]. *)
Definition classifier (w : encoder_weights) (c : classifier_weights) (inputs : list tensor3)
  : mat :=
  map (dense_softmax (output_dense c)) (frozen_encoder w c inputs).

(** Layers of the cell's sizes, 64 and 10 units, with flat kernels. *)
Definition flat_classifier : classifier_weights :=
  {| frozen_dense := flat_dense 32 64 (repeat 0 64);
     output_dense := flat_dense 64 10 (repeat 0 10) |}.

End Classifier.

(** * Proofs *)

(** ** The embedding on small inputs *)

Module Checks.
Import Tensor SimCLR Encoder Jets Pipeline.

Example eye_2 : eye 2 = [[1; 0]; [0; 1]].
Proof. reflexivity. Qed.

Example diag_part_above :
  diag_part [[1; 2; 3; 4]; [5; 6; 7; 8]; [9; 10; 11; 12]; [13; 14; 15; 16]] 2 = [3; 8].
Proof. reflexivity. Qed.

Example diag_part_below :
  diag_part [[1; 2; 3; 4]; [5; 6; 7; 8]; [9; 10; 11; 12]; [13; 14; 15; 16]] (-2) = [9; 14].
Proof. reflexivity. Qed.

(** The loss cell, line by line, on two orthogonal unit embeddings at the
    default temperature. *)
Example contrastive_loss_unit :
  contrastive_loss unit_z1 unit_z2 default_temperature = Some (ln (1 + exp (2 - 1e9))).
Proof.
  unfold contrastive_loss, nt_xent_of_sim, nt_xent_terms, masked, positives, similarity,
    scalar_div, matmul_transpose_b, unit_z1, unit_z2, eye, diag_part, entry,
    num_rows, num_cols, dot, map2, default_temperature.
  simpl. unfold reduce_mean, reduce_sum. simpl.
  replace ((1 * 0 + (0 * 1 + 0)) / (1 / 2) - 1e9 * 0) with 0 by lra.
  replace ((0 * 1 + (1 * 0 + 0)) / (1 / 2) - 1e9 * 0) with 0 by lra.
  replace ((1 * 1 + (0 * 0 + 0)) / (1 / 2) - 1e9 * 1) with (2 - 1e9) by lra.
  replace ((0 * 0 + (1 * 1 + 0)) / (1 / 2) - 1e9 * 1) with (2 - 1e9) by lra.
  rewrite exp_0. set (d := exp (2 - 1e9)).
  pose proof (exp_pos (2 - 1e9)) as Hd. fold d in Hd.
  replace (1 / (d + (1 + 0))) with (/ (1 + d)) by (field; lra).
  replace (1 / (1 + (d + 0))) with (/ (1 + d)) by (field; lra).
  rewrite ln_Rinv by lra. f_equal. lra.
Qed.

Example partner_4 : map (partner 2) [0; 1; 2; 3]%nat = [2; 3; 0; 1]%nat.
Proof. reflexivity. Qed.

Example others_4 : others 4 1 = [0; 2; 3]%nat.
Proof. reflexivity. Qed.

Example conv_sizes : out_size 28 = 13%nat /\ out_size 13 = 6%nat.
Proof. split; reflexivity. Qed.

Example batch_of_5 : batch 2 [1; 2; 3; 4; 5]%nat = [[1; 2]; [3; 4]; [5]]%nat.
Proof. reflexivity. Qed.

Example enumerate_2 : enumerate [true; false] = [(0%nat, true); (1%nat, false)].
Proof. reflexivity. Qed.

Example two_images_two_subplots :
  subplots (plot_jet_images [dot_image; dot_image] ["a"; "b"]%string None) = 2%nat.
Proof. reflexivity. Qed.

End Checks.

(** ** Lists and sums *)

Module ListFacts.
Import Tensor.

Lemma map2_map_same {A B C D : Type} (h : B -> C -> D) (f : A -> B) (g : A -> C) (l : list A) :
  map2 h (map f l) (map g l) = map (fun x => h (f x) (g x)) l.
Proof.
  unfold map2. induction l as [|a l IH]; simpl; [reflexivity|].
  now rewrite IH.
Qed.

Lemma map2_app {A B C : Type} (h : A -> B -> C) (l1 l2 : list A) (r1 r2 : list B) :
  length l1 = length r1 ->
  map2 h (l1 ++ l2) (r1 ++ r2) = map2 h l1 r1 ++ map2 h l2 r2.
Proof.
  unfold map2. revert r1.
  induction l1 as [|a l1 IH]; intros [|b r1] Hlen; simpl in *; try discriminate.
  - reflexivity.
  - f_equal. apply IH. lia.
Qed.

Lemma map_seq_nth {A B : Type} (f : A -> B) (d : A) (l : list A) :
  map f l = map (fun i => f (nth i l d)) (seq 0 (length l)).
Proof.
  induction l as [|a l IH]; simpl; [reflexivity|].
  f_equal. rewrite <- seq_shift, map_map. exact IH.
Qed.

Lemma seq_add_map (n len a : nat) :
  map (fun i => (i + n)%nat) (seq a len) = seq (a + n) len.
Proof.
  revert a. induction len as [|len IH]; intros a; simpl; [reflexivity|].
  f_equal. apply (IH (S a)).
Qed.

Lemma seq_double (N : nat) :
  seq 0 (2 * N) = seq 0 N ++ map (fun i => (i + N)%nat) (seq 0 N).
Proof.
  replace (2 * N)%nat with (N + N)%nat by lia.
  now rewrite seq_app, seq_add_map.
Qed.

Lemma reduce_sum_cons (x : R) (l : vec) : reduce_sum (x :: l) = x + reduce_sum l.
Proof. reflexivity. Qed.

Lemma reduce_sum_app (l1 l2 : vec) :
  reduce_sum (l1 ++ l2) = reduce_sum l1 + reduce_sum l2.
Proof.
  induction l1 as [|a l1 IH]; simpl.
  - change (reduce_sum []) with 0. lra.
  - rewrite !reduce_sum_cons, IH. lra.
Qed.

Lemma reduce_sum_nonneg (l : vec) :
  Forall (fun x => 0 <= x) l -> 0 <= reduce_sum l.
Proof.
  induction 1 as [|x l Hx _ IH].
  - change (reduce_sum []) with 0. lra.
  - rewrite reduce_sum_cons. lra.
Qed.

Lemma reduce_sum_map_pos {A : Type} (g : A -> R) (l : list A) :
  (forall x, 0 < g x) -> l <> [] -> 0 < reduce_sum (map g l).
Proof.
  intros Hg. induction l as [|a l IH]; intros Hne; [congruence|].
  simpl. rewrite reduce_sum_cons. specialize (Hg a). destruct l as [|b l].
  - change (reduce_sum (map g [])) with 0. lra.
  - assert (0 < reduce_sum (map g (b :: l))) by (apply IH; discriminate). lra.
Qed.



Lemma filter_all {A : Type} (p : A -> bool) (l : list A) :
  (forall x, In x l -> p x = true) -> filter p l = l.
Proof.
  induction l as [|a l IH]; intros H; simpl; [reflexivity|].
  rewrite (H a) by now left. f_equal. apply IH. intros x Hx. apply H. now right.
Qed.

(** A sum over distinct indices, with the term of one index set apart. *)
Lemma reduce_sum_split (g : nat -> R) (l : list nat) (i : nat) :
  NoDup l -> In i l ->
  reduce_sum (map g l)
  = reduce_sum (map g (filter (fun k => negb (Nat.eqb k i)) l)) + g i.
Proof.
  induction 1 as [|a l Hna Hnd IH]; intros Hin; [destruct Hin|].
  simpl. destruct (Nat.eqb_spec a i) as [->|Hne]; simpl.
  - rewrite reduce_sum_cons, filter_all; [lra|].
    intros k Hk. destruct (Nat.eqb_spec k i); [subst; contradiction|reflexivity].
  - destruct Hin as [->|Hin]; [congruence|].
    rewrite !reduce_sum_cons, IH by assumption. lra.
Qed.

End ListFacts.

(** ** The contrastive loss in index form *)

Module LossFacts.
Import Tensor SimCLR ListFacts.

Lemma nth_map_seq {A : Type} (g : nat -> A) (n i : nat) (d : A) :
  (i < n)%nat -> nth i (map g (seq 0 n)) d = g i.
Proof.
  intros Hi. rewrite (nth_indep _ d (g 0%nat)) by now rewrite length_map, length_seq.
  rewrite map_nth, seq_nth by assumption. reflexivity.
Qed.

Lemma entry_tabulate (n : nat) (f : nat -> nat -> R) (i k : nat) :
  (i < n)%nat -> (k < n)%nat -> entry (tabulate n f) i k = f i k.
Proof.
  intros Hi Hk. unfold entry, tabulate.
  rewrite (nth_map_seq (fun i => map (fun k => f i k) (seq 0 n))) by assumption.
  now rewrite nth_map_seq.
Qed.

Lemma square_tabulate (n : nat) (m : mat) :
  square n m -> m = tabulate n (entry m).
Proof.
  intros [Hlen Hrows]. unfold tabulate.
  rewrite <- (map_id m) at 1. rewrite (map_seq_nth (fun r => r) [] m), Hlen.
  apply map_ext_in. intros i Hi. apply in_seq in Hi.
  assert (Hr : length (nth i m []) = n).
  { rewrite Forall_forall in Hrows. apply Hrows, nth_In. lia. }
  rewrite <- (map_id (nth i m [])) at 1.
  rewrite (map_seq_nth (fun x => x) 0 (nth i m [])), Hr. reflexivity.
Qed.

Lemma rows_tabulate (n : nat) (f : nat -> nat -> R) : num_rows (tabulate n f) = n.
Proof. unfold num_rows, tabulate. now rewrite length_map, length_seq. Qed.

Lemma cols_tabulate (n : nat) (f : nat -> nat -> R) : num_cols (tabulate n f) = n.
Proof.
  unfold num_cols, tabulate. destruct n as [|n]; [reflexivity|].
  simpl. now rewrite length_map, length_seq.
Qed.

Lemma masked_tabulate (N : nat) (f : nat -> nat -> R) :
  masked (tabulate (2 * N) f) N = tabulate (2 * N) (damp f).
Proof.
  unfold masked, eye, tabulate. rewrite map2_map_same.
  apply map_ext. intros i. now rewrite map2_map_same.
Qed.

Lemma diag_part_upper (N : nat) (f : nat -> nat -> R) :
  diag_part (tabulate (2 * N) f) (Z.of_nat N) = map (fun i => f i (i + N)%nat) (seq 0 N).
Proof.
  unfold diag_part. destruct (Z.leb_spec 0 (Z.of_nat N)) as [_|H]; [|lia].
  rewrite Nat2Z.id, rows_tabulate, cols_tabulate.
  replace (Nat.min (2 * N) (2 * N - N)) with N by lia.
  apply map_ext_in. intros i Hi. apply in_seq in Hi.
  apply entry_tabulate; lia.
Qed.

Lemma diag_part_lower (N : nat) (f : nat -> nat -> R) :
  diag_part (tabulate (2 * N) f) (- Z.of_nat N) = map (fun i => f (i + N)%nat i) (seq 0 N).
Proof.
  destruct N as [|N]; [reflexivity|].
  unfold diag_part. destruct (Z.leb_spec 0 (- Z.of_nat (S N))) as [H|_]; [lia|].
  rewrite Z.opp_involutive, Nat2Z.id, rows_tabulate, cols_tabulate.
  replace (Nat.min (2 * S N - S N) (2 * S N)) with (S N) by lia.
  apply map_ext_in. intros i Hi. apply in_seq in Hi.
  apply entry_tabulate; lia.
Qed.

Lemma partner_low (N i : nat) : (i < N)%nat -> partner N i = (i + N)%nat.
Proof. intros H. unfold partner. destruct (Nat.ltb_spec i N); [reflexivity|lia]. Qed.

Lemma partner_high (N i : nat) : partner N (i + N) = i.
Proof. unfold partner. destruct (Nat.ltb_spec (i + N) N); lia. Qed.

Lemma partner_lt (N i : nat) : (i < 2 * N)%nat -> (partner N i < 2 * N)%nat.
Proof. unfold partner. destruct (Nat.ltb_spec i N); lia. Qed.

Lemma partner_neq (N i : nat) : (i < 2 * N)%nat -> partner N i <> i.
Proof. unfold partner. destruct (Nat.ltb_spec i N); lia. Qed.

Lemma partner_invol (N i : nat) : (i < 2 * N)%nat -> partner N (partner N i) = i.
Proof.
  intros H. unfold partner at 2. destruct (Nat.ltb_spec i N).
  - apply partner_high.
  - rewrite partner_low by lia. lia.
Qed.

(** The per-sample losses of a 2N x 2N similarity matrix, one [term] per row. *)
Lemma nt_xent_terms_index (N : nat) (sim : mat) :
  square (2 * N) sim ->
  nt_xent_terms sim N = map (term (entry sim) N) (seq 0 (2 * N)).
Proof.
  intros Hsq. unfold nt_xent_terms, positives.
  rewrite (square_tabulate _ _ Hsq) at 1 2 3.
  rewrite masked_tabulate, diag_part_upper, diag_part_lower.
  set (f := entry sim).
  unfold tabulate at 1. rewrite map_map, map_app.
  rewrite seq_double, !map_app, !map_map.
  rewrite map2_app by now rewrite !length_map.
  rewrite !map2_map_same. f_equal; apply map_ext_in; intros i Hi; apply in_seq in Hi.
  - unfold term, row_total. rewrite partner_low by lia. now rewrite map_map, <- seq_double.
  - unfold term, row_total. rewrite partner_high. now rewrite map_map, <- seq_double.
Qed.

Lemma reduce_mean_cons (l : vec) :
  l <> [] -> reduce_mean l = Some (reduce_sum l / INR (length l)).
Proof. destruct l; [congruence|reflexivity]. Qed.

Lemma seq_double_nonempty (N : nat) : (1 <= N)%nat -> seq 0 (2 * N) <> [].
Proof. destruct N as [|N]; [lia|]. discriminate. Qed.

(** The loss of a 2N x 2N similarity matrix as a mean of [term]s. *)
Lemma nt_xent_of_sim_index (N : nat) (sim : mat) :
  square (2 * N) sim -> (1 <= N)%nat ->
  nt_xent_of_sim sim N
  = Some (reduce_sum (map (term (entry sim) N) (seq 0 (2 * N))) / INR (2 * N)).
Proof.
  intros Hsq HN. unfold nt_xent_of_sim. rewrite nt_xent_terms_index by assumption.
  rewrite reduce_mean_cons.
  - now rewrite length_map, length_seq.
  - intros H. apply map_eq_nil in H. now apply seq_double_nonempty in H.
Qed.

(** *** The similarity matrix *)

Lemma similarity_square (z1 z2 : mat) (t : R) (N : nat) :
  length z1 = N -> length z2 = N -> square (2 * N) (similarity z1 z2 t).
Proof.
  intros H1 H2. unfold similarity, scalar_div, matmul_transpose_b.
  assert (Hz : length (z1 ++ z2) = (2 * N)%nat) by (rewrite length_app; lia).
  split.
  - now rewrite !length_map.
  - rewrite map_map. apply Forall_forall. intros row Hrow.
    apply in_map_iff in Hrow. destruct Hrow as [zi [<- _]].
    now rewrite !length_map.
Qed.

Lemma similarity_entry (z1 z2 : mat) (t : R) (i k : nat) :
  (i < length (z1 ++ z2))%nat -> (k < length (z1 ++ z2))%nat ->
  entry (similarity z1 z2 t) i k = dot_sim (z1 ++ z2) i k / t.
Proof.
  intros Hi Hk. unfold similarity, scalar_div, matmul_transpose_b, entry, dot_sim.
  set (z := z1 ++ z2) in *.
  rewrite map_map.
  rewrite (map_seq_nth _ [] z), nth_map_seq by assumption.
  rewrite map_map, (map_seq_nth _ [] z), nth_map_seq by assumption.
  reflexivity.
Qed.



(** *** Sums over the concatenated batch *)

Lemma reduce_sum_ge_term {A : Type} (g : A -> R) (l : list A) (x0 : A) :
  (forall x, 0 <= g x) -> In x0 l -> g x0 <= reduce_sum (map g l).
Proof.
  intros Hg. induction l as [|a l IH]; intros Hin; [destruct Hin|].
  simpl. rewrite reduce_sum_cons.
  assert (0 <= reduce_sum (map g l)).
  { apply reduce_sum_nonneg, Forall_forall. intros y Hy.
    apply in_map_iff in Hy. destruct Hy as [b [<- _]]. apply Hg. }
  destruct Hin as [->|Hin].
  - lra.
  - specialize (IH Hin). specialize (Hg a). lra.
Qed.

(** Summing over the partners is summing over the samples. *)
Lemma reduce_sum_partner (g : nat -> R) (N : nat) :
  reduce_sum (map (fun k => g (partner N k)) (seq 0 (2 * N)))
  = reduce_sum (map g (seq 0 (2 * N))).
Proof.
  rewrite seq_double, !map_app, !map_map, !reduce_sum_app.
  rewrite (map_ext_in (fun k => g (partner N k)) (fun k => g (k + N)%nat)).
  - rewrite (map_ext (fun k => g (partner N (k + N))) g); [lra|].
    intros k. now rewrite partner_high.
  - intros k Hk. apply in_seq in Hk. rewrite partner_low by lia. reflexivity.
Qed.

Lemma ln_le_0 (x : R) : 0 < x -> x <= 1 -> ln x <= 0.
Proof.
  intros H0 [Hlt| ->].
  - rewrite <- ln_1. left. now apply ln_increasing.
  - rewrite ln_1. lra.
Qed.

Lemma row_total_pos (f : nat -> nat -> R) (N i : nat) :
  (1 <= N)%nat -> 0 < row_total f (2 * N) i.
Proof.
  intros HN. unfold row_total. apply reduce_sum_map_pos.
  - intros k. apply exp_pos.
  - now apply seq_double_nonempty.
Qed.

(** Each sample's loss is non-negative: its positive pair is one of the
    summands of its denominator. *)
Lemma term_nonneg (f : nat -> nat -> R) (N i : nat) :
  (i < 2 * N)%nat -> 0 <= term f N i.
Proof.
  intros Hi. unfold term.
  assert (HN : (1 <= N)%nat) by lia.
  pose proof (row_total_pos f N i HN) as Hden.
  pose proof (exp_pos (damp f i (partner N i))) as Hnum.
  assert (Hle : exp (damp f i (partner N i)) <= row_total f (2 * N) i).
  { unfold row_total.
    apply (reduce_sum_ge_term (fun k => exp (damp f i k))).
    - intros k. left. apply exp_pos.
    - apply in_seq. pose proof (partner_lt N i Hi). lia. }
  assert (ln (exp (damp f i (partner N i)) / row_total f (2 * N) i) <= 0).
  { apply ln_le_0.
    - now apply Rdiv_lt_0_compat.
    - apply (Rmult_le_reg_r (row_total f (2 * N) i)); [assumption|].
      unfold Rdiv. rewrite Rmult_assoc, Rinv_l by lra. lra. }
  lra.
Qed.

Lemma nt_xent_of_sim_nonneg (N : nat) (sim : mat) :
  square (2 * N) sim -> (1 <= N)%nat ->
  exists l, nt_xent_of_sim sim N = Some l /\ 0 <= l.
Proof.
  intros Hsq HN. rewrite nt_xent_of_sim_index by assumption.
  eexists. split; [reflexivity|].
  apply Rmult_le_pos.
  - apply reduce_sum_nonneg. apply Forall_forall. intros x Hx.
    apply in_map_iff in Hx. destruct Hx as [i [<- Hi]]. apply in_seq in Hi.
    apply term_nonneg. lia.
  - left. apply Rinv_0_lt_compat, lt_0_INR. lia.
Qed.

(** *** The damped diagonal *)

Lemma damp_off_diagonal (f : nat -> nat -> R) (i k : nat) :
  i <> k -> damp f i k = f i k.
Proof.
  intros H. unfold damp. destruct (Nat.eqb_spec i k); [contradiction|lra].
Qed.

Lemma damp_diagonal (f : nat -> nat -> R) (i : nat) : damp f i i = f i i - 1e9.
Proof. unfold damp. rewrite Nat.eqb_refl. lra. Qed.

Lemma in_others (n i k : nat) : In k (others n i) <-> (k < n)%nat /\ k <> i.
Proof.
  unfold others. rewrite filter_In, in_seq, negb_true_iff, Nat.eqb_neq. lia.
Qed.

Lemma row_total_split (f : nat -> nat -> R) (n i j : nat) :
  (j < n)%nat ->
  row_total f n i
  = reduce_sum (map (fun k => exp (damp f i k)) (others n j)) + exp (damp f i j).
Proof.
  intros Hj. unfold row_total, others.
  apply (reduce_sum_split (fun k => exp (damp f i k))).
  - apply seq_NoDup.
  - apply in_seq. lia.
Qed.

Lemma term_split (f : nat -> nat -> R) (N i : nat) :
  (i < 2 * N)%nat ->
  term f N i
  = - ln (exp (f i (partner N i))
          / (reduce_sum (map (fun k => exp (f i k)) (others (2 * N) i)) + exp (f i i - 1e9))).
Proof.
  intros Hi. unfold term.
  rewrite damp_off_diagonal by (pose proof (partner_neq N i Hi); congruence).
  rewrite (row_total_split f (2 * N) i i Hi), damp_diagonal.
  rewrite (map_ext_in (fun k => exp (damp f i k)) (fun k => exp (f i k))); [reflexivity|].
  intros k Hk. apply in_others in Hk.
  rewrite damp_off_diagonal by (intros ->; tauto). reflexivity.
Qed.

Lemma contrastive_loss_damped_eq (z1 z2 : mat) (t : R) :
  length z1 = length z2 ->
  contrastive_loss z1 z2 t = nt_xent_damped z1 z2 t.
Proof.
  intros Hlen. unfold contrastive_loss, nt_xent_of_sim, nt_xent_damped.
  set (N := length z1) in *.
  assert (Hz : length (z1 ++ z2) = (2 * N)%nat) by (rewrite length_app; lia).
  rewrite nt_xent_terms_index by now apply similarity_square.
  f_equal. apply map_ext_in. intros i Hi. apply in_seq in Hi.
  rewrite term_split by lia.
  pose proof (partner_lt N i ltac:(lia)) as Hp.
  rewrite !similarity_entry by lia.
  rewrite (map_ext_in (fun k => exp (entry (similarity z1 z2 t) i k))
                      (fun k => exp (dot_sim (z1 ++ z2) i k / t))); [reflexivity|].
  intros k Hk. apply in_others in Hk.
  rewrite similarity_entry by lia. reflexivity.
Qed.

(** *** Comparing fractions *)


(** *** Exchanging the two views *)

Lemma nth_app_swap (z1 z2 : mat) (N i : nat) :
  length z1 = N -> length z2 = N -> (i < 2 * N)%nat ->
  nth i (z2 ++ z1) [] = nth (partner N i) (z1 ++ z2) [].
Proof.
  intros H1 H2 Hi. unfold partner. destruct (Nat.ltb_spec i N).
  - rewrite app_nth1 by lia. rewrite app_nth2 by lia. f_equal. lia.
  - rewrite app_nth2 by lia. rewrite app_nth1 by lia. f_equal. lia.
Qed.

Lemma partner_inj (N i k : nat) :
  (i < 2 * N)%nat -> (k < 2 * N)%nat -> partner N i = partner N k -> i = k.
Proof.
  intros Hi Hk H. rewrite <- (partner_invol N i Hi), <- (partner_invol N k Hk).
  now rewrite H.
Qed.

Lemma term_swap (z1 z2 : mat) (t : R) (N i : nat) :
  length z1 = N -> length z2 = N -> (i < 2 * N)%nat ->
  term (entry (similarity z2 z1 t)) N i
  = term (entry (similarity z1 z2 t)) N (partner N i).
Proof.
  intros H1 H2 Hi.
  assert (Hz : length (z1 ++ z2) = (2 * N)%nat) by (rewrite length_app; lia).
  assert (Hz' : length (z2 ++ z1) = (2 * N)%nat) by (rewrite length_app; lia).
  pose proof (partner_lt N i Hi) as Hp.
  assert (Hd : forall k, (k < 2 * N)%nat ->
             damp (entry (similarity z2 z1 t)) i k
             = damp (entry (similarity z1 z2 t)) (partner N i) (partner N k)).
  { intros k Hk. pose proof (partner_lt N k Hk) as Hpk. unfold damp.
    rewrite !similarity_entry by lia. unfold dot_sim.
    rewrite !(nth_app_swap z1 z2 N) by assumption.
    destruct (Nat.eqb_spec i k) as [->|Hne].
    - now rewrite Nat.eqb_refl.
    - destruct (Nat.eqb_spec (partner N i) (partner N k)) as [He|_]; [|reflexivity].
      apply partner_inj in He; [contradiction|lia|lia]. }
  unfold term, row_total.
  rewrite Hd by assumption.
  rewrite <- (reduce_sum_partner
                (fun k => exp (damp (entry (similarity z1 z2 t)) (partner N i) k)) N).
  rewrite (map_ext_in (fun k => exp (damp (entry (similarity z2 z1 t)) i k))
             (fun k => exp (damp (entry (similarity z1 z2 t)) (partner N i) (partner N k))));
    [reflexivity|].
  intros k Hk. apply in_seq in Hk.
  rewrite Hd by lia. reflexivity.
Qed.

Lemma contrastive_loss_swap (z1 z2 : mat) (t : R) :
  length z1 = length z2 ->
  contrastive_loss z1 z2 t = contrastive_loss z2 z1 t.
Proof.
  intros Hlen. unfold contrastive_loss, nt_xent_of_sim.
  rewrite <- Hlen. remember (length z1) as N eqn:HN.
  symmetry in HN, Hlen.
  rewrite !nt_xent_terms_index by (apply similarity_square; auto).
  destruct (Nat.eq_dec N 0) as [->|Hpos]; [reflexivity|].
  rewrite !reduce_mean_cons
    by (intros H; apply map_eq_nil in H; apply seq_double_nonempty in H; auto; lia).
  rewrite !length_map. do 2 f_equal.
  rewrite <- (reduce_sum_partner (term (entry (similarity z1 z2 t)) N) N).
  f_equal. apply map_ext_in. intros i Hi. apply in_seq in Hi.
  symmetry. apply term_swap; auto; lia.
Qed.

End LossFacts.

(** ** Properties of the contrastive loss *)

Module NTXent.
Import Tensor SimCLR ListFacts LossFacts.

Lemma far_dot_sim :
  dot_sim (far_z1 ++ far_z2) 0 0 = 1e9 /\ dot_sim (far_z1 ++ far_z2) 0 1 = 0 /\
  dot_sim (far_z1 ++ far_z2) 1 0 = 0 /\ dot_sim (far_z1 ++ far_z2) 1 1 = 1e9.
Proof.
  unfold dot_sim, dot, map2, reduce_sum, far_z1, far_z2. simpl.
  repeat split; lra.
Qed.

Lemma far_damped : nt_xent_damped far_z1 far_z2 1 = Some (ln 2).
Proof.
  destruct far_dot_sim as (H00 & H01 & H10 & H11).
  unfold nt_xent_damped, others.
  change (length far_z1) with 1%nat. cbn [Nat.mul Nat.add seq filter Nat.eqb negb map partner Nat.ltb Nat.leb Nat.sub].
  rewrite H00, H01, H10, H11.
  unfold reduce_mean, reduce_sum. cbn [fold_right length].
  replace (0 / 1) with 0 by lra. replace (1e9 / 1 - 1e9) with 0 by lra.
  rewrite exp_0. f_equal.
  replace (1 / (1 + 0 + 1)) with (/ 2) by lra.
  rewrite ln_Rinv by lra. simpl. lra.
Qed.

Lemma far_published : nt_xent_published far_z1 far_z2 1 = Some 0.
Proof.
  destruct far_dot_sim as (H00 & H01 & H10 & H11).
  unfold nt_xent_published, others.
  change (length far_z1) with 1%nat. cbn [Nat.mul Nat.add seq filter Nat.eqb negb map partner Nat.ltb Nat.leb Nat.sub].
  rewrite H01, H10.
  unfold reduce_mean, reduce_sum. cbn [fold_right length].
  replace (0 / 1) with 0 by lra.
  rewrite exp_0. f_equal.
  replace (1 / (1 + 0)) with 1 by lra.
  rewrite ln_1. simpl. lra.
Qed.

Lemma ln_2_pos : 0 < ln 2.
Proof. pose proof ln_lt_2. lra. Qed.

(** On two orthogonal embeddings of squared norm 1e9 at temperature 1 the
    diagonal lowered by 1e9 is 0 and takes part in the denominator: the code
    returns ln 2 where the published NT-Xent formula gives 0. *)
Lemma contrastive_loss_far_embeddings :
  contrastive_loss far_z1 far_z2 1 = Some (ln 2) /\
  nt_xent_published far_z1 far_z2 1 = Some 0 /\
  contrastive_loss far_z1 far_z2 1 <> nt_xent_published far_z1 far_z2 1.
Proof.
  assert (H : contrastive_loss far_z1 far_z2 1 = Some (ln 2)).
  { rewrite contrastive_loss_damped_eq by reflexivity. apply far_damped. }
  rewrite H, far_published. repeat split.
  intros E. injection E as E. pose proof ln_2_pos. lra.
Qed.

(** C9: for equal-size batches and positive temperature, exchanging the two
    batches leaves the loss unchanged. *)
Theorem contrastive_loss_symmetric (z1 z2 : mat) (t : R) :
  length z1 = length z2 -> 0 < t ->
  contrastive_loss z1 z2 t = contrastive_loss z2 z1 t.
Proof. intros Hlen _. now apply contrastive_loss_swap. Qed.

Lemma contrastive_loss_symmetric_witness :
  contrastive_loss unit_z1 unit_z2 (1 / 2) = contrastive_loss unit_z2 unit_z1 (1 / 2).
Proof. apply contrastive_loss_symmetric; [reflexivity|lra]. Defined.

End NTXent.

(** ** The encoder's output rows *)

Module EncoderFacts.
Import Tensor Encoder ListFacts.

Lemma square_sum_cons (x : R) (v : vec) : square_sum (x :: v) = x * x + square_sum v.
Proof. reflexivity. Qed.

Lemma square_sum_nonneg (v : vec) : 0 <= square_sum v.
Proof.
  induction v as [|x v IH].
  - unfold square_sum. simpl. change (reduce_sum []) with 0. lra.
  - rewrite square_sum_cons. nra.
Qed.

Lemma square_sum_scale (c : R) (v : vec) :
  square_sum (map (fun x => x * c) v) = c * c * square_sum v.
Proof.
  induction v as [|x v IH].
  - unfold square_sum. simpl. change (reduce_sum []) with 0. lra.
  - simpl. rewrite !square_sum_cons, IH. lra.
Qed.

Lemma l2_normalize_eps_pos : 0 < l2_normalize_eps.
Proof. unfold l2_normalize_eps. lra. Qed.

(** Above the library's epsilon, [l2_normalize] yields a unit vector. *)
Lemma l2_normalize_unit (v : vec) :
  l2_normalize_eps <= square_sum v -> norm (l2_normalize v) = 1.
Proof.
  intros Heps. pose proof l2_normalize_eps_pos as Hpos.
  unfold norm, l2_normalize. rewrite square_sum_scale, Rmax_left by assumption.
  set (S := square_sum v) in *.
  assert (Hr : 0 < sqrt S) by (apply sqrt_lt_R0; lra).
  assert (Hrr : sqrt S * sqrt S = S) by (apply sqrt_sqrt; lra).
  replace (/ sqrt S * / sqrt S * S) with 1.
  - apply sqrt_1.
  - rewrite <- Hrr at 3. field. lra.
Qed.

(** *** Zero inputs under zero biases *)

Lemma reduce_sum_zeros (v : vec) : zeros v -> reduce_sum v = 0.
Proof.
  induction 1 as [|x v Hx _ IH].
  - reflexivity.
  - rewrite reduce_sum_cons, Hx, IH. lra.
Qed.

Lemma reduce_sum_map_zero {A : Type} (g : A -> R) (l : list A) :
  (forall x, In x l -> g x = 0) -> reduce_sum (map g l) = 0.
Proof.
  intros H. apply reduce_sum_zeros, Forall_forall. intros y Hy.
  apply in_map_iff in Hy. destruct Hy as [x [<- Hx]]. now apply H.
Qed.

Lemma dot_zeros_r (w v : vec) : zeros v -> dot w v = 0.
Proof.
  intros Hv. unfold dot, map2. apply reduce_sum_map_zero.
  intros [a b] Hin. apply in_combine_r in Hin.
  unfold zeros in Hv. rewrite Forall_forall in Hv. simpl. rewrite (Hv b Hin). lra.
Qed.

Lemma nth_zeros (v : vec) (c : nat) : zeros v -> nth c v 0 = 0.
Proof.
  intros Hv. destruct (Nat.lt_ge_cases c (length v)) as [Hlt|Hge].
  - unfold zeros in Hv. rewrite Forall_forall in Hv. apply Hv. now apply nth_In.
  - now apply nth_overflow.
Qed.

Lemma pixel_zeros (x : tensor3) (r c : nat) : all_zero3 x -> zeros (pixel x r c).
Proof.
  intros Hx. unfold pixel, all_zero3 in *. rewrite Forall_forall in Hx.
  destruct (Nat.lt_ge_cases r (length x)) as [Hr|Hr].
  - specialize (Hx (nth r x []) (nth_In _ _ Hr)). rewrite Forall_forall in Hx.
    destruct (Nat.lt_ge_cases c (length (nth r x []))) as [Hc|Hc].
    + apply Hx. now apply nth_In.
    + rewrite (nth_overflow (nth r x [])) by assumption. constructor.
  - rewrite (nth_overflow x) by assumption. destruct c; constructor.
Qed.

Lemma window_zeros (k x : tensor3) (r c : nat) : all_zero3 x -> window k x r c = 0.
Proof.
  intros Hx. unfold window. apply reduce_sum_map_zero. intros di _.
  apply reduce_sum_map_zero. intros dj _. now apply dot_zeros_r, pixel_zeros.
Qed.

Lemma relu_0 : relu 0 = 0.
Proof. unfold relu. apply Rmax_left. lra. Qed.

Lemma conv2d_relu_zeros (filters : list conv_filter) (x : tensor3) :
  Forall (fun f => conv_bias f = 0) filters -> all_zero3 x ->
  all_zero3 (conv2d_relu filters x).
Proof.
  intros Hb Hx. unfold conv2d_relu, all_zero3.
  apply Forall_forall. intros row Hrow. apply in_map_iff in Hrow.
  destruct Hrow as [i [<- _]].
  apply Forall_forall. intros px Hpx. apply in_map_iff in Hpx.
  destruct Hpx as [j [<- _]].
  apply Forall_forall. intros v Hv. apply in_map_iff in Hv.
  destruct Hv as [f [<- Hf]].
  rewrite Forall_forall in Hb. rewrite (Hb f Hf), window_zeros by assumption.
  rewrite Rplus_0_r. apply relu_0.
Qed.

Lemma global_average_pooling_zeros (x : tensor3) :
  all_zero3 x -> zeros (global_average_pooling x).
Proof.
  intros Hx. unfold global_average_pooling, zeros.
  apply Forall_forall. intros v Hv. apply in_map_iff in Hv.
  destruct Hv as [c [<- _]].
  rewrite reduce_sum_map_zero; [unfold Rdiv; lra|].
  intros row Hrow. apply reduce_sum_map_zero. intros px Hpx.
  apply nth_zeros. unfold all_zero3 in Hx. rewrite Forall_forall in Hx.
  specialize (Hx row Hrow). rewrite Forall_forall in Hx. now apply Hx.
Qed.

Lemma dense_zeros (act : R -> R) (l : dense_layer) (x : vec) :
  act 0 = 0 -> zeros (bias l) -> zeros x -> zeros (dense act l x).
Proof.
  intros Hact Hb Hx. unfold dense, map2, zeros.
  apply Forall_forall. intros v Hv. apply in_map_iff in Hv.
  destruct Hv as [y [<- Hy]]. apply in_map_iff in Hy.
  destruct Hy as [[a b] [<- Hab]]. simpl.
  pose proof (in_combine_l _ _ _ _ Hab) as Ha. pose proof (in_combine_r _ _ _ _ Hab) as Hb'.
  apply in_map_iff in Ha. destruct Ha as [w [<- _]].
  unfold zeros in Hb. rewrite Forall_forall in Hb.
  rewrite (Hb b Hb'), dot_zeros_r by assumption. now rewrite Rplus_0_r.
Qed.

(** Under zero biases a black image has no features. *)
Lemma base_model_zeros (w : encoder_weights) (img : tensor3) :
  Forall (fun f => conv_bias f = 0) (conv1 w) ->
  Forall (fun f => conv_bias f = 0) (conv2 w) ->
  all_zero3 img -> zeros (base_model w img).
Proof.
  intros H1 H2 Himg. unfold base_model.
  now apply global_average_pooling_zeros, conv2d_relu_zeros, conv2d_relu_zeros.
Qed.

Lemma projection_zeros (w : encoder_weights) (img : tensor3) :
  zero_biases w -> all_zero3 img -> zeros (projection w img).
Proof.
  intros (H1 & H2 & H3 & H4) Himg.
  pose proof (base_model_zeros w img H1 H2 Himg) as Hf. unfold projection.
  apply dense_zeros; [reflexivity|assumption|].
  apply dense_zeros; [apply relu_0|assumption|assumption].
Qed.

Lemma l2_normalize_zeros (v : vec) : zeros v -> zeros (l2_normalize v).
Proof.
  intros Hv. unfold l2_normalize, zeros. apply Forall_forall. intros y Hy.
  apply in_map_iff in Hy. destruct Hy as [x [<- Hx]].
  unfold zeros in Hv. rewrite Forall_forall in Hv. rewrite (Hv x Hx). lra.
Qed.

Lemma norm_zeros (v : vec) : zeros v -> norm v = 0.
Proof.
  intros Hv. unfold norm, square_sum. rewrite reduce_sum_map_zero.
  - apply sqrt_0.
  - intros x Hx. unfold zeros in Hv. rewrite Forall_forall in Hv. rewrite (Hv x Hx). lra.
Qed.

(** With every input zero a dense layer returns the activation of its bias. *)
Lemma dense_zero_input (act : R -> R) (l : dense_layer) (x : vec) :
  zeros x -> length (kernel l) = length (bias l) ->
  dense act l x = map act (bias l).
Proof.
  intros Hx. unfold dense, map2. destruct l as [k b]. simpl.
  revert b. induction k as [|w k IH]; intros [|b0 b] Hlen; simpl in *; try discriminate.
  - reflexivity.
  - rewrite dot_zeros_r by assumption. rewrite Rplus_0_l. f_equal. apply IH. lia.
Qed.

Lemma create_encoder_row (w : encoder_weights) (inputs : list tensor3) (i : nat) (img : tensor3) :
  nth_error inputs i = Some img ->
  nth_error (create_encoder w inputs) i = Some (l2_normalize (projection w img)).
Proof.
  intros H. unfold create_encoder, l2_normalize_rows. rewrite map_map.
  now rewrite nth_error_map, H.
Qed.

End EncoderFacts.

(** ** Norm of the encoder's output rows *)

Module EncoderNorm.
Import Tensor Encoder ListFacts EncoderFacts.

Lemma zeros_repeat (n : nat) : zeros (repeat 0 n).
Proof. apply Forall_forall. intros x Hx. now apply repeat_spec in Hx. Qed.

Lemma black_image_zero : all_zero3 black_image.
Proof.
  unfold all_zero3, black_image.
  apply Forall_forall. intros row Hrow. apply repeat_spec in Hrow. subst row.
  apply Forall_forall. intros px Hpx. apply repeat_spec in Hpx. subst px.
  repeat constructor.
Qed.

Lemma flat_filters_zero_bias (c n : nat) :
  Forall (fun f => conv_bias f = 0) (repeat (flat_filter c) n).
Proof. apply Forall_forall. intros f Hf. apply repeat_spec in Hf. now subst f. Qed.

Lemma fresh_zero_biases : zero_biases fresh_weights.
Proof.
  unfold zero_biases, fresh_weights, flat_weights.
  cbn [conv1 conv2 head1 head2 flat_dense bias].
  repeat split; try apply flat_filters_zero_bias; apply zeros_repeat.
Qed.

(** C4, as stated, fails: with every bias zero, as Keras initialises them, a
    black image is encoded as the zero vector, whose norm is 0. *)
Lemma create_encoder_black_not_unit :
  exists row,
    nth_error (create_encoder fresh_weights [black_image]) 0 = Some row /\
    norm row = 0 /\ norm row <> 1.
Proof.
  exists (l2_normalize (projection fresh_weights black_image)).
  assert (H0 : norm (l2_normalize (projection fresh_weights black_image)) = 0).
  { apply norm_zeros, l2_normalize_zeros, projection_zeros.
    - apply fresh_zero_biases.
    - apply black_image_zero. }
  split; [reflexivity|]. split; [assumption|]. rewrite H0. lra.
Qed.

(** C4, amended: every row of the encoder's output whose projection-head
    output has a sum of squares of at least 1e-12, the epsilon of
    [l2_normalize], has Euclidean norm 1. *)
Theorem create_encoder_unit_rows
    (w : encoder_weights) (inputs : list tensor3) (i : nat) (img : tensor3) :
  nth_error inputs i = Some img ->
  l2_normalize_eps <= square_sum (projection w img) ->
  exists row, nth_error (create_encoder w inputs) i = Some row /\ norm row = 1.
Proof.
  intros Hi Heps. exists (l2_normalize (projection w img)). split.
  - now apply create_encoder_row.
  - now apply l2_normalize_unit.
Qed.

Lemma nudged_projection : projection nudged_weights black_image = 1 :: repeat 0 31.
Proof.
  unfold projection. rewrite dense_zero_input.
  - cbn [nudged_weights flat_weights head2 flat_dense bias]. apply map_id.
  - apply dense_zeros; [apply relu_0|apply zeros_repeat|].
    apply base_model_zeros; try apply flat_filters_zero_bias.
    apply black_image_zero.
  - cbn [nudged_weights flat_weights head2 flat_dense bias kernel].
    now rewrite repeat_length.
Qed.

Lemma create_encoder_unit_rows_witness :
  exists row, nth_error (create_encoder nudged_weights [black_image]) 0 = Some row /\
              norm row = 1.
Proof.
  apply (create_encoder_unit_rows nudged_weights [black_image] 0 black_image).
  - reflexivity.
  - rewrite nudged_projection, square_sum_cons.
    pose proof (square_sum_nonneg (repeat 0 31)). unfold l2_normalize_eps. lra.
Defined.

End EncoderNorm.

(** ** Jet images: normalization and plotting *)

Module JetFacts.
Import Tensor Jets ListFacts.

Lemma reduce_sum_scale (c : R) (v : vec) :
  reduce_sum (map (fun x => x * c) v) = reduce_sum v * c.
Proof.
  induction v as [|x v IH]; simpl.
  - change (reduce_sum []) with 0. lra.
  - rewrite !reduce_sum_cons, IH. lra.
Qed.

Lemma pixels_map (f : R -> R) (img : image) :
  pixels (map (map f) img) = map f (pixels img).
Proof. unfold pixels. symmetry. apply concat_map. Qed.

Lemma rescale_image_sum (img : image) :
  pixel_sum img <> 0 -> pixel_sum (rescale_image img) = 1.
Proof.
  intros Hs. unfold rescale_image, pixel_sum at 1. rewrite pixels_map.
  unfold Rdiv. rewrite reduce_sum_scale. fold (pixel_sum img). now apply Rinv_r.
Qed.

Lemma has_shape_pixels (h w : nat) (img : image) :
  has_shape (S h) (S w) img -> pixels img <> [].
Proof.
  intros [Hl Hr]. destruct img as [|row img]; [discriminate|].
  inversion Hr as [|? ? Hrow _]; subst. destruct row; [discriminate|].
  discriminate.
Qed.

Lemma softmax_shape (h w : nat) (img : image) :
  has_shape h w img -> has_shape h w (softmax img).
Proof.
  intros [Hl Hr]. unfold softmax. split.
  - now rewrite length_map.
  - apply Forall_forall. intros row Hrow. apply in_map_iff in Hrow.
    destruct Hrow as [r [<- Hin]]. rewrite length_map.
    rewrite Forall_forall in Hr. now apply Hr.
Qed.

Lemma softmax_nonneg (img : image) : nonneg_pixels (softmax img).
Proof.
  unfold nonneg_pixels, softmax. rewrite pixels_map.
  apply Forall_forall. intros y Hy. apply in_map_iff in Hy.
  destruct Hy as [x [<- _]]. left. apply exp_pos.
Qed.

Lemma softmax_sum (img : image) :
  pixels img <> [] -> pixel_sum (softmax img) = 1.
Proof.
  intros Hne. unfold softmax, pixel_sum. rewrite pixels_map.
  unfold reduce_logsumexp. set (total := reduce_sum (map exp (pixels img))).
  assert (Hpos : 0 < total) by (apply reduce_sum_map_pos; [apply exp_pos|assumption]).
  rewrite (map_ext (fun x => exp (x - ln total)) (fun x => exp x * / total)).
  - rewrite <- (map_map exp (fun y => y * / total)), reduce_sum_scale.
    fold total. apply Rinv_r. lra.
  - intros x. unfold Rminus. rewrite exp_plus, exp_Ropp, exp_ln by assumption.
    reflexivity.
Qed.

(** *** The calls of plot_jet_images *)

Lemma plot_items_subplots (n a : nat) (items : list (image * string)) :
  subplots (flat_map (plot_one n) (combine (seq a (length items)) items)) = length items.
Proof.
  revert a. induction items as [|[img ttl] items IH]; intros a; [reflexivity|].
  simpl. unfold subplots in *. simpl. f_equal. apply IH.
Qed.

Lemma plot_items_shown (n a : nat) (items : list (image * string)) :
  shown (flat_map (plot_one n) (combine (seq a (length items)) items)) = map fst items.
Proof.
  revert a. induction items as [|[img ttl] items IH]; intros a; [reflexivity|].
  simpl. unfold shown in *. simpl. f_equal. apply IH.
Qed.

Lemma plot_items_files (n a : nat) (items : list (image * string)) :
  files_written (flat_map (plot_one n) (combine (seq a (length items)) items)) = [].
Proof.
  revert a. induction items as [|[img ttl] items IH]; intros a; [reflexivity|].
  simpl. unfold files_written in *. simpl. apply IH.
Qed.

Lemma subplots_app (l1 l2 : list plt_call) : subplots (l1 ++ l2) = (subplots l1 + subplots l2)%nat.
Proof. unfold subplots. now rewrite filter_app, length_app. Qed.

Lemma shown_app (l1 l2 : list plt_call) : shown (l1 ++ l2) = shown l1 ++ shown l2.
Proof. unfold shown. apply flat_map_app. Qed.

Lemma files_written_app (l1 l2 : list plt_call) :
  files_written (l1 ++ l2) = files_written l1 ++ files_written l2.
Proof. unfold files_written. apply flat_map_app. Qed.

Lemma map_fst_combine {A B : Type} (l1 : list A) (l2 : list B) :
  map fst (combine l1 l2) = firstn (length l2) l1.
Proof.
  revert l2. induction l1 as [|a l1 IH]; intros [|b l2]; simpl; try reflexivity.
  f_equal. apply IH.
Qed.

Lemma plot_jet_images_calls (images : list image) (titles : list string) (filename : option string) :
  let calls := plot_jet_images images titles filename in
  subplots calls = Nat.min (length images) (length titles) /\
  shown calls = firstn (length titles) images /\
  files_written calls = [match filename with Some f => f | None => default_filename end].
Proof.
  unfold plot_jet_images, enumerate.
  change (figure ?w ?h :: ?l) with ([figure w h] ++ l).
  rewrite !subplots_app, !shown_app, !files_written_app.
  rewrite plot_items_subplots, plot_items_shown, plot_items_files.
  rewrite length_combine, map_fst_combine. simpl.
  repeat split.
  - unfold subplots. simpl. lia.
  - unfold shown. simpl. now rewrite app_nil_r.
Qed.

End JetFacts.

(** ** Properties of the jet notebook *)

Module JetClaims.
Import Tensor Jets ListFacts JetFacts.

(** C8, as stated, fails: [zip(images, titles)] stops at the shorter list,
    so two images with one title give one subplot, not one per image. *)
Lemma plot_jet_images_fewer_titles :
  let calls := plot_jet_images [dot_image; dot_image] ["QCD jet image"%string] None in
  subplots calls = 1%nat /\ subplots calls <> length [dot_image; dot_image].
Proof. split; [reflexivity|discriminate]. Qed.

(** C8, amended: [plot_jet_images(images, titles, filename)] renders one
    subplot per pair of [zip(images, titles)], showing the first
    [min(len(images), len(titles))] images, and writes the figure to the file
    named by [filename], by default "jet_image.pdf"; that is its only file
    output. *)
Theorem plot_jet_images_effects
    (images : list image) (titles : list string) (filename : option string) :
  let calls := plot_jet_images images titles filename in
  subplots calls = Nat.min (length images) (length titles) /\
  shown calls = firstn (length titles) images /\
  files_written calls = [match filename with Some f => f | None => default_filename end] /\
  default_filename = "jet_image.pdf"%string.
Proof.
  pose proof (plot_jet_images_calls images titles filename) as (H1 & H2 & H3).
  cbv zeta. repeat split; assumption.
Qed.

(** C10, as stated, fails: an image without energy has pixel sum 0, and
    dividing its pixels by that sum (0 / 0, NaN in NumPy) does not give
    pixels that sum to 1. *)
Lemma rescale_empty_image_not_normalized :
  has_shape im_size im_size empty_image /\ pixel_sum empty_image = 0 /\
  pixel_sum (rescale_image empty_image) <> 1.
Proof.
  assert (Hz : forall n, reduce_sum (repeat 0 n) = 0).
  { induction n as [|n IH]; [reflexivity|].
    cbn [repeat]. rewrite reduce_sum_cons, IH. lra. }
  assert (Hp : pixels empty_image = repeat 0 256).
  { reflexivity. }
  split; [|split].
  - split; [reflexivity|]. unfold empty_image, im_size. repeat constructor.
  - unfold pixel_sum. rewrite Hp. apply Hz.
  - unfold rescale_image. fold (pixel_sum empty_image).
    assert (Hs : pixel_sum empty_image = 0) by (unfold pixel_sum; rewrite Hp; apply Hz).
    rewrite Hs. unfold pixel_sum.
    assert (Hq : pixels (map (map (fun v => v / 0)) empty_image) = repeat (0 / 0) 256).
    { reflexivity. }
    rewrite Hq. replace (0 / 0) with 0 by (unfold Rdiv; ring).
    rewrite Hz. lra.
Qed.

(** C10, amended: rescaling makes the pixels of an image of non-zero pixel sum
    sum to 1, and for every input whose pre-softmax output is 16 x 16 the
    autoencoder's output is 16 x 16, has non-negative pixels and sums to 1. *)
Theorem autoencoder_keeps_normalization (layers : image -> image) (raw x_in : image) :
  pixel_sum raw <> 0 ->
  has_shape im_size im_size (layers x_in) ->
  pixel_sum (rescale_image raw) = 1 /\
  has_shape im_size im_size (model layers x_in) /\
  nonneg_pixels (model layers x_in) /\
  pixel_sum (model layers x_in) = 1.
Proof.
  intros Hraw Hshape. unfold model. split; [|split; [|split]].
  - now apply rescale_image_sum.
  - now apply softmax_shape.
  - apply softmax_nonneg.
  - apply softmax_sum. apply (has_shape_pixels 15 15). exact Hshape.
Qed.

Lemma autoencoder_keeps_normalization_witness :
  pixel_sum (rescale_image two_pixel_image) = 1 /\
  has_shape im_size im_size (model flat_layers (rescale_image two_pixel_image)) /\
  nonneg_pixels (model flat_layers (rescale_image two_pixel_image)) /\
  pixel_sum (model flat_layers (rescale_image two_pixel_image)) = 1.
Proof.
  apply autoencoder_keeps_normalization.
  - unfold pixel_sum, pixels, two_pixel_image, reduce_sum. simpl. lra.
  - split; [reflexivity|]. repeat constructor.
Defined.

End JetClaims.

(** ** Failures of library calls *)

Module EffectFacts.
Import Effects.

Section Propagation.
Context {B : Backend}.

Lemma propagates_ret {A : Type} (a : A) : propagates (ret a).
Proof. intros w. simpl. split; [lia|]. intros j Hj. lia. Qed.

Lemma propagates_lib {A : Type} (f : world -> A * world) : propagates (lib f).
Proof.
  intros w. unfold lib. destruct (fault (calls w)) as [e|] eqn:Hf.
  - simpl. repeat split; [lia|assumption|]. intros j Hj. lia.
  - destruct (f w) as [a w']. simpl. split; [lia|].
    intros j Hj. assert (j = calls w) by lia. now subst j.
Qed.

Lemma propagates_bind {A C : Type} (m : M A) (k : A -> M C) :
  propagates m -> (forall a, propagates (k a)) -> propagates (bind m k).
Proof.
  intros Hm Hk w. unfold bind. specialize (Hm w).
  destruct (m w) as [a w1|e w1]; simpl in Hm.
  - destruct Hm as [Hle Hnone]. specialize (Hk a w1).
    destruct (k a w1) as [c w2|e w2]; simpl in *.
    + destruct Hk as [Hle2 Hnone2]. split; [lia|].
      intros j Hj. destruct (Nat.lt_ge_cases j (calls w1)).
      * apply Hnone. lia.
      * apply Hnone2. lia.
    + destruct Hk as (Hle2 & He & Hnone2). repeat split; [lia|assumption|].
      intros j Hj. destruct (Nat.lt_ge_cases j (calls w1)).
      * apply Hnone. lia.
      * apply Hnone2. lia.
  - exact Hm.
Qed.

(** A failure is the outcome: if a library call the run started has failed,
    the run has raised that call's exception and started no call after it. *)
Lemma faithful_surfaces {A : Type} (w : world) (r : outcome A) (j : nat) (e : exn) :
  faithful w r -> (calls w <= j < calls (final_world r))%nat -> fault j = Some e ->
  r = Raise e (final_world r) /\ calls (final_world r) = S j.
Proof.
  intros Hr Hj He. destruct r as [a w'|e' w']; simpl in *.
  - destruct Hr as [_ Hnone]. rewrite (Hnone j Hj) in He. discriminate.
  - destruct Hr as (Hlt & He' & Hnone).
    destruct (Nat.eq_dec j (pred (calls w'))) as [->|Hne].
    + rewrite He' in He. injection He as ->. split; [reflexivity|lia].
    + rewrite (Hnone j) in He by lia. discriminate.
Qed.

(** A handler that swallows the exception hides the failure. *)
Lemma try_except_hides {A : Type} (m : M A) (dflt : A) (w : world) (e : exn) (w' : world) :
  propagates m -> m w = Raise e w' ->
  ~ faithful w (try_except m (fun _ => ret dflt) w).
Proof.
  intros Hm Hw Hf. unfold try_except in Hf. specialize (Hm w). rewrite Hw in Hm, Hf.
  simpl in Hm, Hf. destruct Hm as (Hlt & He & _). destruct Hf as [_ Hnone].
  rewrite (Hnone (pred (calls w'))) in He by lia. discriminate.
Qed.

Lemma propagates_for_each {A S : Type} (l : list A) (body : S -> A -> M S) (st : S) :
  (forall s x, propagates (body s x)) -> propagates (for_each l body st).
Proof.
  intros Hbody. revert st. induction l as [|x l IH]; intros st; simpl.
  - apply propagates_ret.
  - apply propagates_bind; [apply Hbody|assumption].
Qed.

Lemma propagates_lib_pure {A : Type} (a : A) : propagates (lib_pure a).
Proof. apply propagates_lib. Qed.

Lemma propagates_lib_rng {A : Type} (f : rng -> A * rng) : propagates (lib_rng f).
Proof. apply propagates_lib. Qed.

Lemma propagates_lib_call (name : string) : propagates (lib_call name).
Proof. apply propagates_lib. Qed.

End Propagation.

Create HintDb propagation.

#[export] Hint Resolve propagates_ret propagates_lib propagates_lib_pure
  propagates_lib_rng propagates_lib_call : propagation.

(** Scripts are binds, loops and library calls. *)
Ltac propagation :=
  repeat first
    [ solve [auto with propagation]
    | apply propagates_bind; [|intros ?]
    | apply propagates_for_each; intros ? ? ].

End EffectFacts.

(** ** The SimCLR pipeline *)

Module PipelineFacts.
Import Tensor Encoder SimCLR Effects Pipeline EffectFacts.

Section Facts.
Context {B : Backend} {L : SimCLRLib}.

Lemma augment_pipeline (x : image) (g : rng) : augment x g = augmentation_pipeline x g.
Proof.
  unfold augment, augmentation_pipeline, sequential, rescaling. simpl.
  repeat match goal with
         | |- context [let (_, _) := ?e in _] => destruct e; simpl
         end.
  reflexivity.
Qed.

Lemma call_views (x : image) (g : rng) :
  fst (call x g) = (fst (augment x g), fst (augment x (snd (augment x g)))).
Proof.
  unfold call. destruct (augment x g) as [v1 g1]. simpl.
  destruct (augment x g1) as [v2 g2]. reflexivity.
Qed.

(** *** The dataset yields views *)

Lemma dataset_map_in {A C : Type} (f : A -> rng -> C * rng) (l : list A) (g : rng) (y : C) :
  In y (fst (dataset_map f l g)) -> exists x g', In x l /\ y = fst (f x g').
Proof.
  revert g. induction l as [|x l IH]; intros g Hin; simpl in *; [contradiction|].
  destruct (f x g) as [y0 g1] eqn:Hf.
  destruct (dataset_map f l g1) as [ys g2] eqn:Hmap. simpl in Hin.
  destruct Hin as [<-|Hin].
  - exists x, g. split; [now left|]. now rewrite Hf.
  - specialize (IH g1). rewrite Hmap in IH. destruct (IH Hin) as (x' & g' & Hx & Hy).
    exists x', g'. split; [now right|assumption].
Qed.

Lemma batch_from_cons {A : Type} (n : nat) (cur l : list A) (x : A) :
  batch_from n cur (x :: l)
  = if Nat.eqb (length (x :: cur)) n
    then rev (x :: cur) :: batch_from n [] l
    else batch_from n (x :: cur) l.
Proof. reflexivity. Qed.

Lemma batch_from_in {A : Type} (n : nat) (cur l b : list A) (y : A) :
  In b (batch_from n cur l) -> In y b -> In y cur \/ In y l.
Proof.
  revert cur. induction l as [|x l IH]; intros cur Hb Hy.
  - destruct cur as [|c cur]; [contradiction|].
    destruct Hb as [Hb|Hb]; [|contradiction]. subst b. left. now apply in_rev.
  - rewrite batch_from_cons in Hb. destruct (Nat.eqb (length (x :: cur)) n).
    + destruct Hb as [<-|Hb].
      * apply in_rev in Hy. destruct Hy as [<-|Hy]; [right; now left|now left].
      * destruct (IH [] Hb Hy) as [[]|Hl]. right. now right.
    + destruct (IH (x :: cur) Hb Hy) as [[<-|Hc]|Hl].
      * right. now left.
      * now left.
      * right. now right.
Qed.

Lemma train_ds_views (g : rng) (x1 x2 : list image) :
  In (x1, x2) (fst (train_ds g)) -> Forall is_view x1 /\ Forall is_view x2.
Proof.
  unfold train_ds.
  pose proof (shuffle_perm 1024 x_train g) as Hperm.
  destruct (shuffle 1024 x_train g) as [shuffled g1]. simpl in Hperm.
  destruct (dataset_map call shuffled g1) as [views g2] eqn:Hviews. simpl.
  intros Hin. apply in_map_iff in Hin. destruct Hin as [b [Heq Hb]].
  injection Heq as <- <-.
  assert (Hpair : forall p, In p b ->
            exists x g', In x x_train /\ p = fst (call x g')).
  { intros p Hp. destruct (batch_from_in _ _ _ _ _ Hb Hp) as [[]|Hv].
    pose proof (dataset_map_in call shuffled g1 p) as Hmap.
    rewrite Hviews in Hmap. destruct (Hmap Hv) as (x & g' & Hx & Hp').
    exists x, g'. split; [|assumption]. eapply Permutation_in; eassumption. }
  split; apply Forall_forall; intros v Hv; apply in_map_iff in Hv;
    destruct Hv as [p [<- Hp]]; destruct (Hpair p Hp) as (x & g' & Hx & ->);
    rewrite call_views; simpl.
  - now exists x, g'.
  - now exists x, (snd (augment x g')).
Qed.

(** *** The training loop feeds views *)

Lemma keeps_ret {A : Type} (a : A) (Q : A -> Prop) : Q a -> keeps (ret a) Q.
Proof. intros HQ w Hw. simpl. now split. Qed.

Lemma keeps_bind {A C : Type} (m : M A) (k : A -> M C) (Q : A -> Prop) (Q' : C -> Prop) :
  keeps m Q -> (forall a, Q a -> keeps (k a) Q') -> keeps (bind m k) Q'.
Proof.
  intros Hm Hk w Hw. unfold bind. destruct (Hm w Hw) as [Hv HQ].
  destruct (m w) as [a w1|e w1]; simpl in *.
  - now apply Hk.
  - now split.
Qed.

Lemma keeps_weaken {A : Type} (m : M A) (Q Q' : A -> Prop) :
  keeps m Q -> (forall a, Q a -> Q' a) -> keeps m Q'.
Proof.
  intros Hm HQ w Hw. destruct (Hm w Hw) as [Hv Ha]. split; [assumption|].
  destruct (m w); auto.
Qed.

Lemma keeps_lib_pure {A : Type} (a : A) (Q : A -> Prop) : Q a -> keeps (lib_pure a) Q.
Proof.
  intros HQ w Hw. unfold lib_pure, lib. destruct (fault (calls w)); simpl; now split.
Qed.

Lemma keeps_lib_rng {A : Type} (f : rng -> A * rng) (Q : A -> Prop) :
  (forall g, Q (fst (f g))) -> keeps (lib_rng f) Q.
Proof.
  intros HQ w Hw. unfold lib_rng, lib. destruct (fault (calls w)); simpl; [now split|].
  specialize (HQ (gen w)). destruct (f (gen w)) as [a g]. simpl. now split.
Qed.

Lemma keeps_lib_call (name : string) : keeps (lib_call name) (fun _ => True).
Proof. now apply keeps_lib_pure. Qed.

Lemma keeps_model_call (w : encoder_weights) (x : list image) :
  Forall is_view x -> keeps (model_call w x) (fun _ => True).
Proof.
  intros Hx wd Hwd. unfold model_call, lib. destruct (fault (calls wd)); simpl.
  - now split.
  - split; [|exact I]. unfold views_only. simpl. apply Forall_app. split; [assumption|].
    now constructor.
Qed.

Lemma keeps_for_each {A S : Type} (l : list A) (body : S -> A -> M S) (st : S) :
  (forall s x, In x l -> keeps (body s x) (fun _ => True)) ->
  keeps (for_each l body st) (fun _ => True).
Proof.
  revert st. induction l as [|x l IH]; intros st Hbody; simpl.
  - now apply keeps_ret.
  - apply keeps_bind with (Q := fun _ => True).
    + apply Hbody. now left.
    + intros s _. apply IH. intros s' y Hy. apply Hbody. now right.
Qed.

Lemma keeps_train_step (st : train_state) (x1 x2 : list image) :
  Forall is_view x1 -> Forall is_view x2 ->
  keeps (train_step st (x1, x2)) (fun _ => True).
Proof.
  intros H1 H2. unfold train_step.
  apply keeps_bind with (Q := fun _ => True); [now apply keeps_model_call|intros z1 _].
  apply keeps_bind with (Q := fun _ => True); [now apply keeps_model_call|intros z2 _].
  apply keeps_bind with (Q := fun _ => True); [now apply keeps_lib_pure|intros loss _].
  apply keeps_bind with (Q := fun _ => True); [now apply keeps_lib_pure|intros grads _].
  apply keeps_bind with (Q := fun _ => True); [now apply keeps_lib_pure|intros upd _].
  apply keeps_bind with (Q := fun _ => True); [apply keeps_lib_call|intros _ _].
  now apply keeps_ret.
Qed.

Lemma keeps_train_epoch (st : train_state) (epoch : nat) :
  keeps (train_epoch st epoch) (fun _ => True).
Proof.
  unfold train_epoch.
  apply keeps_bind
    with (Q := fun batches => forall x1 x2, In (x1, x2) batches ->
                                            Forall is_view x1 /\ Forall is_view x2).
  - apply keeps_lib_rng. intros g x1 x2. apply train_ds_views.
  - intros batches Hb.
    apply keeps_bind with (Q := fun _ => True).
    + apply keeps_for_each. intros s [x1 x2] Hin.
      destruct (Hb x1 x2 Hin). now apply keeps_train_step.
    + intros st' _.
      apply keeps_bind with (Q := fun _ => True); [apply keeps_lib_call|intros _ _].
      apply keeps_bind with (Q := fun _ => True); [apply keeps_lib_call|intros _ _].
      now apply keeps_ret.
Qed.

Lemma keeps_training_cell : keeps training_cell (fun _ => True).
Proof.
  unfold training_cell.
  apply keeps_bind with (Q := fun _ => True); [apply keeps_lib_call|intros _ _].
  apply keeps_bind with (Q := fun _ => True); [now apply keeps_lib_rng|intros w0 _].
  apply keeps_bind with (Q := fun _ => True); [now apply keeps_lib_pure|intros opt _].
  apply keeps_for_each. intros s epoch _. apply keeps_train_epoch.
Qed.

Lemma propagates_model_call (w : encoder_weights) (x : list image) :
  propagates (model_call w x).
Proof. apply propagates_lib. Qed.

Lemma propagates_train_step (st : train_state) (b : list image * list image) :
  propagates (train_step st b).
Proof.
  unfold train_step. destruct b as [x1 x2].
  pose proof propagates_model_call. propagation.
Qed.

Lemma propagates_training_cell : propagates training_cell.
Proof.
  unfold training_cell, train_epoch.
  pose proof propagates_train_step. propagation.
Qed.

Lemma propagates_plot_embedding (titled : bool) : propagates (plot_embedding titled).
Proof. unfold plot_embedding. destruct titled; propagation. Qed.

Lemma propagates_linear_evaluation : propagates linear_evaluation.
Proof. unfold linear_evaluation. propagation. Qed.

Lemma propagates_notebook : propagates notebook.
Proof.
  unfold notebook.
  pose proof propagates_training_cell. pose proof propagates_model_call.
  pose proof propagates_plot_embedding. pose proof propagates_linear_evaluation.
  propagation.
Qed.

End Facts.

End PipelineFacts.

(** ** Properties of the notebooks as programs *)

Module NotebookClaims.
Import Tensor Encoder SimCLR Effects Pipeline EffectFacts PipelineFacts.

Section Claims.
Context {B : Backend} {L : SimCLRLib} {J : JetsNotebook.JetLib}.

(** C5: [SimCLRPreprocessing.call(x)] returns a pair of two views, each the
    result of the augmentation pipeline (rescale, random crop, random flip,
    random rotation, random zoom) on [x]; the two come from two separate
    applications, the second starting from the generator the first left. *)
Theorem call_returns_two_views (x : image) (g : rng) :
  call x g
  = (let (view1, g1) := augmentation_pipeline x g in
     let (view2, g2) := augmentation_pipeline x g1 in
     ((view1, view2), g2)).
Proof.
  unfold call. rewrite augment_pipeline.
  destruct (augmentation_pipeline x g) as [view1 g1].
  now rewrite augment_pipeline.
Qed.

(** C6: after the training cell, run from the start of the notebook, every
    image of every batch the encoder was fed is a view that [augment]
    produced from a loaded training image; this holds as well when the run
    stops on an exception. *)
Theorem training_feeds_only_views (g : rng) :
  Forall (Forall (fun v => exists x g', In x x_train /\ v = fst (augment x g')))
         (fed (final_world (training_cell (init_world g)))).
Proof.
  apply (keeps_training_cell (init_world g)). constructor.
Qed.

Lemma propagates_plot (images : list Jets.image) (titles : list string) (f : option string) :
  propagates (JetsNotebook.plot images titles f).
Proof. unfold JetsNotebook.plot. apply propagates_for_each. intros s c. propagation. Qed.

Lemma propagates_plot_losses : propagates JetsNotebook.plot_losses.
Proof. unfold JetsNotebook.plot_losses. propagation. Qed.

Lemma propagates_jets_notebook : propagates JetsNotebook.notebook.
Proof.
  unfold JetsNotebook.notebook.
  pose proof propagates_plot. pose proof propagates_plot_losses. propagation.
Qed.

(** C7: in both notebooks, from data loading through training to prediction,
    whichever library calls fail: a run that ends normally has started no
    library call that failed, and a run that ends on an exception has
    started the failing call last and raises that call's exception, all
    calls before it having succeeded.  A failure is never caught, retried
    or replaced by a fallback. *)
Theorem failures_propagate (w : world) :
  faithful w (Pipeline.notebook w) /\ faithful w (JetsNotebook.notebook w).
Proof. split; [apply propagates_notebook|apply propagates_jets_notebook]. Qed.

End Claims.

Import Demo.

(** With the demo libraries the second call of the encoder (call 5) fails:
    the training cell raises that exception after six library calls, having
    fed the encoder the first view of the one training image. *)
Example training_cell_raises :
  exists w, training_cell (init_world 0%nat) = Raise "ResourceExhaustedError"%string w /\
            calls w = 6%nat /\ fed w = [[ [[[255 * (1 / 255)]]] ]].
Proof. eexists. split; [reflexivity|]. split; reflexivity. Qed.

(** Had the training cell been wrapped in a handler that returns the initial
    state instead, the run would end normally after a failed call: it would
    not be faithful. *)
Example training_cell_handler_hides (st : train_state) :
  ~ faithful (init_world 0%nat)
      (try_except training_cell (fun _ => ret st) (init_world 0%nat)).
Proof.
  destruct training_cell_raises as (w & Hw & _).
  eapply try_except_hides; [apply propagates_training_cell|exact Hw].
Qed.

End NotebookClaims.

(** ** More on the similarity matrix and the loss *)

Module LossBounds.
Import Tensor SimCLR ListFacts LossFacts EncoderFacts.

Lemma dot_nil_r (u : vec) : dot u [] = 0.
Proof. unfold dot, map2. now rewrite combine_nil. Qed.

Lemma dot_cons (a b : R) (u v : vec) : dot (a :: u) (b :: v) = a * b + dot u v.
Proof. reflexivity. Qed.

Lemma dot_comm (u v : vec) : dot u v = dot v u.
Proof.
  revert v. induction u as [|a u IH]; intros [|b v].
  - reflexivity.
  - now rewrite dot_nil_r.
  - now rewrite dot_nil_r.
  - rewrite !dot_cons, IH. lra.
Qed.

Lemma dot_self (v : vec) : dot v v = square_sum v.
Proof.
  induction v as [|a v IH]; [reflexivity|].
  now rewrite dot_cons, square_sum_cons, IH.
Qed.

(** Twice a dot product is at most the two sums of squares, whatever the
    lengths: the longer vector only adds squares. *)
Lemma dot_le_squares (u v : vec) :
  - (square_sum u + square_sum v) <= 2 * dot u v <= square_sum u + square_sum v.
Proof.
  revert v. induction u as [|a u IH]; intros [|b v].
  - change (dot [] []) with 0. change (square_sum []) with 0. lra.
  - change (dot [] (b :: v)) with 0. change (square_sum []) with 0.
    pose proof (square_sum_nonneg (b :: v)). lra.
  - rewrite dot_nil_r. change (square_sum []) with 0.
    pose proof (square_sum_nonneg (a :: u)). lra.
  - rewrite dot_cons, !square_sum_cons. specialize (IH v).
    pose proof (Rle_0_sqr (a - b)) as Hm. pose proof (Rle_0_sqr (a + b)) as Hp.
    unfold Rsqr in Hm, Hp. split; lra.
Qed.

Lemma unit_square_sum (v : vec) : norm v = 1 -> square_sum v = 1.
Proof.
  unfold norm. intros H. pose proof (square_sum_nonneg v) as Hs.
  rewrite <- (sqrt_sqrt (square_sum v)) by assumption. rewrite H. lra.
Qed.

Lemma l2_normalized_app (z1 z2 : mat) :
  l2_normalized z1 -> l2_normalized z2 -> l2_normalized (z1 ++ z2).
Proof. intros H1 H2. unfold l2_normalized. apply Forall_app. now split. Qed.

Lemma l2_normalized_nth (z : mat) (i : nat) :
  l2_normalized z -> (i < length z)%nat -> square_sum (nth i z []) = 1.
Proof.
  intros Hz Hi. apply unit_square_sum. unfold l2_normalized in Hz.
  rewrite Forall_forall in Hz. apply Hz. now apply nth_In.
Qed.

Lemma dot_sim_unit_bounds (z : mat) (i k : nat) :
  l2_normalized z -> (i < length z)%nat -> (k < length z)%nat ->
  -1 <= dot_sim z i k <= 1.
Proof.
  intros Hz Hi Hk. unfold dot_sim.
  pose proof (dot_le_squares (nth i z []) (nth k z [])) as H.
  rewrite !l2_normalized_nth in H by assumption. lra.
Qed.

Lemma dot_sim_unit_diag (z : mat) (i : nat) :
  l2_normalized z -> (i < length z)%nat -> dot_sim z i i = 1.
Proof.
  intros Hz Hi. unfold dot_sim. rewrite dot_self. now apply l2_normalized_nth.
Qed.

Lemma entry_overflow_row (m : mat) (i k : nat) :
  (length m <= i)%nat -> entry m i k = 0.
Proof. intros H. unfold entry. rewrite (nth_overflow m) by assumption. now destruct k. Qed.

Lemma similarity_entry_overflow_col (z1 z2 : mat) (t : R) (i k : nat) :
  (length (z1 ++ z2) <= k)%nat -> entry (similarity z1 z2 t) i k = 0.
Proof.
  intros Hk. destruct (Nat.lt_ge_cases i (length (z1 ++ z2))) as [Hi|Hi].
  - unfold entry. apply nth_overflow.
    pose proof (similarity_square z1 z2 t) as Hsq.
    unfold similarity, scalar_div, matmul_transpose_b in *.
    set (z := z1 ++ z2) in *. rewrite map_map.
    rewrite (nth_indep _ [] (map (fun x => x / t) (map (fun bj => dot [] bj) z)))
      by now rewrite length_map.
    rewrite (map_nth (fun ai => map (fun x => x / t) (map (fun bj => dot ai bj) z)) z []).
    now rewrite !length_map.
  - apply entry_overflow_row. unfold similarity, scalar_div, matmul_transpose_b.
    now rewrite !length_map.
Qed.

Lemma similarity_entry_sym (z1 z2 : mat) (t : R) (i k : nat) :
  entry (similarity z1 z2 t) i k = entry (similarity z1 z2 t) k i.
Proof.
  destruct (Nat.lt_ge_cases i (length (z1 ++ z2))) as [Hi|Hi];
    destruct (Nat.lt_ge_cases k (length (z1 ++ z2))) as [Hk|Hk].
  - rewrite !similarity_entry by assumption. unfold dot_sim. now rewrite dot_comm.
  - rewrite similarity_entry_overflow_col by assumption.
    symmetry. apply entry_overflow_row.
    unfold similarity, scalar_div, matmul_transpose_b. now rewrite !length_map.
  - rewrite (similarity_entry_overflow_col z1 z2 t k i) by assumption.
    apply entry_overflow_row.
    unfold similarity, scalar_div, matmul_transpose_b. now rewrite !length_map.
  - rewrite !similarity_entry_overflow_col by assumption. reflexivity.
Qed.

Lemma similarity_unit_bounds (z1 z2 : mat) (t : R) (i k : nat) :
  l2_normalized z1 -> l2_normalized z2 -> 0 < t ->
  (i < length (z1 ++ z2))%nat -> (k < length (z1 ++ z2))%nat ->
  - (1 / t) <= entry (similarity z1 z2 t) i k <= 1 / t /\
  entry (similarity z1 z2 t) i i = 1 / t.
Proof.
  intros H1 H2 Ht Hi Hk.
  pose proof (l2_normalized_app z1 z2 H1 H2) as Hz.
  rewrite !similarity_entry by assumption.
  pose proof (dot_sim_unit_bounds _ i k Hz Hi Hk) as [Hlo Hhi].
  rewrite (dot_sim_unit_diag _ i Hz Hi).
  assert (Hinv : 0 < / t) by now apply Rinv_0_lt_compat.
  unfold Rdiv. repeat split; nra.
Qed.

End LossBounds.

(** ** Sums of bounded terms, and the loss under scaling *)

Module LossRange.
Import Tensor SimCLR Notions ListFacts LossFacts EncoderFacts LossBounds.

Lemma exp_le (x y : R) : x <= y -> exp x <= exp y.
Proof. intros [H| ->]; [left; now apply exp_increasing|lra]. Qed.

Lemma ln_le (x y : R) : 0 < x -> x <= y -> ln x <= ln y.
Proof. intros Hx [H| ->]; [left; now apply ln_increasing|lra]. Qed.

Lemma reduce_sum_map_le_const {A : Type} (g : A -> R) (l : list A) (c : R) :
  (forall x, In x l -> g x <= c) -> reduce_sum (map g l) <= INR (length l) * c.
Proof.
  induction l as [|a l IH]; intros H.
  - simpl. change (reduce_sum []) with 0. lra.
  - cbn [map length]. rewrite reduce_sum_cons, S_INR.
    assert (g a <= c) by (apply H; now left).
    assert (reduce_sum (map g l) <= INR (length l) * c)
      by (apply IH; intros x Hx; apply H; now right).
    lra.
Qed.

Lemma reduce_sum_map_ge_const {A : Type} (g : A -> R) (l : list A) (c : R) :
  (forall x, In x l -> c <= g x) -> INR (length l) * c <= reduce_sum (map g l).
Proof.
  induction l as [|a l IH]; intros H.
  - simpl. change (reduce_sum []) with 0. lra.
  - cbn [map length]. rewrite reduce_sum_cons, S_INR.
    assert (c <= g a) by (apply H; now left).
    assert (INR (length l) * c <= reduce_sum (map g l))
      by (apply IH; intros x Hx; apply H; now right).
    lra.
Qed.

Lemma filter_neq_length (l : list nat) (i : nat) :
  NoDup l -> In i l ->
  S (length (filter (fun k => negb (Nat.eqb k i)) l)) = length l.
Proof.
  induction 1 as [|a l Hna Hnd IH]; intros Hin; [destruct Hin|].
  simpl. destruct (Nat.eqb_spec a i) as [->|Hne]; simpl.
  - rewrite filter_all; [reflexivity|].
    intros k Hk. destruct (Nat.eqb_spec k i); [subst; contradiction|reflexivity].
  - destruct Hin as [->|Hin]; [congruence|]. now rewrite IH.
Qed.

Lemma others_length (n i : nat) : (i < n)%nat -> S (length (others n i)) = n.
Proof.
  intros Hi. unfold others. rewrite filter_neq_length.
  - apply length_seq.
  - apply seq_NoDup.
  - apply in_seq. lia.
Qed.

(** X1: the similarity matrix is symmetric. *)
Theorem similarity_symmetric (z1 z2 : mat) (t : R) (i k : nat) :
  entry (similarity z1 z2 t) i k = entry (similarity z1 z2 t) k i.
Proof. apply similarity_entry_sym. Qed.

(** X2: on unit embeddings the scaled similarities are cosines over [t]: within
    [-1/t, 1/t], and [1/t] on the diagonal. *)
Theorem similarity_of_unit_rows (z1 z2 : mat) (t : R) (i k : nat) :
  l2_normalized z1 -> l2_normalized z2 -> 0 < t ->
  (i < length (z1 ++ z2))%nat -> (k < length (z1 ++ z2))%nat ->
  - (1 / t) <= entry (similarity z1 z2 t) i k <= 1 / t /\
  entry (similarity z1 z2 t) i i = 1 / t.
Proof. apply similarity_unit_bounds. Qed.

Lemma similarity_of_unit_rows_witness :
  - (1 / (1 / 2)) <= entry (similarity unit_z1 unit_z2 (1 / 2)) 0 1 <= 1 / (1 / 2) /\
  entry (similarity unit_z1 unit_z2 (1 / 2)) 0 0 = 1 / (1 / 2).
Proof.
  apply similarity_of_unit_rows.
  - unfold l2_normalized, unit_z1, norm, square_sum, reduce_sum.
    constructor; [|constructor]. simpl.
    replace (1 * 1 + (0 * 0 + 0)) with 1 by lra. apply sqrt_1.
  - unfold l2_normalized, unit_z2, norm, square_sum, reduce_sum.
    constructor; [|constructor]. simpl.
    replace (0 * 0 + (1 * 1 + 0)) with 1 by lra. apply sqrt_1.
  - lra.
  - simpl. lia.
  - simpl. lia.
Defined.

(** *** Scaling the embeddings *)

Lemma dot_scale (c : R) (u v : vec) :
  dot (map (fun x => c * x) u) (map (fun x => c * x) v) = c * c * dot u v.
Proof.
  revert v. induction u as [|a u IH]; intros [|b v]; simpl.
  - change (dot [] []) with 0. lra.
  - change (dot [] (c * b :: map (fun x => c * x) v)) with 0.
    change (dot [] (b :: v)) with 0. lra.
  - rewrite !dot_nil_r. lra.
  - rewrite !dot_cons, IH. lra.
Qed.

Lemma similarity_scale (c t : R) (z1 z2 : mat) :
  c <> 0 -> t <> 0 ->
  similarity (scale_rows c z1) (scale_rows c z2) t = similarity z1 z2 (t / (c * c)).
Proof.
  intros Hc Ht. unfold similarity, scale_rows, scalar_div, matmul_transpose_b.
  rewrite <- map_app. set (z := z1 ++ z2). rewrite !map_map.
  apply map_ext. intros a. rewrite !map_map. apply map_ext. intros b.
  rewrite dot_scale. field. split; assumption.
Qed.

(** X4: multiplying every embedding by [c <> 0] changes the loss as dividing the
    temperature by [c * c] does. *)
Theorem contrastive_loss_scale (c t : R) (z1 z2 : mat) :
  c <> 0 -> t <> 0 ->
  contrastive_loss (scale_rows c z1) (scale_rows c z2) t
  = contrastive_loss z1 z2 (t / (c * c)).
Proof.
  intros Hc Ht. unfold contrastive_loss. rewrite similarity_scale by assumption.
  unfold scale_rows. now rewrite length_map.
Qed.

Lemma contrastive_loss_scale_witness :
  contrastive_loss (scale_rows 2 unit_z1) (scale_rows 2 unit_z2) (1 / 2)
  = contrastive_loss unit_z1 unit_z2 (1 / 2 / (2 * 2)).
Proof. apply contrastive_loss_scale; lra. Defined.

End LossRange.

(** ** The loss within the range of float32 *)

Module RangeFacts.
Import Tensor SimCLR Float32 ListFacts LossFacts LossBounds LossRange.

(** *** Powers of e *)

Lemma exp_INR (n : nat) : exp (INR n) = exp 1 ^ n.
Proof.
  induction n as [|n IH]; [apply exp_0|].
  rewrite S_INR, exp_plus, IH. simpl. ring.
Qed.

Lemma exp_1_bounds : 2 <= exp 1 <= 3.
Proof.
  split; [|apply exp_le_3].
  pose proof (exp_ineq1 1 ltac:(lra)). lra.
Qed.

Lemma exp_upper (x : R) (n : nat) : x <= INR n -> exp x <= 3 ^ n.
Proof.
  intros H. apply Rle_trans with (exp (INR n)); [now apply exp_le|].
  rewrite exp_INR. apply pow_incr. pose proof exp_1_bounds. lra.
Qed.

Lemma exp_huge (x : R) (n : nat) : INR n <= x -> 2 ^ n <= exp x.
Proof.
  intros H. apply Rle_trans with (exp (INR n)); [|now apply exp_le].
  rewrite exp_INR. apply pow_incr. pose proof exp_1_bounds. lra.
Qed.

Lemma exp_lower (x : R) (n : nat) : - INR n <= x -> / 3 ^ n <= exp x.
Proof.
  intros H. apply Rle_trans with (exp (- INR n)); [|now apply exp_le].
  rewrite exp_Ropp. apply Rinv_le_contravar; [apply exp_pos|].
  now apply exp_upper.
Qed.

Lemma exp_tiny (x : R) (n : nat) : x <= - INR n -> exp x <= / 2 ^ n.
Proof.
  intros H. apply Rle_trans with (exp (- INR n)); [now apply exp_le|].
  rewrite exp_Ropp. apply Rinv_le_contravar; [apply pow_lt; lra|].
  now apply exp_huge.
Qed.

(** *** Results within and beyond the range *)

Lemma min_normal_pos : 0 < min_normal.
Proof. unfold min_normal. lra. Qed.

Lemma min_lt_max : min_normal < 1 /\ 1 < max_float.
Proof. unfold min_normal, max_float. split; lra. Qed.

Lemma of_real_0 : of_real 0 = Num 0.
Proof.
  unfold of_real. pose proof min_normal_pos. pose proof min_lt_max.
  destruct (Rlt_dec max_float 0); [lra|].
  destruct (Rlt_dec 0 (- max_float)); [lra|].
  destruct (Rlt_dec (Rabs 0) min_normal); [reflexivity|].
  rewrite Rabs_R0 in *. lra.
Qed.

Lemma of_real_id (x : R) :
  min_normal <= Rabs x <= max_float -> of_real x = Num x.
Proof.
  intros [Hlo Hhi]. unfold of_real.
  destruct (Rlt_dec max_float x) as [H|_].
  { pose proof (Rle_abs x). lra. }
  destruct (Rlt_dec x (- max_float)) as [H|_].
  { pose proof (Rle_abs (- x)). rewrite Rabs_Ropp in *. lra. }
  destruct (Rlt_dec (Rabs x) min_normal); [lra|reflexivity].
Qed.

Lemma of_real_pos_id (x : R) : min_normal <= x <= max_float -> of_real x = Num x.
Proof.
  intros H. pose proof min_normal_pos. apply of_real_id. rewrite Rabs_pos_eq; lra.
Qed.

Lemma of_real_overflow (x : R) : max_float < x -> of_real x = PInf.
Proof. intros H. unfold of_real. destruct (Rlt_dec max_float x); [reflexivity|lra]. Qed.

Lemma of_real_underflow (x : R) : 0 <= x < min_normal -> of_real x = Num 0.
Proof.
  intros H. unfold of_real. pose proof min_lt_max.
  destruct (Rlt_dec max_float x); [lra|].
  destruct (Rlt_dec x (- max_float)); [lra|].
  rewrite Rabs_pos_eq by lra.
  destruct (Rlt_dec x min_normal); [reflexivity|lra].
Qed.

Lemma of_real_nonneg (x : R) :
  0 <= x -> of_real x = PInf \/ exists y, of_real x = Num y /\ 0 <= y <= x.
Proof.
  intros H. unfold of_real. pose proof min_lt_max.
  destruct (Rlt_dec max_float x); [now left|]. right.
  destruct (Rlt_dec x (- max_float)); [lra|].
  destruct (Rlt_dec (Rabs x) min_normal).
  - exists 0. split; [reflexivity|lra].
  - exists x. split; [reflexivity|lra].
Qed.

Lemma of_real_nonpos (x : R) :
  x <= 0 -> of_real x = NInf \/ exists y, of_real x = Num y /\ y <= 0.
Proof.
  intros H. unfold of_real. pose proof min_lt_max.
  destruct (Rlt_dec max_float x); [lra|].
  destruct (Rlt_dec x (- max_float)); [now left|]. right.
  destruct (Rlt_dec (Rabs x) min_normal).
  - exists 0. split; [reflexivity|lra].
  - exists x. split; [reflexivity|lra].
Qed.

Lemma of_real_large (x : R) : min_normal <= x -> of_real x = PInf \/ of_real x = Num x.
Proof.
  intros H. pose proof min_normal_pos.
  destruct (Rle_lt_dec x max_float).
  - right. apply of_real_pos_id. lra.
  - left. now apply of_real_overflow.
Qed.

Lemma of_real_fraction (x : R) : 0 < x <= 1 -> of_real x = Num 0 \/ of_real x = Num x.
Proof.
  intros H. pose proof min_lt_max.
  destruct (Rle_lt_dec min_normal x).
  - right. apply of_real_pos_id. lra.
  - left. apply of_real_underflow. lra.
Qed.

(** *** The loss in index form *)

Lemma nt_xent_terms_f32_index (N : nat) (sim : mat) :
  square (2 * N) sim ->
  nt_xent_terms_f32 sim N = map (term_f32 (entry sim) N) (seq 0 (2 * N)).
Proof.
  intros Hsq. unfold nt_xent_terms_f32, positives.
  rewrite (square_tabulate _ _ Hsq) at 1 2 3.
  rewrite masked_tabulate, diag_part_upper, diag_part_lower.
  set (f := entry sim).
  unfold tabulate at 1. rewrite map_map, map_app.
  rewrite seq_double, !map_app, !map_map.
  rewrite map2_app by now rewrite !length_map.
  rewrite !map2_map_same. f_equal; apply map_ext_in; intros i Hi; apply in_seq in Hi.
  - unfold term_f32. rewrite partner_low by lia. now rewrite map_map, <- seq_double.
  - unfold term_f32. rewrite partner_high. now rewrite map_map, <- seq_double.
Qed.

Lemma nt_xent_of_sim_f32_index (N : nat) (sim : mat) :
  square (2 * N) sim ->
  nt_xent_of_sim_f32 sim N
  = f32_div (f32_reduce_sum (map (term_f32 (entry sim) N) (seq 0 (2 * N))))
            (Num (INR (2 * N))).
Proof.
  intros Hsq. unfold nt_xent_of_sim_f32, f32_reduce_mean.
  rewrite nt_xent_terms_f32_index by assumption.
  now rewrite length_map, length_seq.
Qed.

(** *** Values that are not negative *)

Lemma f32_exp_nonneg (x : R) : f32_nonneg (f32_exp x).
Proof.
  unfold f32_exp. pose proof (exp_pos x).
  destruct (of_real_nonneg (exp x)) as [->|(y & -> & Hy)]; simpl; lra.
Qed.

Lemma f32_add_nonneg (a b : f32) : f32_nonneg a -> f32_nonneg b -> f32_nonneg (f32_add a b).
Proof.
  destruct a as [x| | |], b as [y| | |]; simpl; try tauto.
  intros Hx Hy. destruct (of_real_nonneg (x + y)) as [->|(z & -> & Hz)]; simpl; lra.
Qed.

Lemma f32_reduce_sum_nonneg (l : list f32) :
  Forall f32_nonneg l -> f32_nonneg (f32_reduce_sum l).
Proof.
  induction 1 as [|a l Ha Hl IH]; simpl; [lra|].
  now apply f32_add_nonneg.
Qed.

(** A sum of values that are not negative is [+inf] or at least any of its
    summands that is a normal number. *)
Lemma f32_reduce_sum_ge (l : list f32) (a : R) :
  Forall f32_nonneg l -> min_normal <= a -> In (Num a) l ->
  f32_reduce_sum l = PInf \/ exists d, f32_reduce_sum l = Num d /\ a <= d.
Proof.
  intros Hl Ha. induction Hl as [|v l Hv Hl IH]; intros Hin; [destruct Hin|].
  pose proof (f32_reduce_sum_nonneg l Hl) as Hs.
  cbn [f32_reduce_sum fold_right]. fold (f32_reduce_sum l).
  destruct Hin as [->|Hin].
  - destruct (f32_reduce_sum l) as [y| | |]; simpl in Hs; try contradiction; simpl.
    + destruct (of_real_large (a + y) ltac:(lra)) as [->| ->]; [now left|].
      right. exists (a + y). split; [reflexivity|lra].
    + now left.
  - destruct (IH Hin) as [->|(d & -> & Hd)].
    + left. destruct v; simpl in *; try contradiction; reflexivity.
    + destruct v as [x| | |]; simpl in Hv; try contradiction; simpl.
      * destruct (of_real_large (x + d) ltac:(lra)) as [->| ->]; [now left|].
        right. exists (x + d). split; [reflexivity|lra].
      * now left.
Qed.

(** One sample's loss is not negative when its positive pair does not leave
    the range. *)
Lemma f32_term_nonneg (a : R) (d : f32) :
  min_normal <= a ->
  (d = PInf \/ exists y, d = Num y /\ a <= y) ->
  f32_nonneg (f32_neg (f32_log (f32_div (Num a) d))).
Proof.
  intros Ha Hd. pose proof min_normal_pos as Hm.
  destruct Hd as [->|(y & -> & Hy)].
  - simpl. destruct (Rlt_dec 0 0); [lra|].
    destruct (Req_dec_T 0 0); [simpl; exact I|congruence].
  - unfold f32_div. destruct (Req_dec_T y 0); [lra|].
    assert (Hr : 0 < a / y <= 1).
    { split; [apply Rdiv_lt_0_compat; lra|].
      apply (Rmult_le_reg_r y); [lra|].
      unfold Rdiv. rewrite Rmult_assoc, Rinv_l by lra. lra. }
    destruct (of_real_fraction _ Hr) as [->| ->]; unfold f32_log.
    + destruct (Rlt_dec 0 0); [lra|].
      destruct (Req_dec_T 0 0); [simpl; exact I|congruence].
    + destruct (Rlt_dec (a / y) 0); [lra|].
      destruct (Req_dec_T (a / y) 0); [lra|].
      destruct (of_real_nonpos (ln (a / y)) ltac:(apply ln_le_0; lra))
        as [->|(z & -> & Hz)].
      * simpl. exact I.
      * simpl. lra.
Qed.

Lemma f32_mean_nonneg (s : f32) (n : R) :
  f32_nonneg s -> 0 < n -> f32_nonneg (f32_div s (Num n)).
Proof.
  intros Hs Hn. destruct s as [x| | |]; simpl in Hs; try contradiction; unfold f32_div.
  - destruct (Req_dec_T n 0); [lra|].
    assert (0 <= x / n) by (apply Rmult_le_pos; [lra|left; now apply Rinv_0_lt_compat]).
    destruct (of_real_nonneg (x / n)) as [->|(y & -> & Hy)]; simpl; lra.
  - destruct (Rlt_dec n 0); [lra|]. simpl. exact I.
Qed.

Lemma f32_term_nonneg_index (f : nat -> nat -> R) (N i : nat) :
  (i < 2 * N)%nat ->
  min_normal <= exp (f i (partner N i)) <= max_float ->
  f32_nonneg (term_f32 f N i).
Proof.
  intros Hi Ha. unfold term_f32.
  pose proof (partner_lt N i Hi) as Hp. pose proof (partner_neq N i Hi) as Hne.
  rewrite damp_off_diagonal by congruence.
  unfold f32_exp at 1. rewrite of_real_pos_id by assumption.
  apply f32_term_nonneg; [tauto|].
  apply f32_reduce_sum_ge; [|tauto|].
  - apply Forall_forall. intros v Hv. apply in_map_iff in Hv.
    destruct Hv as [k [<- _]]. apply f32_exp_nonneg.
  - apply in_map_iff. exists (partner N i). split.
    + rewrite damp_off_diagonal by congruence. unfold f32_exp.
      now rewrite of_real_pos_id.
    + apply in_seq. lia.
Qed.

Lemma nt_xent_of_sim_f32_nonneg (N : nat) (sim : mat) :
  square (2 * N) sim -> (1 <= N)%nat ->
  (forall i, (i < 2 * N)%nat ->
             min_normal <= exp (entry sim i (partner N i)) <= max_float) ->
  f32_nonneg (nt_xent_of_sim_f32 sim N).
Proof.
  intros Hsq HN Hpos. rewrite nt_xent_of_sim_f32_index by assumption.
  apply f32_mean_nonneg.
  - apply f32_reduce_sum_nonneg, Forall_forall. intros v Hv.
    apply in_map_iff in Hv. destruct Hv as [i [<- Hi]]. apply in_seq in Hi.
    apply f32_term_nonneg_index; [lia|]. apply Hpos. lia.
  - apply lt_0_INR. lia.
Qed.

(** *** The loss where no step leaves the range *)

Lemma of_real_exact (x : R) :
  x = 0 \/ min_normal <= x -> x <= max_float -> of_real x = Num x.
Proof.
  intros [->|H] Hm; [apply of_real_0|]. apply of_real_pos_id. lra.
Qed.

Lemma reduce_sum_zero_or_normal (l : vec) :
  Forall (fun x => x = 0 \/ min_normal <= x) l ->
  0 <= reduce_sum l /\ (reduce_sum l = 0 \/ min_normal <= reduce_sum l).
Proof.
  pose proof min_normal_pos as Hm.
  induction 1 as [|x l Hx Hl IH].
  - change (reduce_sum []) with 0. split; [lra|now left].
  - rewrite reduce_sum_cons. destruct IH as [H0 IH].
    destruct Hx as [->|Hx]; [|split; [lra|right; lra]].
    split; [lra|]. destruct IH as [->|IH]; [left; lra|right; lra].
Qed.

Lemma f32_reduce_sum_exact (l : vec) :
  Forall (fun x => x = 0 \/ min_normal <= x) l -> reduce_sum l <= max_float ->
  f32_reduce_sum (map Num l) = Num (reduce_sum l).
Proof.
  pose proof min_normal_pos as Hm.
  induction 1 as [|x l Hx Hl IH]; intros Hmax; [reflexivity|].
  pose proof (reduce_sum_zero_or_normal l Hl) as [H0 Hz].
  rewrite reduce_sum_cons in *.
  assert (Hx0 : 0 <= x) by (destruct Hx; lra).
  cbn [map f32_reduce_sum fold_right]. fold (f32_reduce_sum (map Num l)).
  rewrite IH by lra. simpl. apply of_real_exact; [|assumption].
  destruct Hx as [->|Hx]; [|right; lra].
  destruct Hz as [->|Hz]; [left; lra|right; lra].
Qed.

Lemma others_NoDup (n i : nat) : NoDup (others n i).
Proof. unfold others. apply NoDup_filter, seq_NoDup. Qed.

(** *** One sample's loss by the published definition *)

Lemma partner_in_others (N i : nat) :
  (i < 2 * N)%nat -> In (partner N i) (others (2 * N) i).
Proof.
  intros Hi. apply in_others. split; [now apply partner_lt|now apply partner_neq].
Qed.

Lemma nt_xent_term_ratio (f : nat -> nat -> R) (N i : nat) :
  (i < 2 * N)%nat ->
  exp (f i (partner N i))
  <= reduce_sum (map (fun k => exp (f i k)) (others (2 * N) i)) /\
  0 < exp (f i (partner N i))
      / reduce_sum (map (fun k => exp (f i k)) (others (2 * N) i)) <= 1.
Proof.
  intros Hi.
  set (a := exp (f i (partner N i))).
  set (D := reduce_sum (map (fun k => exp (f i k)) (others (2 * N) i))).
  assert (Ha : 0 < a) by apply exp_pos.
  assert (HD : a <= D).
  { apply (reduce_sum_ge_term (fun k => exp (f i k))).
    - intros k. left. apply exp_pos.
    - now apply partner_in_others. }
  repeat split; try assumption.
  - apply Rdiv_lt_0_compat; lra.
  - apply (Rmult_le_reg_r D); [lra|].
    unfold Rdiv. rewrite Rmult_assoc, Rinv_l by lra. lra.
Qed.

Lemma nt_xent_term_nonneg (f : nat -> nat -> R) (N i : nat) :
  (i < 2 * N)%nat -> 0 <= nt_xent_term f N i.
Proof.
  intros Hi. unfold nt_xent_term.
  destruct (nt_xent_term_ratio f N i Hi) as (_ & Hr).
  pose proof (ln_le_0 _ (proj1 Hr) (proj2 Hr)). lra.
Qed.

(** With one sample per view the denominator is the numerator. *)
Lemma nt_xent_term_single (f : nat -> nat -> R) (i : nat) :
  (i < 2)%nat -> nt_xent_term f 1 i = 0.
Proof.
  intros Hi. unfold nt_xent_term.
  assert (Hc : i = 0%nat \/ i = 1%nat) by lia.
  destruct Hc as [-> | ->]; unfold others, partner; simpl;
    unfold reduce_sum; simpl; rewrite Rplus_0_r;
    unfold Rdiv; rewrite Rinv_r by (apply Rgt_not_eq, exp_pos);
    rewrite ln_1; lra.
Qed.

(** The denominator without the positive pair. *)
Lemma others_split (g : nat -> R) (N i : nat) :
  (i < 2 * N)%nat ->
  reduce_sum (map g (others (2 * N) i))
  = reduce_sum (map g (filter (fun k => negb (Nat.eqb k (partner N i))) (others (2 * N) i)))
    + g (partner N i).
Proof.
  intros Hi. apply reduce_sum_split.
  - unfold others. apply NoDup_filter, seq_NoDup.
  - now apply partner_in_others.
Qed.

Lemma others_rest_length (N i : nat) :
  (i < 2 * N)%nat ->
  length (filter (fun k => negb (Nat.eqb k (partner N i))) (others (2 * N) i))
  = (2 * N - 2)%nat.
Proof.
  intros Hi.
  pose proof (others_length (2 * N) i Hi) as H1.
  pose proof (filter_neq_length (others (2 * N) i) (partner N i)
                ltac:(unfold others; apply NoDup_filter, seq_NoDup)
                (partner_in_others N i Hi)) as H2.
  lia.
Qed.

Lemma in_others_rest (N i k : nat) :
  In k (filter (fun k => negb (Nat.eqb k (partner N i))) (others (2 * N) i))
  <-> (k < 2 * N)%nat /\ k <> i /\ k <> partner N i.
Proof.
  rewrite filter_In, in_others, negb_true_iff, Nat.eqb_neq. tauto.
Qed.

Lemma third_sample (N i p : nat) :
  (2 <= N)%nat -> exists k, (k < 2 * N)%nat /\ k <> i /\ k <> p.
Proof.
  intros HN.
  destruct (Nat.eq_dec 0 i), (Nat.eq_dec 0 p), (Nat.eq_dec 1 i), (Nat.eq_dec 1 p);
    try (exists 0%nat; lia); try (exists 1%nat; lia); exists 2%nat; lia.
Qed.




(** One sample's loss when every similarity of its row lies in [-c, c]. *)
Lemma nt_xent_term_range (f : nat -> nat -> R) (N i : nat) (c : R) :
  (i < 2 * N)%nat ->
  (forall k, (k < 2 * N)%nat -> - c <= f i k <= c) ->
  ln (1 + INR (2 * N - 2) * exp (- (2 * c))) <= nt_xent_term f N i
  <= ln (INR (2 * N)) + 2 * c.
Proof.
  intros Hi Hf. unfold nt_xent_term.
  pose proof (partner_lt N i Hi) as Hp.
  set (s := f i (partner N i)).
  assert (Hs : - c <= s <= c) by (apply Hf; assumption).
  set (D := reduce_sum (map (fun k => exp (f i k)) (others (2 * N) i))).
  pose proof (exp_pos s) as Ha. pose proof (exp_pos c) as HE. pose proof (exp_pos (- c)) as He.
  assert (HEe : exp (- c) * exp c = 1) by (rewrite <- exp_plus, Rplus_opp_l; apply exp_0).
  assert (He2 : exp (- (2 * c)) = exp (- c) * exp (- c))
    by (rewrite <- exp_plus; f_equal; lra).
  assert (Hsl : exp (- c) <= exp s) by (apply exp_le; lra).
  assert (Hsu : exp s <= exp c) by (apply exp_le; lra).
  assert (Hn : 0 < INR (2 * N)) by (apply lt_0_INR; lia).
  assert (HDu : D <= INR (2 * N) * exp c).
  { unfold D.
    apply Rle_trans with (INR (length (others (2 * N) i)) * exp c).
    - apply reduce_sum_map_le_const. intros k Hk. apply in_others in Hk.
      apply exp_le. specialize (Hf k ltac:(lia)). lra.
    - apply Rmult_le_compat_r; [lra|]. apply le_INR.
      pose proof (others_length (2 * N) i Hi). lia. }
  assert (HDl : exp s + INR (2 * N - 2) * exp (- c) <= D).
  { unfold D. rewrite (others_split _ N i Hi). fold s.
    rewrite <- (others_rest_length N i Hi).
    pose proof (reduce_sum_map_ge_const (fun k => exp (f i k))
                  (filter (fun k => negb (Nat.eqb k (partner N i))) (others (2 * N) i))
                  (exp (- c))) as H.
    assert (Hall : forall k,
               In k (filter (fun k => negb (Nat.eqb k (partner N i))) (others (2 * N) i)) ->
               exp (- c) <= exp (f i k)).
    { intros k Hk. apply in_others_rest in Hk. apply exp_le.
      specialize (Hf k ltac:(lia)). lra. }
    specialize (H Hall). lra. }
  assert (Hm : 0 <= INR (2 * N - 2)) by apply pos_INR.
  assert (HD : 0 < D) by nra.
  split.
  - replace (- ln (exp s / D)) with (ln (D / exp s)).
    + apply ln_le.
      * nra.
      * apply (Rmult_le_reg_r (exp s)); [assumption|].
        unfold Rdiv. rewrite Rmult_assoc, Rinv_l by lra.
        rewrite He2.
        assert (H1 : exp (- c) * exp s <= 1) by nra.
        assert (H2 : 0 <= INR (2 * N - 2) * exp (- c)) by nra.
        assert (H3 : INR (2 * N - 2) * exp (- c) * (exp (- c) * exp s)
                     <= INR (2 * N - 2) * exp (- c) * 1)
          by (apply Rmult_le_compat_l; assumption).
        lra.
    + rewrite <- ln_Rinv by (apply Rdiv_lt_0_compat; lra).
      f_equal. field. lra.
  - assert (Hlow : exp (- (2 * c)) / INR (2 * N) <= exp s / D).
    { apply (Rmult_le_reg_r (INR (2 * N) * D)); [nra|].
      replace (exp (- (2 * c)) / INR (2 * N) * (INR (2 * N) * D))
        with (exp (- (2 * c)) * D) by (field; lra).
      replace (exp s / D * (INR (2 * N) * D)) with (exp s * INR (2 * N)) by (field; lra).
      rewrite He2.
      assert (H1 : exp (- c) * exp (- c) * D
                   <= exp (- c) * exp (- c) * (INR (2 * N) * exp c))
        by (apply Rmult_le_compat_l; [nra|assumption]).
      assert (H2 : exp (- c) * exp (- c) * (INR (2 * N) * exp c)
                   = exp (- c) * INR (2 * N))
        by (transitivity (exp (- c) * INR (2 * N) * (exp (- c) * exp c));
            [ring|rewrite HEe; ring]).
      assert (H3 : exp (- c) * INR (2 * N) <= exp s * INR (2 * N))
        by (apply Rmult_le_compat_r; lra).
      lra. }
    assert (Hln : ln (exp (- (2 * c)) / INR (2 * N)) = - (2 * c) - ln (INR (2 * N))).
    { unfold Rdiv. rewrite ln_mult, ln_exp, ln_Rinv.
      - lra.
      - assumption.
      - apply exp_pos.
      - now apply Rinv_0_lt_compat. }
    assert (ln (exp (- (2 * c)) / INR (2 * N)) <= ln (exp s / D)).
    { apply ln_le; [|assumption]. apply Rdiv_lt_0_compat; [apply exp_pos|assumption]. }
    lra.
Qed.

(** *** Within the range the code computes the published value *)

Lemma ln_le_minus_1 (x : R) : 0 < x -> ln x <= x - 1.
Proof.
  intros Hx. destruct (Req_dec (ln x) 0) as [H0|H0].
  - assert (x = 1).
    { rewrite <- (exp_ln x Hx), H0. apply exp_0. }
    lra.
  - pose proof (exp_ineq1 (ln x) H0) as H. rewrite exp_ln in H by assumption. lra.
Qed.

Lemma exp_in_range (x : R) :
  -30 <= x <= 30 -> / 3 ^ 30 <= exp x <= 3 ^ 30 /\ min_normal <= exp x <= max_float.
Proof.
  intros Hx.
  assert (H30 : INR 30 = 30) by (simpl; lra).
  pose proof (exp_lower x 30 ltac:(lra)) as Hl.
  pose proof (exp_upper x 30 ltac:(lra)) as Hu.
  unfold min_normal, max_float. repeat split; lra.
Qed.

Lemma exp_masked (x : R) : x <= 30 -> f32_exp (x - 1e9) = Num 0.
Proof.
  intros Hx. unfold f32_exp. apply of_real_underflow.
  assert (H127 : INR 127 = 127) by (simpl; lra).
  pose proof (exp_tiny (x - 1e9) 127 ltac:(lra)) as Ht.
  pose proof (exp_pos (x - 1e9)). unfold min_normal. split; lra.
Qed.

(** A row of the masked matrix: the exponentials of the other samples, and 0
    for the sample itself. *)
Lemma row_f32_exact (f : nat -> nat -> R) (N i : nat) :
  (i < 2 * N)%nat -> INR (2 * N) <= 2 ^ 20 ->
  (forall k, (k < 2 * N)%nat -> -30 <= f i k <= 30) ->
  f32_reduce_sum (map (fun k => f32_exp (damp f i k)) (seq 0 (2 * N)))
  = Num (reduce_sum (map (fun k => exp (f i k)) (others (2 * N) i))) /\
  reduce_sum (map (fun k => exp (f i k)) (others (2 * N) i)) <= 2 ^ 20 * 3 ^ 30.
Proof.
  intros Hi HN Hf.
  set (g := fun k => if Nat.eqb k i then 0 else exp (f i k)).
  assert (Hrow : map (fun k => f32_exp (damp f i k)) (seq 0 (2 * N))
                 = map Num (map g (seq 0 (2 * N)))).
  { rewrite map_map. apply map_ext_in. intros k Hk. apply in_seq in Hk. unfold g.
    destruct (Nat.eqb_spec k i) as [->|Hne].
    - rewrite damp_diagonal. apply exp_masked. apply Hf. lia.
    - rewrite damp_off_diagonal by congruence. unfold f32_exp.
      apply of_real_pos_id. apply exp_in_range, Hf. lia. }
  assert (Hsum : reduce_sum (map g (seq 0 (2 * N)))
                 = reduce_sum (map (fun k => exp (f i k)) (others (2 * N) i))).
  { rewrite (reduce_sum_split g (seq 0 (2 * N)) i) by (try apply seq_NoDup; apply in_seq; lia).
    fold (others (2 * N) i).
    replace (g i) with 0 by (unfold g; now rewrite Nat.eqb_refl). rewrite Rplus_0_r.
    f_equal. apply map_ext_in. intros k Hk. apply in_others in Hk. unfold g.
    destruct (Nat.eqb_spec k i); [tauto|reflexivity]. }
  assert (Hle : reduce_sum (map (fun k => exp (f i k)) (others (2 * N) i))
                <= 2 ^ 20 * 3 ^ 30).
  { apply Rle_trans with (INR (length (others (2 * N) i)) * 3 ^ 30).
    - apply reduce_sum_map_le_const. intros k Hk. apply in_others in Hk.
      apply exp_in_range, Hf. lia.
    - apply Rmult_le_compat_r; [lra|].
      apply Rle_trans with (INR (2 * N)); [|assumption]. apply le_INR.
      pose proof (others_length (2 * N) i Hi). lia. }
  split; [|assumption].
  rewrite Hrow, f32_reduce_sum_exact, Hsum; [reflexivity| |].
  - apply Forall_forall. intros x Hx. apply in_map_iff in Hx.
    destruct Hx as [k [<- Hk]]. apply in_seq in Hk. unfold g.
    destruct (Nat.eqb k i); [now left|right]. apply exp_in_range, Hf. lia.
  - rewrite Hsum. unfold max_float. lra.
Qed.

Lemma term_f32_exact (f : nat -> nat -> R) (N i : nat) :
  (i < 2 * N)%nat -> INR (2 * N) <= 2 ^ 20 ->
  (forall k, (k < 2 * N)%nat -> -30 <= f i k <= 30) ->
  term_f32 f N i = Num (nt_xent_term f N i) /\
  (N = 1%nat -> nt_xent_term f N i = 0) /\
  ((2 <= N)%nat -> min_normal <= nt_xent_term f N i) /\
  0 <= nt_xent_term f N i <= 140.
Proof.
  intros Hi HN Hf.
  pose proof (partner_lt N i Hi) as Hp. pose proof (partner_neq N i Hi) as Hne.
  destruct (row_f32_exact f N i Hi HN Hf) as [Hrow HDu].
  destruct (nt_xent_term_ratio f N i Hi) as (HaD & Hr0 & Hr1).
  pose proof (nt_xent_term_nonneg f N i Hi) as HT0.
  unfold term_f32. rewrite Hrow. rewrite damp_off_diagonal by congruence.
  unfold nt_xent_term in *.
  set (a := exp (f i (partner N i))) in *.
  set (D := reduce_sum (map (fun k => exp (f i k)) (others (2 * N) i))) in *.
  destruct (exp_in_range (f i (partner N i)) (Hf _ Hp)) as [[Hal Hau] Har]. fold a in Hal, Hau, Har.
  assert (Ha : 0 < a) by apply exp_pos.
  assert (HD : 0 < D) by lra.
  assert (HK : / (2 ^ 20 * 3 ^ 60) <= a / D).
  { apply (Rmult_le_reg_r D); [assumption|].
    unfold Rdiv. rewrite Rmult_assoc, Rinv_l, Rmult_1_r by lra.
    apply Rle_trans with (/ (2 ^ 20 * 3 ^ 60) * (2 ^ 20 * 3 ^ 30)).
    - apply Rmult_le_compat_l; [|assumption]. lra.
    - lra. }
  assert (Hup : - ln (a / D) <= 140).
  { assert (H140 : INR 140 = 140) by (simpl; lra).
    pose proof (exp_tiny (- 140) 140 ltac:(lra)) as Ht.
    assert (Hle : exp (- 140) <= a / D) by lra.
    pose proof (ln_le _ _ (exp_pos (- 140)) Hle) as Hl. rewrite ln_exp in Hl. lra. }
  assert (Hlow : (2 <= N)%nat -> min_normal <= - ln (a / D)).
  { intros H2.
    destruct (third_sample N i (partner N i) H2) as (k0 & Hk0).
    assert (HDl : a + / 3 ^ 30 <= D).
    { unfold D. rewrite (others_split _ N i Hi). fold a.
      assert (exp (f i k0)
              <= reduce_sum (map (fun k => exp (f i k))
                   (filter (fun k => negb (Nat.eqb k (partner N i))) (others (2 * N) i)))).
      { apply (reduce_sum_ge_term (fun k => exp (f i k))).
        - intros k. left. apply exp_pos.
        - now apply in_others_rest. }
      pose proof (exp_in_range (f i k0) (Hf _ (proj1 Hk0))). lra. }
    pose proof (ln_le_minus_1 (a / D) Hr0) as Hln.
    assert (Hgap : / (2 ^ 20 * 3 ^ 60) <= 1 - a / D).
    { replace (1 - a / D) with ((D - a) / D) by (field; lra).
      apply (Rmult_le_reg_r D); [assumption|].
      unfold Rdiv. rewrite Rmult_assoc, Rinv_l, Rmult_1_r by lra.
      apply Rle_trans with (/ (2 ^ 20 * 3 ^ 60) * (2 ^ 20 * 3 ^ 30)).
      - apply Rmult_le_compat_l; [|assumption]. lra.
      - lra. }
    unfold min_normal. lra. }
  assert (Hone : N = 1%nat -> - ln (a / D) = 0).
  { intros ->. apply (nt_xent_term_single f i Hi). }
  split; [|repeat split; assumption].
  unfold f32_exp at 1. fold a. rewrite of_real_pos_id by assumption.
  unfold f32_div. destruct (Req_dec_T D 0); [lra|].
  rewrite of_real_pos_id by (unfold min_normal, max_float in *; lra).
  unfold f32_log.
  destruct (Rlt_dec (a / D) 0); [lra|].
  destruct (Req_dec_T (a / D) 0); [lra|].
  assert (Hex : of_real (ln (a / D)) = Num (ln (a / D))).
  { destruct (Nat.eq_dec N 1) as [H1|H1].
    - assert (H0 : ln (a / D) = 0) by (specialize (Hone H1); lra).
      rewrite H0. apply of_real_0.
    - apply of_real_id. specialize (Hlow ltac:(lia)).
      rewrite <- Rabs_Ropp, Rabs_pos_eq by lra. unfold max_float. lra. }
  rewrite Hex. reflexivity.
Qed.

(** For matrices within the range the code returns the published NT-Xent
    value. *)
Lemma nt_xent_of_sim_f32_exact (N : nat) (sim : mat) :
  square (2 * N) sim -> (1 <= N)%nat -> in_range sim N ->
  nt_xent_of_sim_f32 sim N = Num (nt_xent_value sim N).
Proof.
  intros Hsq HN1 [HN Hin]. rewrite nt_xent_of_sim_f32_index by assumption.
  set (f := entry sim). unfold nt_xent_value. fold f.
  assert (Hterm : forall i, (i < 2 * N)%nat ->
            term_f32 f N i = Num (nt_xent_term f N i) /\
            (N = 1%nat -> nt_xent_term f N i = 0) /\
            ((2 <= N)%nat -> min_normal <= nt_xent_term f N i) /\
            0 <= nt_xent_term f N i <= 140).
  { intros i Hi. apply term_f32_exact; auto. }
  assert (Hn : 0 < INR (2 * N)) by (apply lt_0_INR; lia).
  rewrite (map_ext_in (term_f32 f N) (fun i => Num (nt_xent_term f N i))).
  2:{ intros i Hi. apply in_seq in Hi. apply Hterm. lia. }
  rewrite <- (map_map (nt_xent_term f N) Num).
  set (T := map (nt_xent_term f N) (seq 0 (2 * N))).
  assert (Hu : reduce_sum T <= INR (2 * N) * 140).
  { unfold T. rewrite <- (length_seq (2 * N) 0) at 2.
    apply reduce_sum_map_le_const. intros i Hi. apply in_seq in Hi.
    apply Hterm. lia. }
  assert (H0 : 0 <= reduce_sum T).
  { apply reduce_sum_nonneg, Forall_forall. intros x Hx. apply in_map_iff in Hx.
    destruct Hx as [i [<- Hi]]. apply in_seq in Hi. apply Hterm. lia. }
  rewrite f32_reduce_sum_exact.
  - unfold f32_div. destruct (Req_dec_T (INR (2 * N)) 0); [lra|].
    apply of_real_exact.
    + destruct (Nat.eq_dec N 1) as [H1|H1].
      * left. assert (reduce_sum T = 0); [|unfold Rdiv; nra].
        assert (Hl : reduce_sum T <= INR (length (seq 0 (2 * N))) * 0).
        { apply reduce_sum_map_le_const. intros i Hi. apply in_seq in Hi.
          right. apply Hterm; [lia|assumption]. }
        lra.
      * right.
        assert (Hl : INR (length (seq 0 (2 * N))) * min_normal <= reduce_sum T).
        { apply reduce_sum_map_ge_const. intros i Hi. apply in_seq in Hi.
          apply Hterm; lia. }
        rewrite length_seq in Hl.
        apply (Rmult_le_reg_r (INR (2 * N))); [assumption|].
        unfold Rdiv. rewrite Rmult_assoc, Rinv_l by lra. lra.
    + apply (Rmult_le_reg_r (INR (2 * N))); [assumption|].
      unfold Rdiv. rewrite Rmult_assoc, Rinv_l by lra.
      unfold max_float. nra.
  - apply Forall_forall. intros x Hx. apply in_map_iff in Hx.
    destruct Hx as [i [<- Hi]]. apply in_seq in Hi.
    destruct (Nat.eq_dec N 1) as [H1|H1].
    + left. apply Hterm; [lia|assumption].
    + right. apply Hterm; lia.
  - unfold max_float. nra.
Qed.

End RangeFacts.

(** ** Properties of the loss as float32 computes it *)

Module LossInRange.
Import Tensor SimCLR Float32 ListFacts LossFacts LossBounds LossRange RangeFacts.

Lemma unit_rows : l2_normalized unit_z1 /\ l2_normalized unit_z2.
Proof.
  unfold l2_normalized, unit_z1, unit_z2, norm, square_sum, reduce_sum.
  split; constructor; try constructor; simpl.
  - replace (1 * 1 + (0 * 0 + 0)) with 1 by lra. apply sqrt_1.
  - replace (0 * 0 + (1 * 1 + 0)) with 1 by lra. apply sqrt_1.
Qed.

Lemma f32_reduce_sum_inf (l : list f32) :
  Forall f32_nonneg l -> In PInf l -> f32_reduce_sum l = PInf.
Proof.
  induction 1 as [|v l Hv Hl IH]; intros Hin; [destruct Hin|].
  pose proof (f32_reduce_sum_nonneg l Hl) as Hs.
  cbn [f32_reduce_sum fold_right]. fold (f32_reduce_sum l).
  destruct Hin as [->|Hin].
  - destruct (f32_reduce_sum l); simpl in *; try contradiction; reflexivity.
  - rewrite (IH Hin). destruct v; simpl in *; try contradiction; reflexivity.
Qed.

Lemma f32_exp_overflow (x : R) : 128 <= x -> f32_exp x = PInf.
Proof.
  intros Hx. unfold f32_exp. apply of_real_overflow.
  assert (H128 : INR 128 = 128) by (simpl; lra).
  pose proof (exp_huge x 128 ltac:(lra)). unfold max_float. lra.
Qed.

(** A sample whose positive pair overflows has no loss. *)
Lemma term_f32_overflow (f : nat -> nat -> R) (N i : nat) :
  (i < 2 * N)%nat -> 128 <= f i (partner N i) -> term_f32 f N i = NaN.
Proof.
  intros Hi Hp. unfold term_f32.
  pose proof (partner_lt N i Hi) as Hlt. pose proof (partner_neq N i Hi) as Hne.
  rewrite f32_reduce_sum_inf.
  - rewrite damp_off_diagonal by congruence. now rewrite f32_exp_overflow.
  - apply Forall_forall. intros v Hv. apply in_map_iff in Hv.
    destruct Hv as [k [<- _]]. apply f32_exp_nonneg.
  - apply in_map_iff. exists (partner N i). split; [|apply in_seq; lia].
    rewrite damp_off_diagonal by congruence. now apply f32_exp_overflow.
Qed.

(** Where every positive pair overflows the loss is NaN, for any batch
    size. *)
Lemma nt_xent_of_sim_f32_overflow (N : nat) (sim : mat) :
  square (2 * N) sim -> (1 <= N)%nat ->
  (forall i, (i < 2 * N)%nat -> 128 <= entry sim i (partner N i)) ->
  nt_xent_of_sim_f32 sim N = NaN.
Proof.
  intros Hsq HN Hbig. rewrite nt_xent_of_sim_f32_index by assumption.
  rewrite (map_ext_in (term_f32 (entry sim) N) (fun _ => NaN)).
  - destruct N as [|N]; [lia|]. reflexivity.
  - intros i Hi. apply in_seq in Hi. apply term_f32_overflow; [lia|]. apply Hbig. lia.
Qed.

(** The mean over an empty batch is 0 / 0. *)
Lemma contrastive_loss_f32_empty (t : R) : contrastive_loss_f32 [] [] t = NaN.
Proof.
  unfold contrastive_loss_f32, nt_xent_of_sim_f32, f32_reduce_mean. simpl.
  unfold f32_div. destruct (Req_dec_T 0 0); [reflexivity|congruence].
Qed.

Lemma same_view_similarity (t : R) (i k : nat) :
  (i < 2)%nat -> (k < 2)%nat -> entry (similarity unit_z1 unit_z1 t) i k = 1 / t.
Proof.
  intros Hi Hk. rewrite similarity_entry by (simpl; lia).
  assert (Hc : (i = 0 \/ i = 1)%nat) by lia. assert (Hd : (k = 0 \/ k = 1)%nat) by lia.
  destruct Hc as [-> | ->], Hd as [-> | ->];
    unfold dot_sim, dot, map2, reduce_sum; simpl; f_equal; lra.
Qed.

(** C2, as stated, fails: on two equal unit embeddings at temperature 1/128
    every exponential is exp(128), beyond the largest float32 number, and
    the loss is inf / inf: NaN, not a non-negative value. *)
Lemma contrastive_loss_overflows :
  l2_normalized unit_z1 /\ 0 < 1 / 128 /\
  contrastive_loss_f32 unit_z1 unit_z1 (1 / 128) = NaN /\
  ~ f32_nonneg (contrastive_loss_f32 unit_z1 unit_z1 (1 / 128)).
Proof.
  assert (H : contrastive_loss_f32 unit_z1 unit_z1 (1 / 128) = NaN).
  { unfold contrastive_loss_f32. change (length unit_z1) with 1%nat.
    rewrite nt_xent_of_sim_f32_index by now apply similarity_square.
    cbn [Nat.mul Nat.add seq map].
    rewrite !term_f32_overflow; try (simpl; lia); try reflexivity.
    - unfold partner. simpl. rewrite same_view_similarity by lia. lra.
    - unfold partner. simpl. rewrite same_view_similarity by lia. lra. }
  split; [apply unit_rows|]. split; [lra|]. split; [assumption|].
  rewrite H. simpl. tauto.
Qed.

(** C2, amended: for equal-size, non-empty batches of L2-normalized
    embeddings and a temperature [t > 0] for which [exp(1/t)] and
    [exp(-1/t)] are within the range of float32, the value
    [contrastive_loss] returns is not negative: a number from 0 on, or
    [+inf]. *)
Theorem contrastive_loss_f32_nonneg (z1 z2 : mat) (t : R) :
  length z1 = length z2 -> z1 <> [] ->
  l2_normalized z1 -> l2_normalized z2 -> 0 < t ->
  exp (1 / t) <= max_float -> min_normal <= exp (- (1 / t)) ->
  f32_nonneg (contrastive_loss_f32 z1 z2 t).
Proof.
  intros Hlen Hne H1 H2 Ht Hmax Hmin. unfold contrastive_loss_f32.
  set (N := length z1) in *.
  assert (HN : (1 <= N)%nat) by (unfold N; destruct z1; [congruence|simpl; lia]).
  assert (Hz : length (z1 ++ z2) = (2 * N)%nat) by (rewrite length_app; lia).
  apply nt_xent_of_sim_f32_nonneg; [now apply similarity_square|assumption|].
  intros i Hi. pose proof (partner_lt N i Hi) as Hp.
  destruct (similarity_unit_bounds z1 z2 t i (partner N i) H1 H2 Ht) as [[Hlo Hhi] _];
    try lia.
  split.
  - apply Rle_trans with (exp (- (1 / t))); [assumption|now apply exp_le].
  - apply Rle_trans with (exp (1 / t)); [now apply exp_le|assumption].
Qed.

Lemma contrastive_loss_f32_nonneg_witness :
  f32_nonneg (contrastive_loss_f32 unit_z1 unit_z2 (1 / 2)).
Proof.
  assert (H2 : INR 2 = 2) by (simpl; lra).
  apply contrastive_loss_f32_nonneg.
  - reflexivity.
  - discriminate.
  - apply unit_rows.
  - apply unit_rows.
  - lra.
  - pose proof (exp_upper (1 / (1 / 2)) 2 ltac:(lra)). unfold max_float. lra.
  - pose proof (exp_lower (- (1 / (1 / 2))) 2 ltac:(lra)). unfold min_normal. lra.
Defined.

(** *** One pair of views: the loss is constant *)







(** *** A diagonal that is not masked *)

Lemma unit_dot_sim :
  dot_sim (unit_z1 ++ unit_z2) 0 0 = 1 /\ dot_sim (unit_z1 ++ unit_z2) 0 1 = 0 /\
  dot_sim (unit_z1 ++ unit_z2) 1 0 = 0 /\ dot_sim (unit_z1 ++ unit_z2) 1 1 = 1.
Proof.
  unfold dot_sim, dot, map2, reduce_sum, unit_z1, unit_z2. simpl.
  repeat split; lra.
Qed.

Lemma tiny_temperature_entries (i k : nat) :
  (i < 2)%nat -> (k < 2)%nat ->
  damp (entry (similarity unit_z1 unit_z2 1e-9)) i k = 0.
Proof.
  intros Hi Hk. destruct unit_dot_sim as (H00 & H01 & H10 & H11).
  unfold damp. rewrite similarity_entry by (simpl; lia).
  assert (Hc : (i = 0 \/ i = 1)%nat) by lia. assert (Hd : (k = 0 \/ k = 1)%nat) by lia.
  destruct Hc as [-> | ->], Hd as [-> | ->]; cbn [Nat.eqb];
    rewrite ?H00, ?H01, ?H10, ?H11; lra.
Qed.

Lemma f32_exp_0 : f32_exp 0 = Num 1.
Proof.
  unfold f32_exp. rewrite exp_0. apply of_real_pos_id.
  unfold min_normal, max_float. lra.
Qed.

Lemma ln_2_bounds : / 2 < ln 2 <= 1.
Proof.
  split; [apply ln_lt_2|].
  pose proof (ln_le_minus_1 2 ltac:(lra)). lra.
Qed.

Lemma term_f32_unmasked (f : nat -> nat -> R) (i : nat) :
  (i < 2)%nat -> (forall k, (k < 2)%nat -> damp f i k = 0) ->
  term_f32 f 1 i = Num (ln 2).
Proof.
  intros Hi Hd. unfold term_f32. cbn [Nat.mul Nat.add seq map].
  rewrite !Hd by (try lia; apply (partner_lt 1 i); simpl; lia).
  rewrite f32_exp_0. cbn [f32_reduce_sum fold_right f32_add].
  rewrite Rplus_0_r.
  rewrite (of_real_pos_id 1) by (unfold min_normal, max_float; lra).
  rewrite (of_real_pos_id (1 + 1)) by (unfold min_normal, max_float; lra).
  unfold f32_div. destruct (Req_dec_T (1 + 1) 0); [lra|].
  rewrite of_real_pos_id by (unfold min_normal, max_float; lra).
  unfold f32_log.
  destruct (Rlt_dec (1 / (1 + 1)) 0); [lra|].
  destruct (Req_dec_T (1 / (1 + 1)) 0); [lra|].
  replace (1 / (1 + 1)) with (/ 2) by lra.
  rewrite ln_Rinv by lra. pose proof ln_2_bounds.
  rewrite of_real_id.
  - simpl. f_equal. lra.
  - rewrite Rabs_Ropp, Rabs_pos_eq by lra. unfold min_normal, max_float. lra.
Qed.

Lemma tiny_temperature_f32 : contrastive_loss_f32 unit_z1 unit_z2 1e-9 = Num (ln 2).
Proof.
  unfold contrastive_loss_f32. change (length unit_z1) with 1%nat.
  rewrite nt_xent_of_sim_f32_index by now apply similarity_square.
  cbn [Nat.mul Nat.add seq map].
  rewrite !term_f32_unmasked
    by (try lia; intros k Hk; apply tiny_temperature_entries; lia).
  pose proof ln_2_bounds.
  cbn [f32_reduce_sum fold_right f32_add]. rewrite Rplus_0_r.
  rewrite (of_real_pos_id (ln 2)) by (unfold min_normal, max_float; lra).
  rewrite (of_real_pos_id (ln 2 + ln 2)) by (unfold min_normal, max_float; lra).
  unfold f32_div. destruct (Req_dec_T (INR 2) 0) as [H0|_]; [simpl in H0; lra|].
  replace ((ln 2 + ln 2) / INR 2) with (ln 2) by (simpl; lra).
  apply of_real_pos_id. unfold min_normal, max_float. lra.
Qed.

Lemma tiny_temperature_damped : nt_xent_damped unit_z1 unit_z2 1e-9 = Some (ln 2).
Proof.
  destruct unit_dot_sim as (H00 & H01 & H10 & H11).
  unfold nt_xent_damped, others.
  change (length unit_z1) with 1%nat.
  cbn [Nat.mul Nat.add seq filter Nat.eqb negb map partner Nat.ltb Nat.leb Nat.sub].
  rewrite H00, H01, H10, H11.
  unfold reduce_mean, reduce_sum. cbn [fold_right length].
  replace (0 / 1e-9) with 0 by lra. replace (1 / 1e-9 - 1e9) with 0 by lra.
  rewrite exp_0. f_equal.
  replace (1 / (1 + 0 + 1)) with (/ 2) by lra.
  rewrite ln_Rinv by lra. simpl. lra.
Qed.

Lemma tiny_temperature_published : nt_xent_published unit_z1 unit_z2 1e-9 = Some 0.
Proof.
  destruct unit_dot_sim as (H00 & H01 & H10 & H11).
  unfold nt_xent_published, others.
  change (length unit_z1) with 1%nat.
  cbn [Nat.mul Nat.add seq filter Nat.eqb negb map partner Nat.ltb Nat.leb Nat.sub].
  rewrite H01, H10.
  unfold reduce_mean, reduce_sum. cbn [fold_right length].
  replace (0 / 1e-9) with 0 by lra.
  rewrite exp_0. f_equal.
  replace (1 / (1 + 0)) with 1 by lra.
  rewrite ln_1. simpl. lra.
Qed.

(** C1: on two orthogonal unit embeddings at temperature 1e-9 the
    self-similarity is 1e9, lowering it by 1e9 leaves 0, and the sample
    itself counts in its denominator: [contrastive_loss] returns ln 2, in
    exact arithmetic as within the range of float32, where the published
    NT-Xent definition gives 0. *)
Theorem contrastive_loss_diagonal_not_masked :
  l2_normalized unit_z1 /\ l2_normalized unit_z2 /\
  contrastive_loss unit_z1 unit_z2 1e-9 = Some (ln 2) /\
  contrastive_loss_f32 unit_z1 unit_z2 1e-9 = Num (ln 2) /\
  nt_xent_published unit_z1 unit_z2 1e-9 = Some 0 /\
  ln 2 <> 0.
Proof.
  split; [apply unit_rows|]. split; [apply unit_rows|]. split; [|split; [|split]].
  - rewrite contrastive_loss_damped_eq by reflexivity. apply tiny_temperature_damped.
  - apply tiny_temperature_f32.
  - apply tiny_temperature_published.
  - pose proof ln_2_bounds. lra.
Qed.

(** *** Unit embeddings within the range *)

Lemma nt_xent_published_value (z1 z2 : mat) (t : R) :
  length z1 = length z2 -> z1 <> [] ->
  nt_xent_published z1 z2 t = Some (nt_xent_value (similarity z1 z2 t) (length z1)).
Proof.
  intros Hlen Hne. unfold nt_xent_published, nt_xent_value.
  set (N := length z1) in *.
  assert (HN : (1 <= N)%nat) by (unfold N; destruct z1; [congruence|simpl; lia]).
  assert (Hz : length (z1 ++ z2) = (2 * N)%nat) by (rewrite length_app; lia).
  rewrite reduce_mean_cons.
  2:{ intros H. apply map_eq_nil in H. now apply seq_double_nonempty in H. }
  rewrite length_map, length_seq.
  rewrite (map_ext_in _ (nt_xent_term (entry (similarity z1 z2 t)) N)); [reflexivity|].
  intros i Hi. apply in_seq in Hi.
  pose proof (partner_lt N i ltac:(lia)) as Hp.
  unfold nt_xent_term. rewrite similarity_entry by lia.
  rewrite (map_ext_in (fun k => exp (entry (similarity z1 z2 t) i k))
                      (fun k => exp (dot_sim (z1 ++ z2) i k / t))); [reflexivity|].
  intros k Hk. apply in_others in Hk. rewrite similarity_entry by lia. reflexivity.
Qed.

Lemma unit_rows_in_range (z1 z2 : mat) (t : R) :
  length z1 = length z2 -> l2_normalized z1 -> l2_normalized z2 ->
  0 < t -> 1 / t <= 30 -> INR (2 * length z1) <= 2 ^ 20 ->
  in_range (similarity z1 z2 t) (length z1).
Proof.
  intros Hlen H1 H2 Ht Hc HN. split; [assumption|].
  intros i k Hi Hk.
  assert (Hz : length (z1 ++ z2) = (2 * length z1)%nat) by (rewrite length_app; lia).
  destruct (similarity_unit_bounds z1 z2 t i k H1 H2 Ht) as [[Hlo Hhi] _]; try lia.
  lra.
Qed.

Lemma contrastive_loss_f32_exact (z1 z2 : mat) (t : R) :
  length z1 = length z2 -> z1 <> [] -> l2_normalized z1 -> l2_normalized z2 ->
  0 < t -> 1 / t <= 30 -> INR (2 * length z1) <= 2 ^ 20 ->
  contrastive_loss_f32 z1 z2 t = Num (nt_xent_value (similarity z1 z2 t) (length z1)).
Proof.
  intros Hlen Hne H1 H2 Ht Hc HN. unfold contrastive_loss_f32.
  apply nt_xent_of_sim_f32_exact.
  - now apply similarity_square.
  - destruct z1; [congruence|simpl; lia].
  - now apply unit_rows_in_range.
Qed.

Lemma nt_xent_value_range (N : nat) (sim : mat) (c : R) :
  (1 <= N)%nat ->
  (forall i k, (i < 2 * N)%nat -> (k < 2 * N)%nat -> - c <= entry sim i k <= c) ->
  ln (1 + INR (2 * N - 2) * exp (- (2 * c))) <= nt_xent_value sim N
  <= ln (INR (2 * N)) + 2 * c.
Proof.
  intros HN Hc. unfold nt_xent_value.
  assert (Hn : 0 < INR (2 * N)) by (apply lt_0_INR; lia).
  assert (Hterm : forall i, In i (seq 0 (2 * N)) ->
            ln (1 + INR (2 * N - 2) * exp (- (2 * c))) <= nt_xent_term (entry sim) N i
            <= ln (INR (2 * N)) + 2 * c).
  { intros i Hi. apply in_seq in Hi. apply nt_xent_term_range; [lia|].
    intros k Hk. apply Hc; lia. }
  pose proof (reduce_sum_map_le_const (nt_xent_term (entry sim) N) (seq 0 (2 * N))
                (ln (INR (2 * N)) + 2 * c) (fun i Hi => proj2 (Hterm i Hi))) as Hu.
  pose proof (reduce_sum_map_ge_const (nt_xent_term (entry sim) N) (seq 0 (2 * N))
                (ln (1 + INR (2 * N - 2) * exp (- (2 * c))))
                (fun i Hi => proj1 (Hterm i Hi))) as Hl.
  rewrite length_seq in Hu, Hl.
  split.
  - apply (Rmult_le_reg_r (INR (2 * N))); [assumption|].
    unfold Rdiv. rewrite Rmult_assoc, Rinv_l by lra. lra.
  - apply (Rmult_le_reg_r (INR (2 * N))); [assumption|].
    unfold Rdiv. rewrite Rmult_assoc, Rinv_l by lra. lra.
Qed.

(** X3: on equal-size, non-empty batches of at most 2^20 unit embeddings and
    at a temperature from 1/30 on, the loss is a number between
    [ln(1 + (2N-2) exp(-2/t))] and [ln(2N) + 2/t]. *)
Theorem contrastive_loss_range (z1 z2 : mat) (t : R) :
  length z1 = length z2 -> z1 <> [] -> l2_normalized z1 -> l2_normalized z2 ->
  0 < t -> 1 / t <= 30 -> INR (2 * length z1) <= 2 ^ 20 ->
  exists l, contrastive_loss_f32 z1 z2 t = Num l /\
            ln (1 + INR (2 * length z1 - 2) * exp (- (2 * (1 / t)))) <= l
            <= ln (INR (2 * length z1)) + 2 * (1 / t).
Proof.
  intros Hlen Hne H1 H2 Ht Hc HN.
  rewrite contrastive_loss_f32_exact by assumption.
  eexists. split; [reflexivity|].
  assert (Hz : length (z1 ++ z2) = (2 * length z1)%nat) by (rewrite length_app; lia).
  apply nt_xent_value_range.
  - destruct z1; [congruence|simpl; lia].
  - intros i k Hi Hk.
    apply (similarity_unit_bounds z1 z2 t i k); auto; lia.
Qed.

Lemma contrastive_loss_range_witness :
  exists l, contrastive_loss_f32 unit_z1 unit_z2 (1 / 2) = Num l /\
            ln (1 + INR (2 * length unit_z1 - 2) * exp (- (2 * (1 / (1 / 2))))) <= l
            <= ln (INR (2 * length unit_z1)) + 2 * (1 / (1 / 2)).
Proof.
  apply contrastive_loss_range.
  - reflexivity.
  - discriminate.
  - apply unit_rows.
  - apply unit_rows.
  - lra.
  - lra.
  - simpl. lra.
Defined.

(** X21: on equal-size, non-empty batches of at most 2^20 unit embeddings
    and at a temperature from 1/30 on, [contrastive_loss] returns the value
    of the published NT-Xent definition: the masked diagonal underflows to 0
    and no other step leaves the range of float32. *)
Theorem contrastive_loss_is_nt_xent_in_range (z1 z2 : mat) (t : R) :
  length z1 = length z2 -> z1 <> [] -> l2_normalized z1 -> l2_normalized z2 ->
  0 < t -> 1 / t <= 30 -> INR (2 * length z1) <= 2 ^ 20 ->
  exists l, contrastive_loss_f32 z1 z2 t = Num l /\ nt_xent_published z1 z2 t = Some l.
Proof.
  intros Hlen Hne H1 H2 Ht Hc HN.
  rewrite contrastive_loss_f32_exact, nt_xent_published_value by assumption.
  eexists. split; reflexivity.
Qed.

Lemma contrastive_loss_is_nt_xent_in_range_witness :
  exists l, contrastive_loss_f32 unit_z1 unit_z2 (1 / 2) = Num l /\
            nt_xent_published unit_z1 unit_z2 (1 / 2) = Some l.
Proof.
  apply contrastive_loss_is_nt_xent_in_range.
  - reflexivity.
  - discriminate.
  - apply unit_rows.
  - apply unit_rows.
  - lra.
  - lra.
  - simpl. lra.
Defined.

End LossInRange.

(** ** Shapes and signs in the encoder *)

Module EncoderShape.
Import Tensor Encoder Notions ListFacts EncoderFacts.

Lemma length_map2 {A B C : Type} (f : A -> B -> C) (l1 : list A) (l2 : list B) :
  length (map2 f l1 l2) = Nat.min (length l1) (length l2).
Proof. unfold map2. now rewrite length_map, length_combine. Qed.

Lemma dense_length (act : R -> R) (l : dense_layer) (x : vec) :
  length (dense act l x) = Nat.min (length (kernel l)) (length (bias l)).
Proof. unfold dense. now rewrite length_map, length_map2, length_map. Qed.

Lemma l2_normalize_length (v : vec) : length (l2_normalize v) = length v.
Proof. unfold l2_normalize. apply length_map. Qed.

Lemma create_encoder_lengths (w : encoder_weights) (inputs : list tensor3) :
  length (create_encoder w inputs) = length inputs /\
  Forall (fun row => length row
                     = Nat.min (length (kernel (head2 w))) (length (bias (head2 w))))
         (create_encoder w inputs).
Proof.
  unfold create_encoder, l2_normalize_rows. split.
  - now rewrite !length_map.
  - rewrite map_map. apply Forall_forall. intros row Hrow.
    apply in_map_iff in Hrow. destruct Hrow as [img [<- _]].
    rewrite l2_normalize_length. unfold projection. apply dense_length.
Qed.

(** X5: the encoder returns one row per input, each with one entry per unit of
    the last dense layer (as many as it has kernel rows and biases). *)
Theorem create_encoder_shape (w : encoder_weights) (inputs : list tensor3) :
  length (create_encoder w inputs) = length inputs /\
  Forall (fun row => length row
                     = Nat.min (length (kernel (head2 w))) (length (bias (head2 w))))
         (create_encoder w inputs).
Proof. apply create_encoder_lengths. Qed.

Lemma l2_normalize_norm_le (v : vec) : norm (l2_normalize v) <= 1.
Proof.
  unfold norm, l2_normalize. rewrite square_sum_scale.
  pose proof (square_sum_nonneg v) as Hs. pose proof l2_normalize_eps_pos as He.
  set (S := square_sum v) in *. set (m := Rmax S l2_normalize_eps).
  assert (Hm : 0 < m) by (pose proof (Rmax_r S l2_normalize_eps); fold m in H; lra).
  assert (HSm : S <= m) by apply Rmax_l.
  assert (Hr : 0 < sqrt m) by now apply sqrt_lt_R0.
  assert (Hrr : sqrt m * sqrt m = m) by (apply sqrt_sqrt; lra).
  replace (/ sqrt m * / sqrt m * S) with (S / m).
  - rewrite <- sqrt_1. apply sqrt_le_1_alt.
    apply (Rmult_le_reg_r m); [assumption|].
    unfold Rdiv. rewrite Rmult_assoc, Rinv_l by lra. lra.
  - rewrite <- Hrr at 1. field. lra.
Qed.

(** X6: whatever the input and the weights, no row of the encoder's output is
    longer than 1 in Euclidean norm. *)
Theorem create_encoder_norm_le (w : encoder_weights) (inputs : list tensor3) :
  Forall (fun row => norm row <= 1) (create_encoder w inputs).
Proof.
  unfold create_encoder, l2_normalize_rows. rewrite map_map.
  apply Forall_forall. intros row Hrow. apply in_map_iff in Hrow.
  destruct Hrow as [img [<- _]]. apply l2_normalize_norm_le.
Qed.

(** *** ReLU keeps the features non-negative *)

Lemma relu_nonneg (x : R) : 0 <= relu x.
Proof. unfold relu. apply Rmax_r. Qed.

Lemma conv2d_relu_nonneg (filters : list conv_filter) (x : tensor3) :
  Forall (Forall nonneg) (conv2d_relu filters x).
Proof.
  unfold conv2d_relu.
  apply Forall_forall. intros row Hrow. apply in_map_iff in Hrow.
  destruct Hrow as [i [<- _]].
  apply Forall_forall. intros px Hpx. apply in_map_iff in Hpx.
  destruct Hpx as [j [<- _]].
  apply Forall_forall. intros v Hv. apply in_map_iff in Hv.
  destruct Hv as [f [<- _]]. apply relu_nonneg.
Qed.

Lemma nth_nonneg (v : vec) (c : nat) : nonneg v -> 0 <= nth c v 0.
Proof.
  intros Hv. destruct (Nat.lt_ge_cases c (length v)) as [Hlt|Hge].
  - unfold nonneg in Hv. rewrite Forall_forall in Hv. apply Hv. now apply nth_In.
  - rewrite nth_overflow by assumption. lra.
Qed.

Lemma Rinv_INR_nonneg (n : nat) : 0 <= / INR n.
Proof.
  destruct n as [|n].
  - simpl. rewrite Rinv_0. lra.
  - left. apply Rinv_0_lt_compat, lt_0_INR. lia.
Qed.

Lemma global_average_pooling_nonneg (x : tensor3) :
  Forall (Forall nonneg) x -> nonneg (global_average_pooling x).
Proof.
  intros Hx. unfold global_average_pooling, nonneg.
  apply Forall_forall. intros v Hv. apply in_map_iff in Hv.
  destruct Hv as [c [<- _]].
  apply Rmult_le_pos; [|apply Rinv_INR_nonneg].
  apply reduce_sum_nonneg, Forall_forall. intros y Hy.
  apply in_map_iff in Hy. destruct Hy as [row [<- Hrow]].
  apply reduce_sum_nonneg, Forall_forall. intros y Hy.
  apply in_map_iff in Hy. destruct Hy as [px [<- Hpx]].
  apply nth_nonneg. rewrite Forall_forall in Hx. specialize (Hx row Hrow).
  rewrite Forall_forall in Hx. now apply Hx.
Qed.

Lemma dense_relu_nonneg (l : dense_layer) (x : vec) : nonneg (dense relu l x).
Proof.
  unfold dense, nonneg. apply Forall_forall. intros v Hv.
  apply in_map_iff in Hv. destruct Hv as [y [<- _]]. apply relu_nonneg.
Qed.

(** X7: for every image and all weights, the pooled features and the hidden
    layer of the projection head are non-negative. *)
Theorem features_nonneg (w : encoder_weights) (img : tensor3) :
  nonneg (base_model w img) /\ nonneg (dense relu (head1 w) (base_model w img)).
Proof.
  split.
  - unfold base_model. apply global_average_pooling_nonneg, conv2d_relu_nonneg.
  - apply dense_relu_nonneg.
Qed.

(** *** Spatial sizes *)

Lemma hd_map_seq {A : Type} (g : nat -> A) (n : nat) (d : A) :
  (0 < n)%nat -> hd d (map g (seq 0 n)) = g 0%nat.
Proof. destruct n; [lia|reflexivity]. Qed.

Lemma conv2d_relu_shape (filters : list conv_filter) (x : tensor3) :
  let y := conv2d_relu filters x in
  length y = out_size (length x) /\
  ((0 < out_size (length x))%nat ->
   length (hd [] y) = out_size (length (hd [] x)) /\
   ((0 < out_size (length (hd [] x)))%nat ->
    length (hd [] (hd [] y)) = length filters)).
Proof.
  unfold conv2d_relu. cbv zeta. split.
  - now rewrite length_map, length_seq.
  - intros Hh. rewrite hd_map_seq by assumption. split.
    + now rewrite length_map, length_seq.
    + intros Hw. rewrite hd_map_seq by assumption. apply length_map.
Qed.

(** X8: on a 28 x 28 image the two convolutions leave 13 x 13 and then 6 x 6
    positions, and the pooled features are one per filter of the second
    convolution. *)
Theorem base_model_shape (w : encoder_weights) (img : tensor3) :
  length img = 28%nat -> length (hd [] img) = 28%nat ->
  let c1 := conv2d_relu (conv1 w) img in
  let c2 := conv2d_relu (conv2 w) c1 in
  (length c1 = 13%nat /\ length (hd [] c1) = 13%nat) /\
  (length c2 = 6%nat /\ length (hd [] c2) = 6%nat) /\
  length (base_model w img) = length (conv2 w).
Proof.
  intros Hh Hw. cbv zeta.
  pose proof (conv2d_relu_shape (conv1 w) img) as (H1 & H1').
  rewrite Hh, Hw in *. change (out_size 28) with 13%nat in *.
  destruct (H1' ltac:(lia)) as (H1w & _).
  pose proof (conv2d_relu_shape (conv2 w) (conv2d_relu (conv1 w) img)) as (H2 & H2').
  rewrite H1, H1w in *. change (out_size 13) with 6%nat in *.
  destruct (H2' ltac:(lia)) as (H2w & H2c). specialize (H2c ltac:(lia)).
  repeat split; try assumption.
  unfold base_model, global_average_pooling. rewrite length_map, length_seq. exact H2c.
Qed.

Lemma black_image_size : length black_image = 28%nat /\ length (hd [] black_image) = 28%nat.
Proof. split; reflexivity. Qed.

Lemma base_model_shape_witness :
  let c1 := conv2d_relu (conv1 fresh_weights) black_image in
  let c2 := conv2d_relu (conv2 fresh_weights) c1 in
  (length c1 = 13%nat /\ length (hd [] c1) = 13%nat) /\
  (length c2 = 6%nat /\ length (hd [] c2) = 6%nat) /\
  length (base_model fresh_weights black_image) = length (conv2 fresh_weights).
Proof. apply base_model_shape; apply black_image_size. Defined.

End EncoderShape.

(** ** The dataset of the SimCLR notebook *)

Module DatasetFacts.
Import Tensor Encoder SimCLR Effects Pipeline Notions TrainingNotions ListFacts
       LossFacts EffectFacts PipelineFacts EncoderShape.

Lemma concat_batch_from {A : Type} (n : nat) (cur l : list A) :
  concat (batch_from n cur l) = rev cur ++ l.
Proof.
  revert cur. induction l as [|x l IH]; intros cur.
  - destruct cur as [|c cur]; [reflexivity|].
    cbn [batch_from concat]. now rewrite !app_nil_r.
  - rewrite batch_from_cons. destruct (Nat.eqb (length (x :: cur)) n).
    + cbn [concat]. rewrite IH. cbn [rev app]. now rewrite <- app_assoc.
    + rewrite IH. cbn [rev]. now rewrite <- app_assoc.
Qed.

Lemma batch_from_sizes {A : Type} (n : nat) (cur l : list A) :
  (length cur < n)%nat ->
  Forall (fun b => (0 < length b <= n)%nat) (batch_from n cur l).
Proof.
  revert cur. induction l as [|x l IH]; intros cur Hcur.
  - destruct cur as [|c cur]; [constructor|].
    cbn [batch_from]. constructor; [|constructor].
    rewrite length_rev. simpl in *. lia.
  - rewrite batch_from_cons. destruct (Nat.eqb_spec (length (x :: cur)) n) as [He|Hne].
    + constructor.
      * rewrite length_rev. lia.
      * apply IH. simpl. lia.
    + apply IH. simpl in *. lia.
Qed.

Lemma batch_from_full {A : Type} (n : nat) (cur l : list A) :
  (length cur < n)%nat ->
  Forall (fun b => length b = n) (removelast (batch_from n cur l)).
Proof.
  revert cur. induction l as [|x l IH]; intros cur Hcur.
  - destruct cur as [|c cur]; constructor.
  - rewrite batch_from_cons. destruct (Nat.eqb_spec (length (x :: cur)) n) as [He|Hne].
    + specialize (IH [] ltac:(simpl; lia)).
      cbn [removelast]. destruct (batch_from n [] l) as [|b bs]; [constructor|].
      constructor; [now rewrite length_rev|exact IH].
    + apply IH. simpl in *. lia.
Qed.

Lemma removelast_map {A C : Type} (f : A -> C) (l : list A) :
  removelast (map f l) = map f (removelast l).
Proof.
  induction l as [|a l IH]; [reflexivity|].
  cbn [map removelast]. destruct l as [|b l]; [reflexivity|].
  cbn [map] in *. now rewrite IH.
Qed.

Lemma combine_fst_snd {A C : Type} (l : list (A * C)) :
  combine (map fst l) (map snd l) = l.
Proof. induction l as [|[a c] l IH]; simpl; congruence. Qed.

Section Dataset.
Context {B : Backend} {L : SimCLRLib}.

Lemma dataset_map_forall2 {A C : Type} (f : A -> rng -> C * rng) (l : list A) (g : rng) :
  Forall2 (fun x y => exists g', y = fst (f x g')) l (fst (dataset_map f l g)).
Proof.
  revert g. induction l as [|x l IH]; intros g; simpl; [constructor|].
  destruct (f x g) as [y g1] eqn:Hf.
  specialize (IH g1). destruct (dataset_map f l g1) as [ys g2]. simpl in *.
  constructor; [|exact IH]. exists g. now rewrite Hf.
Qed.

Lemma train_ds_unfold (g : rng) :
  exists shuffled views,
    Permutation shuffled x_train /\
    Forall2 (fun x p => exists g', p = fst (call x g')) shuffled views /\
    fst (train_ds g) = map (fun b => (map fst b, map snd b)) (batch batch_size views).
Proof.
  unfold train_ds.
  pose proof (shuffle_perm 1024 x_train g) as Hperm.
  destruct (shuffle 1024 x_train g) as [shuffled g1]. simpl in Hperm.
  pose proof (dataset_map_forall2 call shuffled g1) as Hviews.
  destruct (dataset_map call shuffled g1) as [views g2]. simpl in *.
  now exists shuffled, views.
Qed.

Lemma train_ds_sizes (g : rng) :
  Forall (fun b => length (fst b) = length (snd b) /\
                   (0 < length (fst b) <= batch_size)%nat)
         (fst (train_ds g)).
Proof.
  destruct (train_ds_unfold g) as (shuffled & views & _ & _ & ->).
  apply Forall_forall. intros b Hb. apply in_map_iff in Hb.
  destruct Hb as [pairs [<- Hin]]. simpl. rewrite !length_map. split; [reflexivity|].
  pose proof (batch_from_sizes batch_size [] views) as Hs.
  specialize (Hs ltac:(unfold batch_size; simpl; lia)).
  rewrite Forall_forall in Hs. now apply Hs.
Qed.

(** X9: the two halves of a batch have one size, between 1 and [batch_size]. *)
Theorem train_ds_batch_sizes (g : rng) :
  Forall (fun b => length (fst b) = length (snd b) /\
                   (0 < length (fst b) <= batch_size)%nat)
         (fst (train_ds g)).
Proof. apply train_ds_sizes. Qed.

(** X10: every batch but the last holds [batch_size] pairs of views. *)
Theorem train_ds_full_batches (g : rng) :
  Forall (fun b => length (fst b) = batch_size /\ length (snd b) = batch_size)
         (removelast (fst (train_ds g))).
Proof.
  destruct (train_ds_unfold g) as (shuffled & views & _ & _ & ->).
  rewrite removelast_map. apply Forall_forall. intros b Hb. apply in_map_iff in Hb.
  destruct Hb as [pairs [<- Hin]]. simpl. rewrite !length_map.
  pose proof (batch_from_full batch_size [] views) as Hs.
  specialize (Hs ltac:(unfold batch_size; simpl; lia)).
  rewrite Forall_forall in Hs. split; now apply Hs.
Qed.

(** X11: one pass over [train_ds] holds, batch after batch, exactly one pair of
    views for every image of a rearrangement of the training set. *)
Theorem train_ds_covers_training_set (g : rng) :
  let batches := fst (train_ds g) in
  exists sources,
    Permutation sources x_train /\
    Forall2 (fun x p => exists g', p = fst (call x g'))
            sources
            (combine (concat (map fst batches)) (concat (map snd batches))).
Proof.
  cbv zeta. destruct (train_ds_unfold g) as (shuffled & views & Hperm & Hviews & ->).
  exists shuffled. split; [assumption|].
  rewrite !map_map. cbn [fst snd].
  rewrite <- !concat_map. unfold batch. rewrite concat_batch_from. cbn [rev app].
  now rewrite combine_fst_snd.
Qed.

(** *** The losses the loop records *)

Lemma contrastive_loss_good (z1 z2 : mat) (t : R) :
  length z1 = length z2 -> (0 < length z1)%nat -> good_loss (contrastive_loss z1 z2 t).
Proof.
  intros Hlen Hpos. unfold contrastive_loss, good_loss.
  apply nt_xent_of_sim_nonneg; [now apply similarity_square|lia].
Qed.

Lemma keeps_model_call_value (w : encoder_weights) (x : list image) :
  Forall is_view x -> keeps (model_call w x) (fun z => z = create_encoder w x).
Proof.
  intros Hx wd Hwd. unfold model_call, lib. destruct (fault (calls wd)); simpl.
  - now split.
  - split; [|reflexivity]. unfold views_only. simpl. apply Forall_app. split; [assumption|].
    now constructor.
Qed.

Lemma keeps_for_each_inv {A S : Type} (I : S -> Prop) (l : list A)
    (body : S -> A -> M S) (st : S) :
  (forall s x, In x l -> I s -> keeps (body s x) I) -> I st ->
  keeps (for_each l body st) I.
Proof.
  revert st. induction l as [|x l IH]; intros st Hbody Hst; simpl.
  - now apply keeps_ret.
  - apply keeps_bind with (Q := I).
    + apply Hbody; [now left|assumption].
    + intros s Hs. apply IH; [|assumption].
      intros s' y Hy. apply Hbody. now right.
Qed.

Lemma keeps_train_step_losses (st : train_state) (x1 x2 : list image) :
  Forall is_view x1 -> Forall is_view x2 ->
  length x1 = length x2 -> (0 < length x1)%nat ->
  good_losses st -> keeps (train_step st (x1, x2)) good_losses.
Proof.
  intros H1 H2 Hlen Hpos Hst. unfold train_step.
  apply keeps_bind with (Q := fun z => z = create_encoder (weights st) x1);
    [now apply keeps_model_call_value|intros z1 ->].
  apply keeps_bind with (Q := fun z => z = create_encoder (weights st) x2);
    [now apply keeps_model_call_value|intros z2 ->].
  apply keeps_bind
    with (Q := fun loss => good_loss loss).
  - apply keeps_lib_pure. apply contrastive_loss_good.
    + pose proof (create_encoder_lengths (weights st) x1) as [E1 _].
      pose proof (create_encoder_lengths (weights st) x2) as [E2 _].
      rewrite E1, E2. exact Hlen.
    + pose proof (create_encoder_lengths (weights st) x1) as [E1 _].
      rewrite E1. exact Hpos.
  - intros loss Hloss.
    apply keeps_bind with (Q := fun _ => True); [now apply keeps_lib_pure|intros grads _].
    apply keeps_bind with (Q := fun _ => True); [now apply keeps_lib_pure|intros upd _].
    apply keeps_bind with (Q := fun _ => True); [apply keeps_lib_call|intros _ _].
    apply keeps_ret. unfold good_losses. simpl. apply Forall_app. split; [assumption|].
    now constructor.
Qed.

Lemma keeps_train_epoch_losses (st : train_state) (epoch : nat) :
  keeps (train_epoch st epoch) good_losses.
Proof.
  unfold train_epoch.
  apply keeps_bind
    with (Q := fun batches =>
                 forall x1 x2, In (x1, x2) batches ->
                   (Forall is_view x1 /\ Forall is_view x2) /\
                   length x1 = length x2 /\ (0 < length x1)%nat).
  - apply keeps_lib_rng. intros g x1 x2 Hin. split.
    + now apply (train_ds_views g).
    + pose proof (train_ds_sizes g) as Hs. rewrite Forall_forall in Hs.
      specialize (Hs (x1, x2) Hin). simpl in Hs. lia.
  - intros batches Hb.
    apply keeps_bind with (Q := good_losses).
    + apply keeps_for_each_inv.
      * intros s [x1 x2] Hin Hs. destruct (Hb x1 x2 Hin) as ((V1 & V2) & Hlen & Hpos).
        now apply keeps_train_step_losses.
      * constructor.
    + intros st' Hst'.
      apply keeps_bind with (Q := fun _ => True); [apply keeps_lib_call|intros _ _].
      apply keeps_bind with (Q := fun _ => True); [apply keeps_lib_call|intros _ _].
      now apply keeps_ret.
Qed.

Lemma keeps_training_cell_losses : keeps training_cell good_losses.
Proof.
  unfold training_cell.
  apply keeps_bind with (Q := fun _ => True); [apply keeps_lib_call|intros _ _].
  apply keeps_bind with (Q := fun _ => True); [now apply keeps_lib_rng|intros w0 _].
  apply keeps_bind with (Q := fun _ => True); [now apply keeps_lib_pure|intros opt _].
  apply keeps_for_each_inv.
  - intros s epoch _ _. apply keeps_train_epoch_losses.
  - constructor.
Qed.

(** X12: when the training cell ends normally, every loss its last epoch recorded
    is a number, not the NaN of an empty or lopsided batch, and is not
    negative. *)
Theorem training_losses_good (g : rng) :
  match training_cell (init_world g) with
  | Ok st _ => Forall good_loss (losses st)
  | Raise _ _ => True
  end.
Proof.
  pose proof (keeps_training_cell_losses (init_world g)) as H.
  destruct H as [_ H]; [constructor|].
  destruct (training_cell (init_world g)); [exact H|exact I].
Qed.

End Dataset.

End DatasetFacts.

(** ** Jet images: rescaling, reconstruction error and the plot grid *)

Module JetExtras.
Import Tensor Jets JetsNotebook Notions ListFacts EncoderFacts JetFacts LossRange.

Lemma reduce_sum_scale_l (c : R) (v : vec) :
  reduce_sum (map (fun x => c * x) v) = c * reduce_sum v.
Proof.
  induction v as [|x v IH]; simpl.
  - change (reduce_sum []) with 0. lra.
  - rewrite !reduce_sum_cons, IH. lra.
Qed.

Lemma pixel_sum_scale (c : R) (img : image) :
  pixel_sum (scale_image c img) = c * pixel_sum img.
Proof. unfold pixel_sum, scale_image. now rewrite pixels_map, reduce_sum_scale_l. Qed.

(** X13: rescaling forgets the overall scale of an image: an image and its
    multiple by [c <> 0] rescale to the same image. *)
Theorem rescale_image_scale_invariant (c : R) (img : image) :
  c <> 0 -> pixel_sum img <> 0 ->
  rescale_image (scale_image c img) = rescale_image img.
Proof.
  intros Hc Hs. unfold rescale_image. rewrite pixel_sum_scale.
  unfold scale_image. rewrite map_map. apply map_ext. intros row.
  rewrite map_map. apply map_ext. intros x. field. split; assumption.
Qed.

Lemma two_pixel_sum : pixel_sum two_pixel_image = 4.
Proof. unfold pixel_sum, pixels, two_pixel_image, reduce_sum. simpl. lra. Qed.

Lemma rescale_image_scale_invariant_witness :
  rescale_image (scale_image 5 two_pixel_image) = rescale_image two_pixel_image.
Proof.
  apply rescale_image_scale_invariant; [lra|rewrite two_pixel_sum; lra].
Defined.

(** X14: rescaling a rescaled image changes nothing. *)
Theorem rescale_image_idempotent (img : image) :
  pixel_sum img <> 0 ->
  rescale_image (rescale_image img) = rescale_image img.
Proof.
  intros Hs. unfold rescale_image at 1. rewrite rescale_image_sum by assumption.
  rewrite <- (map_id (rescale_image img)) at 2. apply map_ext. intros row.
  rewrite <- (map_id row) at 2. apply map_ext. intros x. field.
Qed.

Lemma rescale_image_idempotent_witness :
  rescale_image (rescale_image two_pixel_image) = rescale_image two_pixel_image.
Proof. apply rescale_image_idempotent. rewrite two_pixel_sum. lra. Defined.

Lemma reduce_sum_ge_elem (v : vec) (x : R) :
  nonneg v -> In x v -> x <= reduce_sum v.
Proof.
  induction 1 as [|a v Ha Hv IH]; intros Hx; [destruct Hx|].
  rewrite reduce_sum_cons. pose proof (reduce_sum_nonneg v Hv) as Hs.
  destruct Hx as [->|Hx]; [lra|]. specialize (IH Hx). lra.
Qed.

Lemma rescale_image_shape (h w : nat) (img : image) :
  has_shape h w img -> has_shape h w (rescale_image img).
Proof.
  intros [Hl Hr]. unfold rescale_image. split.
  - now rewrite length_map.
  - apply Forall_forall. intros row Hrow. apply in_map_iff in Hrow.
    destruct Hrow as [r [<- Hin]]. rewrite length_map.
    rewrite Forall_forall in Hr. now apply Hr.
Qed.

Lemma rescale_image_in_range (h w : nat) (img : image) :
  has_shape h w img -> nonneg_pixels img -> 0 < pixel_sum img ->
  has_shape h w (rescale_image img) /\ unit_range (rescale_image img).
Proof.
  intros Hshape Hnn Hs. split; [now apply rescale_image_shape|].
  unfold unit_range, rescale_image. rewrite pixels_map.
  apply Forall_forall. intros y Hy. apply in_map_iff in Hy.
  destruct Hy as [x [<- Hx]].
  assert (H0 : 0 <= x) by (unfold nonneg_pixels in Hnn; rewrite Forall_forall in Hnn; auto).
  assert (H1 : x <= pixel_sum img) by (now apply reduce_sum_ge_elem).
  assert (Hi : 0 < / pixel_sum img) by now apply Rinv_0_lt_compat.
  unfold Rdiv. split; [nra|].
  apply (Rmult_le_reg_r (pixel_sum img)); [assumption|].
  rewrite Rmult_assoc, Rinv_l by lra. lra.
Qed.

(** X15: rescaling keeps the shape of an image, and takes an image without
    negative pixels and of positive pixel sum to pixels in [0, 1]. *)
Theorem rescale_image_unit_range (h w : nat) (img : image) :
  has_shape h w img -> nonneg_pixels img -> 0 < pixel_sum img ->
  has_shape h w (rescale_image img) /\ unit_range (rescale_image img).
Proof. apply rescale_image_in_range. Qed.

Lemma two_pixel_shape : has_shape 16 16 two_pixel_image.
Proof. split; [reflexivity|]. repeat constructor. Qed.

Lemma two_pixel_nonneg : nonneg_pixels two_pixel_image.
Proof.
  unfold nonneg_pixels, pixels, two_pixel_image. simpl.
  repeat (constructor; [lra|]). constructor.
Qed.

Lemma rescale_image_unit_range_witness :
  has_shape 16 16 (rescale_image two_pixel_image) /\
  unit_range (rescale_image two_pixel_image).
Proof.
  apply rescale_image_unit_range.
  - apply two_pixel_shape.
  - apply two_pixel_nonneg.
  - rewrite two_pixel_sum. lra.
Defined.

Lemma model_pixels_in_range (layers : image -> image) (x_in : image) :
  Forall (fun p => 0 <= p <= 1) (pixels (model layers x_in)).
Proof.
  unfold model, softmax. rewrite pixels_map. unfold reduce_logsumexp.
  set (logits := pixels (layers x_in)).
  apply Forall_forall. intros y Hy. apply in_map_iff in Hy.
  destruct Hy as [x [<- Hx]]. split; [left; apply exp_pos|].
  assert (Hle : exp x <= reduce_sum (map exp logits)).
  { apply reduce_sum_ge_elem.
    - apply Forall_forall. intros e He. apply in_map_iff in He.
      destruct He as [x' [<- _]]. left. apply exp_pos.
    - now apply in_map. }
  pose proof (exp_pos x) as Hpos.
  rewrite <- exp_0. apply exp_le.
  assert (x <= ln (reduce_sum (map exp logits))).
  { rewrite <- (ln_exp x) at 1. apply ln_le; assumption. }
  lra.
Qed.

(** X16: every pixel the autoencoder returns lies in [0, 1], whatever the layers
    before the softmax compute. *)
Theorem model_pixel_range (layers : image -> image) (x_in : image) :
  unit_range (model layers x_in).
Proof. apply model_pixels_in_range. Qed.

(** *** The reconstruction error *)

Lemma map2_cons {A C D : Type} (f : A -> C -> D) (a : A) (c : C) (l1 : list A) (l2 : list C) :
  map2 f (a :: l1) (c :: l2) = f a c :: map2 f l1 l2.
Proof. reflexivity. Qed.

Lemma squared_error_bounds (u v : vec) :
  nonneg u -> nonneg v ->
  0 <= reduce_sum (map2 (fun a b => (a - b) * (a - b)) u v) <= square_sum u + square_sum v.
Proof.
  intros Hu. revert v. induction Hu as [|a u Ha Hu IH]; intros v Hv.
  - change (map2 (fun a b => (a - b) * (a - b)) [] v) with (@nil R).
    change (reduce_sum []) with 0. change (square_sum []) with 0.
    pose proof (square_sum_nonneg v). lra.
  - destruct Hv as [|b v Hb Hv].
    + change (map2 (fun a b => (a - b) * (a - b)) (a :: u) []) with (@nil R).
      change (reduce_sum []) with 0. change (square_sum []) with 0.
      pose proof (square_sum_nonneg (a :: u)). lra.
    + rewrite map2_cons, reduce_sum_cons, !square_sum_cons.
      specialize (IH v Hv).
      pose proof (Rle_0_sqr (a - b)) as Hsq. unfold Rsqr in Hsq.
      assert (Hab : 0 <= a * b) by now apply Rmult_le_pos.
      split; lra.
Qed.

Lemma square_sum_le_sum_sq (v : vec) :
  nonneg v -> square_sum v <= reduce_sum v * reduce_sum v.
Proof.
  induction 1 as [|a v Ha Hv IH].
  - change (square_sum []) with 0. change (reduce_sum []) with 0. lra.
  - rewrite square_sum_cons, reduce_sum_cons.
    pose proof (reduce_sum_nonneg v Hv) as Hs.
    assert (Has : 0 <= a * reduce_sum v) by now apply Rmult_le_pos.
    lra.
Qed.

Lemma mse_loss_predict (layers : image -> image) (images : list image) :
  mse_loss (predict layers images) images
  = map (fun x => reduce_sum (map2 (fun a b => (a - b) * (a - b))
                                   (pixels (model layers x)) (pixels x))
                  / INR (im_size * im_size))
        images.
Proof.
  unfold mse_loss, predict. rewrite <- (map_id images) at 2.
  now rewrite map2_map_same.
Qed.

(** X17: the anomaly score of a normalized test image (no negative pixel, pixel
    sum 1) against its reconstruction lies between 0 and 2 / 256; there is
    one score per test image. *)
Theorem mse_loss_range (layers : image -> image) (images : list image) :
  Forall (fun x => nonneg_pixels x /\ pixel_sum x = 1 /\
                   has_shape im_size im_size (layers x)) images ->
  length (mse_loss (predict layers images) images) = length images /\
  Forall (fun score => 0 <= score <= 2 / INR (im_size * im_size))
         (mse_loss (predict layers images) images).
Proof.
  intros Himgs. rewrite mse_loss_predict. split; [apply length_map|].
  apply Forall_forall. intros y Hy. apply in_map_iff in Hy.
  destruct Hy as [x [<- Hx]]. rewrite Forall_forall in Himgs.
  destruct (Himgs x Hx) as (Hnn & Hsum & Hshape).
  assert (Hn : 0 < INR (im_size * im_size)) by (apply lt_0_INR; unfold im_size; simpl; lia).
  assert (Hi : 0 < / INR (im_size * im_size)) by now apply Rinv_0_lt_compat.
  assert (Hout : nonneg (pixels (model layers x))).
  { pose proof (model_pixels_in_range layers x) as Hr. unfold nonneg.
    rewrite Forall_forall in *. intros p Hp. specialize (Hr p Hp). lra. }
  assert (Hone : pixel_sum (model layers x) = 1).
  { apply softmax_sum. apply (has_shape_pixels 15 15). exact Hshape. }
  pose proof (squared_error_bounds _ _ Hout Hnn) as [Hlo Hhi].
  pose proof (square_sum_le_sum_sq _ Hout) as H1.
  pose proof (square_sum_le_sum_sq _ Hnn) as H2.
  unfold pixel_sum in Hone, Hsum. rewrite Hone in H1. rewrite Hsum in H2.
  unfold Rdiv. split.
  - apply Rmult_le_pos; lra.
  - apply Rmult_le_compat_r; lra.
Qed.

Lemma mse_loss_range_witness :
  length (mse_loss (predict flat_layers [rescale_image two_pixel_image])
                   [rescale_image two_pixel_image]) = 1%nat /\
  Forall (fun score => 0 <= score <= 2 / INR (im_size * im_size))
         (mse_loss (predict flat_layers [rescale_image two_pixel_image])
                   [rescale_image two_pixel_image]).
Proof.
  apply (mse_loss_range flat_layers [rescale_image two_pixel_image]).
  constructor; [|constructor].
  assert (Hs : 0 < pixel_sum two_pixel_image) by (rewrite two_pixel_sum; lra).
  split; [|split].
  - pose proof (rescale_image_in_range 16 16 two_pixel_image two_pixel_shape
                  two_pixel_nonneg Hs) as [_ Hr].
    unfold nonneg_pixels, unit_range in *. rewrite Forall_forall in *.
    intros p Hp. specialize (Hr p Hp). lra.
  - apply rescale_image_sum. lra.
  - split; [reflexivity|]. repeat constructor.
Defined.

(** *** The grid of plot_jet_images *)

Lemma plot_items_positions (n a : nat) (items : list (image * string)) :
  subplot_positions (flat_map (plot_one n) (combine (seq a (length items)) items))
  = map (fun i => (1%nat, n, (i + 1)%nat)) (seq a (length items)).
Proof.
  revert a. induction items as [|[img ttl] items IH]; intros a; [reflexivity|].
  simpl. unfold subplot_positions in *. simpl. f_equal. apply IH.
Qed.

Lemma plot_items_titles (n a : nat) (items : list (image * string)) :
  titles_set (flat_map (plot_one n) (combine (seq a (length items)) items)) = map snd items.
Proof.
  revert a. induction items as [|[img ttl] items IH]; intros a; [reflexivity|].
  simpl. unfold titles_set in *. simpl. f_equal. apply IH.
Qed.

Lemma map_snd_combine {A C : Type} (l1 : list A) (l2 : list C) :
  map snd (combine l1 l2) = firstn (length l1) l2.
Proof.
  revert l2. induction l1 as [|a l1 IH]; intros [|b l2]; simpl; try reflexivity.
  f_equal. apply IH.
Qed.

(** X18: the subplots fill the 1 x len(images) grid from the left: the k-th
    subplot drawn sits at position k, so no position is used twice and none
    lies outside the grid; the titles set are the first len(images) titles. *)
Theorem plot_jet_images_grid
    (images : list image) (titles : list string) (filename : option string) :
  let calls := plot_jet_images images titles filename in
  let drawn := Nat.min (length images) (length titles) in
  subplot_positions calls = map (fun i => (1%nat, length images, (i + 1)%nat)) (seq 0 drawn) /\
  Forall (fun p => (1 <= snd p <= length images)%nat) (subplot_positions calls) /\
  titles_set calls = firstn (length images) titles.
Proof.
  cbv zeta.
  assert (Hpos : subplot_positions (plot_jet_images images titles filename)
                 = map (fun i => (1%nat, length images, (i + 1)%nat))
                       (seq 0 (Nat.min (length images) (length titles)))).
  { unfold plot_jet_images, enumerate.
    change (figure ?w ?h :: ?l) with ([figure w h] ++ l).
    unfold subplot_positions. rewrite !flat_map_app.
    fold (subplot_positions
            (flat_map (plot_one (length images))
               (combine (seq 0 (length (combine images titles))) (combine images titles)))).
    rewrite plot_items_positions, length_combine. simpl. now rewrite app_nil_r. }
  split; [exact Hpos|]. split.
  - rewrite Hpos. apply Forall_forall. intros p Hp. apply in_map_iff in Hp.
    destruct Hp as [i [<- Hi]]. apply in_seq in Hi. simpl. lia.
  - unfold plot_jet_images, enumerate.
    change (figure ?w ?h :: ?l) with ([figure w h] ++ l).
    unfold titles_set. rewrite !flat_map_app.
    fold (titles_set
            (flat_map (plot_one (length images))
               (combine (seq 0 (length (combine images titles))) (combine images titles)))).
    rewrite plot_items_titles, map_snd_combine. simpl. now rewrite app_nil_r.
Qed.

End JetExtras.

(** ** The linear classifier *)

Module ClassifierFacts.
Import Tensor Encoder Classifier Notions ListFacts EncoderFacts EncoderShape JetExtras.

Lemma softmax_activation_length (v : vec) : length (softmax_activation v) = length v.
Proof. unfold softmax_activation. apply length_map. Qed.

Lemma softmax_activation_sum (v : vec) : v <> [] -> reduce_sum (softmax_activation v) = 1.
Proof.
  intros Hne. unfold softmax_activation.
  set (total := reduce_sum (map exp v)).
  assert (Hpos : 0 < total) by (apply reduce_sum_map_pos; [apply exp_pos|assumption]).
  rewrite (map_ext (fun x => exp x / total) (fun x => / total * exp x))
    by (intros x; unfold Rdiv; apply Rmult_comm).
  rewrite <- (map_map exp (fun y => / total * y)), reduce_sum_scale_l.
  fold total. apply Rinv_l. lra.
Qed.

Lemma softmax_activation_nonneg (v : vec) : nonneg (softmax_activation v).
Proof.
  unfold softmax_activation, nonneg. apply Forall_forall. intros y Hy.
  apply in_map_iff in Hy. destruct Hy as [x [<- Hx]].
  assert (0 < reduce_sum (map exp v)).
  { apply reduce_sum_map_pos; [apply exp_pos|]. intros ->. destruct Hx. }
  left. apply Rdiv_lt_0_compat; [apply exp_pos|assumption].
Qed.

(** X19: the classifier returns one row per input; when its last layer has at
    least one unit, every row has one entry per unit, no negative entry, and
    sums to 1. *)
Theorem classifier_probabilities
    (w : encoder_weights) (c : classifier_weights) (inputs : list tensor3) :
  let units := Nat.min (length (kernel (output_dense c))) (length (bias (output_dense c))) in
  (0 < units)%nat ->
  length (classifier w c inputs) = length inputs /\
  Forall (fun row => length row = units /\ nonneg row /\ reduce_sum row = 1)
         (classifier w c inputs).
Proof.
  cbv zeta. intros Hunits. unfold classifier, frozen_encoder. split.
  - rewrite !length_map. apply create_encoder_lengths.
  - apply Forall_forall. intros row Hrow. apply in_map_iff in Hrow.
    destruct Hrow as [h [<- _]]. unfold dense_softmax.
    set (pre := map2 Rplus (map (fun k => dot k h) (kernel (output_dense c)))
                     (bias (output_dense c))).
    assert (Hlen : length pre
                   = Nat.min (length (kernel (output_dense c))) (length (bias (output_dense c))))
      by (unfold pre; now rewrite length_map2, length_map).
    split; [|split].
    + now rewrite softmax_activation_length.
    + apply softmax_activation_nonneg.
    + apply softmax_activation_sum. intros E. rewrite E in Hlen. simpl in Hlen. lia.
Qed.

Lemma classifier_probabilities_witness :
  length (classifier fresh_weights flat_classifier [black_image]) = 1%nat /\
  Forall (fun row => length row = 10%nat /\ nonneg row /\ reduce_sum row = 1)
         (classifier fresh_weights flat_classifier [black_image]).
Proof.
  apply (classifier_probabilities fresh_weights flat_classifier [black_image]).
  cbn [flat_classifier output_dense flat_dense kernel bias].
  rewrite !repeat_length. simpl. lia.
Defined.

End ClassifierFacts.

